(** * monitor_deepseek_positions.py: a shallow embedding and its properties

    The Python module polls one web page, extracts the text of its
    "ACTIVE POSITIONS" section, and reports every change of that text.
    This development embeds the parts of the module that carry logic:

    - the string and number primitives of Python the module relies on
      ([str.upper], [str.strip], [str.replace], [str.title], [float],
      [re.search], [re.split], [json.dumps], [list.sort], the format
      [+.2f]);
    - [extract_unrealized_pnl], [parse_positions], [escape_html],
      [find_active_positions_container] and the polling loop of
      [run_monitor].

    Conventions.  A text is a sequence of ASCII characters ([list ascii]);
    the case mappings and character classes below are the ones Python applies
    to code points below 128, and a byte above 127 is a caseless symbol that
    is neither a space, a digit nor a word character.  A Python [float] is
    modelled by the exact rational value of the binary64 number it denotes,
    or an infinity or NaN; the sign of zero is not represented.  Python
    exceptions of class [Exception] are the left summand of the error monad
    [py]; a function that can raise returns in [py].  The browser is
    represented by the outcome of each call made on a page; printing, the
    log file, screenshots and alerts are recorded as the list of effects of
    a pass of the loop.

    The file has three parts: the embedding, the lemmas about it, and the
    theorems that settle the claims C1 to C10 of the specification, in that
    order. *)

From Stdlib Require Import List String Ascii Bool Arith ZArith QArith Lia.
From Stdlib Require Import Permutation Sorted.
From Stdlib Require DecimalString.
From ExtLib Require Import Structures.Monad Structures.MonadExc.
From ExtLib Require Import Data.Monads.EitherMonad.
Import ListNotations.
Import MonadNotation.
Local Open Scope monad_scope.
Local Close Scope Q_scope.
Local Open Scope nat_scope.
Local Open Scope list_scope.

(** ** Texts *)

Definition text := list ascii.

Definition T (s : string) : text := list_ascii_of_string s.

Definition code (c : ascii) : nat := nat_of_ascii c.

Definition between (lo hi : nat) (c : ascii) : bool :=
  (lo <=? code c) && (code c <=? hi).

Definition is_digit (c : ascii) : bool := between 48 57 c.
Definition is_upper (c : ascii) : bool := between 65 90 c.
Definition is_lower (c : ascii) : bool := between 97 122 c.
Definition is_alpha (c : ascii) : bool := is_upper c || is_lower c.

(** [str.isspace], the characters [str.strip] removes and the class [\s]
    of [re]: tab to carriage return, the four separators 28..31, space. *)
Definition is_space (c : ascii) : bool :=
  between 9 13 c || between 28 32 c.

(** The white space the C library strips, used by [float]. *)
Definition is_c_space (c : ascii) : bool :=
  between 9 13 c || (code c =? 32).

(** The class [\w] of [re]. *)
Definition is_word (c : ascii) : bool :=
  is_alpha c || is_digit c || (code c =? 95).

Definition upper_char (c : ascii) : ascii :=
  if is_lower c then ascii_of_nat (code c - 32) else c.

Definition lower_char (c : ascii) : ascii :=
  if is_upper c then ascii_of_nat (code c + 32) else c.

(** [str.upper] *)
Definition upper (s : text) : text := map upper_char s.

(** [str.title]: the first letter of every run of letters in upper case,
    the other letters of the run in lower case. *)
Fixpoint title_from (prev_cased : bool) (s : text) : text :=
  match s with
  | [] => []
  | c :: s' =>
      (if prev_cased then lower_char c else upper_char c)
        :: title_from (is_alpha c) s'
  end.

Definition title (s : text) : text := title_from false s.

Fixpoint lstrip_by (sp : ascii -> bool) (s : text) : text :=
  match s with
  | [] => []
  | c :: s' => if sp c then lstrip_by sp s' else s
  end.

Definition strip_by (sp : ascii -> bool) (s : text) : text :=
  rev (lstrip_by sp (rev (lstrip_by sp s))).

(** [str.strip] *)
Definition strip (s : text) : text := strip_by is_space s.

Definition ascii_eqb (a b : ascii) : bool := Ascii.eqb a b.

Fixpoint starts_with (p s : text) : bool :=
  match p, s with
  | [], _ => true
  | _ :: _, [] => false
  | a :: p', b :: s' => ascii_eqb a b && starts_with p' s'
  end.

(** [str.replace old new] for a non-empty [old]: occurrences are found left
    to right and do not overlap.  [skip] counts the characters of an
    occurrence that are still to be passed over. *)
Fixpoint replace_from (old new : text) (skip : nat) (s : text) : text :=
  match s with
  | [] => []
  | c :: s' =>
      match skip with
      | S n => replace_from old new n s'
      | O =>
          if starts_with old s
          then new ++ replace_from old new (List.length old - 1) s'
          else c :: replace_from old new 0 s'
      end
  end.

(** With an empty [old], Python puts [new] before every character and at
    the end. *)
Fixpoint intersperse_all (new s : text) : text :=
  match s with
  | [] => new
  | c :: s' => new ++ c :: intersperse_all new s'
  end.

Definition replace (old new s : text) : text :=
  match old with
  | [] => intersperse_all new s
  | _ :: _ => replace_from old new 0 s
  end.

(** ** Exceptions *)

Inductive exn : Type :=
| ValueError
| AttributeError
| PageError (what : string).

Abbreviation py := (sum exn).

(** [try: body except Exception: handler] *)
Definition try_except {A : Type} (body : py A) (handler : py A) : py A :=
  catch body (fun _ => handler).

(** ** Floats *)

Inductive pyfloat : Type :=
| Fin (q : Q)
| PInf
| NInf
| NaN.

(** [n / d < 2 ^ e] *)
Definition below_pow2 (n d e : Z) : bool :=
  if (0 <=? e)%Z then (n <? d * 2 ^ e)%Z else (n * 2 ^ (- e) <? d)%Z.

(** Round the positive rational [n / d] to the nearest binary64 number,
    ties to even; 53 bits of precision, least exponent -1022, overflow to
    infinity from [2 ^ 1024] on. *)
Definition b64_round_pos (n d : positive) : pyfloat :=
  let e0 := (Z.log2 (Zpos n) - Z.log2 (Zpos d))%Z in
  let e := if below_pow2 (Zpos n) (Zpos d) e0 then (e0 - 1)%Z else e0 in
  let u := (Z.max e (-1022) - 52)%Z in
  let num := if (0 <=? u)%Z then Zpos n else (Zpos n * 2 ^ (- u))%Z in
  let den := if (0 <=? u)%Z then (Zpos d * 2 ^ u)%Z else Zpos d in
  let m0 := (num / den)%Z in
  let r2 := (2 * (num mod den))%Z in
  let m :=
    if (r2 <? den)%Z then m0
    else if (den <? r2)%Z then (m0 + 1)%Z
    else if Z.even m0 then m0 else (m0 + 1)%Z in
  let v := if (0 <=? u)%Z then inject_Z (m * 2 ^ u)
           else Qmake m (Z.to_pos (2 ^ (- u))) in
  if Qle_bool (inject_Z (2 ^ 1024)) v then PInf else Fin (Qred v).

Definition b64_round (q : Q) : pyfloat :=
  match Qnum q with
  | Z0 => Fin 0%Q
  | Zpos n => b64_round_pos n (Qden q)
  | Zneg n =>
      match b64_round_pos n (Qden q) with
      | Fin v => Fin (Qred (- v)%Q)
      | _ => NInf
      end
  end.

Definition fneg (x : pyfloat) : pyfloat :=
  match x with
  | Fin q => Fin (Qred (- q)%Q)
  | PInf => NInf
  | NInf => PInf
  | NaN => NaN
  end.

(** [x - y] *)
Definition fsub (x y : pyfloat) : pyfloat :=
  match x, y with
  | NaN, _ | _, NaN => NaN
  | Fin a, Fin b => b64_round (a - b)%Q
  | Fin _, PInf => NInf
  | Fin _, NInf => PInf
  | PInf, PInf => NaN
  | PInf, _ => PInf
  | NInf, NInf => NaN
  | NInf, _ => NInf
  end.

(** [x < y] *)
Definition flt (x y : pyfloat) : bool :=
  match x, y with
  | NaN, _ | _, NaN => false
  | Fin a, Fin b => negb (Qle_bool b a)
  | Fin _, PInf => true
  | Fin _, NInf => false
  | PInf, _ => false
  | NInf, NInf => false
  | NInf, _ => true
  end.

(** [x == y] *)
Definition feq (x y : pyfloat) : bool :=
  match x, y with
  | Fin a, Fin b => Qeq_bool a b
  | PInf, PInf => true
  | NInf, NInf => true
  | _, _ => false
  end.

(** [x <= y] *)
Definition fle (x y : pyfloat) : bool := flt x y || feq x y.

(** Truth value of a float: every float but zero is true. *)
Definition ftruthy (x : pyfloat) : bool :=
  match x with
  | Fin q => negb (Qeq_bool q 0%Q)
  | _ => true
  end.

(** [x or 0.0] for a float [x] *)
Definition or_zero (x : pyfloat) : pyfloat :=
  if ftruthy x then x else Fin 0.

(** [x or 0.0] for [x] a float or [None] *)
Definition value_or_zero (x : option pyfloat) : pyfloat :=
  match x with
  | Some v => or_zero v
  | None => Fin 0
  end.

Definition digit_val (c : ascii) : Z := Z.of_nat (code c - 48).

Fixpoint digits_val (acc : Z) (s : text) : Z :=
  match s with
  | [] => acc
  | c :: s' => digits_val (10 * acc + digit_val c) s'
  end.

Fixpoint span (p : ascii -> bool) (s : text) : text * text :=
  match s with
  | [] => ([], [])
  | c :: s' =>
      if p c then let '(a, b) := span p s' in (c :: a, b) else ([], s)
  end.

(** The unsigned part of a float literal: digits, optionally a point and
    further digits, with a digit on at least one side of the point. *)
Definition unsigned_literal (s : text) : py Q :=
  let '(ip, r) := span is_digit s in
  match r with
  | [] =>
      match ip with
      | [] => raise ValueError
      | _ :: _ => ret (inject_Z (digits_val 0 ip))
      end
  | c :: r' =>
      if ascii_eqb c "."%char then
        let '(fp, r'') := span is_digit r' in
        match r'', ip ++ fp with
        | [], _ :: _ =>
            ret (Qmake (digits_val 0 (ip ++ fp))
                       (Z.to_pos (10 ^ Z.of_nat (List.length fp))))
        | _, _ => raise ValueError
        end
      else raise ValueError
  end.

(** [float(s)] on the strings this module passes to it.  These are made of
    digits, points, signs and white space only: they are what is left of a
    captured amount (lemmas [patterns_capture_amounts] and
    [position_pnl_amount] below).  The literals with an exponent, an
    underscore, "inf" or "nan" that Python also accepts cannot occur and
    are not modelled: a string with any other character raises [ValueError]
    here.  The conversion rounds correctly, as Python's does. *)
Definition float_of_string (s : text) : py pyfloat :=
  match strip_by is_c_space s with
  | [] => raise ValueError
  | c :: r =>
      if ascii_eqb c "-"%char then
        q <- unsigned_literal r ;; ret (b64_round (- q)%Q)
      else if ascii_eqb c "+"%char then
        q <- unsigned_literal r ;; ret (b64_round q)
      else
        q <- unsigned_literal (c :: r) ;; ret (b64_round q)
  end.

(** ** Regular expressions

    The fragment of [re] the module's patterns are written in.  Every
    repetition in them is over a single character class, at most one group
    captures, and [re.IGNORECASE] only ever meets literal letters.  The
    matcher is Python's: it backtracks, alternatives are tried in order and
    repetitions are greedy. *)

Inductive regex : Type :=
| Lit (s : text)              (* literal characters *)
| Cls (p : ascii -> bool)     (* one character of a class *)
| Star (p : ascii -> bool)    (* class*, greedy *)
| Plus (p : ascii -> bool)    (* class+, greedy *)
| Opt (r : regex)             (* r?, greedy *)
| Seq (r1 r2 : regex)
| Alt (r1 r2 : regex)         (* r1|r2, tried in this order *)
| Group (r : regex)           (* ( r ), the capturing group 1 *)
| WordB.                      (* \b *)

(** What is still to be matched: a continuation takes the position reached
    (the text before the cursor, last character first, and the text from
    the cursor on) and what group 1 holds. *)
Definition cont (A : Type) : Type :=
  text -> text -> option text -> option A.

Definition char_eqb (ic : bool) (a b : ascii) : bool :=
  if ic then ascii_eqb (lower_char a) (lower_char b) else ascii_eqb a b.

Fixpoint lit_match (ic : bool) (s prev rest : text) : option (text * text) :=
  match s with
  | [] => Some (prev, rest)
  | a :: s' =>
      match rest with
      | [] => None
      | c :: rest' =>
          if char_eqb ic a c then lit_match ic s' (c :: prev) rest' else None
      end
  end.

Fixpoint star_match {A : Type} (p : ascii -> bool) (prev rest : text)
    (g : option text) (k : cont A) : option A :=
  match rest with
  | [] => k prev rest g
  | c :: rest' =>
      if p c then
        match star_match p (c :: prev) rest' g k with
        | Some a => Some a
        | None => k prev rest g
        end
      else k prev rest g
  end.

Definition word_before (prev : text) : bool :=
  match prev with
  | [] => false
  | c :: _ => is_word c
  end.

(** The characters consumed between two cursor positions. *)
Definition consumed (prev prev' : text) : text :=
  rev (firstn (List.length prev' - List.length prev) prev').

Fixpoint rmatch {A : Type} (ic : bool) (r : regex) (prev rest : text)
    (g : option text) (k : cont A) : option A :=
  match r with
  | Lit s =>
      match lit_match ic s prev rest with
      | Some (prev', rest') => k prev' rest' g
      | None => None
      end
  | Cls p =>
      match rest with
      | [] => None
      | c :: rest' => if p c then k (c :: prev) rest' g else None
      end
  | Star p => star_match p prev rest g k
  | Plus p =>
      match rest with
      | [] => None
      | c :: rest' => if p c then star_match p (c :: prev) rest' g k else None
      end
  | Opt r1 =>
      match rmatch ic r1 prev rest g k with
      | Some a => Some a
      | None => k prev rest g
      end
  | Seq r1 r2 =>
      rmatch ic r1 prev rest g
        (fun prev' rest' g' => rmatch ic r2 prev' rest' g' k)
  | Alt r1 r2 =>
      match rmatch ic r1 prev rest g k with
      | Some a => Some a
      | None => rmatch ic r2 prev rest g k
      end
  | Group r1 =>
      rmatch ic r1 prev rest g
        (fun prev' rest' _ => k prev' rest' (Some (consumed prev prev')))
  | WordB =>
      if xorb (word_before prev) (word_before rest)
      then k prev rest g else None
  end.

Definition is_some {A : Type} (o : option A) : bool :=
  match o with Some _ => true | None => false end.

(** A match object: where the match ends and what group 1 captured. *)
Record rematch : Type := {
  m_prev : text;            (* the subject up to the end of the match, reversed *)
  m_rest : text;            (* the subject after the match *)
  m_group : option text
}.

(** The match that starts exactly at the cursor. *)
Definition match_here (ic : bool) (r : regex) (prev rest : text)
    : option rematch :=
  rmatch ic r prev rest None
    (fun prev' rest' g => Some {| m_prev := prev'; m_rest := rest'; m_group := g |}).

(** [re.search]: the match at the leftmost position that has one. *)
Fixpoint search_from (ic : bool) (r : regex) (prev rest : text)
    : option rematch :=
  match match_here ic r prev rest with
  | Some m => Some m
  | None =>
      match rest with
      | [] => None
      | c :: rest' => search_from ic r (c :: prev) rest'
      end
  end.

Definition re_search (ic : bool) (r : regex) (s : text) : option rematch :=
  search_from ic r [] s.

(** [m.group(1)] followed by a string method: a group that did not take
    part in the match is [None], which has no string methods. *)
Definition group1 (m : rematch) : py text :=
  match m_group m with
  | Some s => ret s
  | None => raise AttributeError
  end.

(** [re.split] for a pattern that matches no empty string: the pieces of
    the subject between the successive matches, found left to right, each
    search resuming where the previous match ended.  [skip] counts the
    characters of the current match still to be passed over, [piece] holds
    the current piece, reversed. *)
Fixpoint split_from (ic : bool) (r : regex) (prev : text) (skip : nat)
    (piece rest : text) : list text :=
  match rest with
  | [] => [rev piece]
  | c :: rest' =>
      match skip with
      | S n => split_from ic r (c :: prev) n piece rest'
      | O =>
          match match_here ic r prev rest with
          | Some m =>
              match List.length (m_prev m) - List.length prev with
              | S n => rev piece :: split_from ic r (c :: prev) n [] rest'
              | O => split_from ic r (c :: prev) 0 (c :: piece) rest'
              end
          | None => split_from ic r (c :: prev) 0 (c :: piece) rest'
          end
      end
  end.

Definition re_split (ic : bool) (r : regex) (s : text) : list text :=
  split_from ic r [] 0 [] s.

(** The number of successive matches of [r] in the subject, found as
    [re.split] and [re.findall] find them. *)
Fixpoint count_from (ic : bool) (r : regex) (prev : text) (skip : nat)
    (rest : text) : nat :=
  match rest with
  | [] => 0
  | c :: rest' =>
      match skip with
      | S n => count_from ic r (c :: prev) n rest'
      | O =>
          match match_here ic r prev rest with
          | Some m =>
              match List.length (m_prev m) - List.length prev with
              | S n => S (count_from ic r (c :: prev) n rest')
              | O => count_from ic r (c :: prev) 0 rest'
              end
          | None => count_from ic r (c :: prev) 0 rest'
          end
      end
  end.

Definition count_matches (ic : bool) (r : regex) (s : text) : nat :=
  count_from ic r [] 0 s.



Fixpoint seqs (rs : list regex) : regex :=
  match rs with
  | [] => Lit []
  | [r] => r
  | r :: rs' => Seq r (seqs rs')
  end.

Fixpoint alts (rs : list regex) : regex :=
  match rs with
  | [] => Cls (fun _ => false)
  | [r] => r
  | r :: rs' => Alt r (alts rs')
  end.

Definition one_of (s : string) (c : ascii) : bool :=
  existsb (ascii_eqb c) (T s).

Definition none_of (s : string) (c : ascii) : bool := negb (one_of s c).

Definition newline : ascii := ascii_of_nat 10.

(** [[0-9,]] *)
Definition digit_or_comma (c : ascii) : bool := is_digit c || one_of "," c.

(** [[^\n$]] *)
Definition not_newline_dollar (c : ascii) : bool :=
  negb (ascii_eqb c newline) && none_of "$" c.

(** [[0-9,]+(?:\.[0-9]+)?] *)
Definition amount_re : regex :=
  Seq (Plus digit_or_comma) (Opt (Seq (Lit (T ".")) (Plus is_digit))).

(** ** extract_unrealized_pnl *)

(** [UNREALIZED[^\n$]*\$\s*([0-9,]+(?:\.[0-9]+)?)] *)
Definition pnl_pattern_1 : regex :=
  seqs [Lit (T "UNREALIZED"); Star not_newline_dollar; Lit (T "$");
        Star is_space; Group amount_re].

(** [UNREALISED[^\n$]*\$\s*([0-9,]+(?:\.[0-9]+)?)] *)
Definition pnl_pattern_2 : regex :=
  seqs [Lit (T "UNREALISED"); Star not_newline_dollar; Lit (T "$");
        Star is_space; Group amount_re].

(** [UNREALIZED[^\n$]*([-+]?\$\s*[0-9,]+(?:\.[0-9]+)?)] *)
Definition pnl_pattern_3 : regex :=
  seqs [Lit (T "UNREALIZED"); Star not_newline_dollar;
        Group (seqs [Opt (Cls (one_of "-+")); Lit (T "$"); Star is_space;
                     amount_re])].

Definition patterns : list regex :=
  [pnl_pattern_1; pnl_pattern_2; pnl_pattern_3].

(** [val.replace("$", "").replace(",", "").strip()] *)
Definition clean_amount (val : text) : text :=
  strip (replace (T ",") [] (replace (T "$") [] val)).

(** The body of the loop over [patterns]: [Some v] stands for [return v],
    [None] for falling through to the next pattern (no match, or
    [continue] after [float] raised). *)
Definition try_pattern (up : text) (pat : regex) : py (option pyfloat) :=
  match re_search false pat up with
  | Some m =>
      val <- group1 m ;;
      try_except (v <- float_of_string (clean_amount val) ;; ret (Some v))
                 (ret None)
  | None => ret None
  end.

Fixpoint first_pattern (up : text) (pats : list regex) : py (option pyfloat) :=
  match pats with
  | [] => ret None
  | pat :: pats' =>
      r <- try_pattern up pat ;;
      match r with
      | Some v => ret (Some v)
      | None => first_pattern up pats'
      end
  end.

Definition extract_unrealized_pnl (s : text) : py (option pyfloat) :=
  match s with
  | [] => ret None
  | _ :: _ => first_pattern (upper s) patterns
  end.

(** ** parse_positions *)

(** [Entry Time:\s*\d+:\d+:\d+], used with [re.IGNORECASE] *)
Definition entry_time_re : regex :=
  seqs [Lit (T "Entry Time:"); Star is_space; Plus is_digit; Lit (T ":");
        Plus is_digit; Lit (T ":"); Plus is_digit].

(** [Side:\s*(LONG|SHORT)] *)
Definition side_re : regex :=
  seqs [Lit (T "Side:"); Star is_space;
        Group (Alt (Lit (T "LONG")) (Lit (T "SHORT")))].

(** [Entry Price:\s*\$?([0-9,]+(?:\.[0-9]+)?)] *)
Definition entry_price_re : regex :=
  seqs [Lit (T "Entry Price:"); Star is_space; Opt (Lit (T "$"));
        Group amount_re].

(** [Leverage:\s*(\d+)\s*X] *)
Definition leverage_re : regex :=
  seqs [Lit (T "Leverage:"); Star is_space; Group (Plus is_digit);
        Star is_space; Lit (T "X")].

(** [Unrealized P&L:\s*([+-]?\$\s*[0-9,]+(?:\.[0-9]+)?)], used with
    [re.IGNORECASE] *)
Definition position_pnl_re : regex :=
  seqs [Lit (T "Unrealized P&L:"); Star is_space;
        Group (seqs [Opt (Cls (one_of "+-")); Lit (T "$"); Star is_space;
                     amount_re])].

(** [Quantity:\s*([0-9,]+(?:\.[0-9]+)?)] *)
Definition quantity_re : regex :=
  seqs [Lit (T "Quantity:"); Star is_space; Group amount_re].

Definition symbols : list string :=
  ["BTC"; "ETH"; "SOL"; "XRP"; "BNB"; "DOGE"; "ADA"; "AVAX"; "TON"; "LTC";
   "DOT"; "LINK"; "ATOM"; "APE"; "NEAR"; "OP"; "ARB"; "FTM"; "SUI"; "SEI";
   "PEPE"; "SHIB"; "XLM"; "ETC"; "BCH"; "APT"; "TIA"; "INJ"; "RUNE"; "UNI";
   "MATIC"; "POL"; "WIF"; "ORDI"]%string.

(** [BTC|ETH|...|ORDI] *)
Definition symbols_pattern : regex :=
  alts (map (fun s => Lit (T s)) symbols).

(** [\b({symbols_pattern})\b] *)
Definition symbol_re : regex :=
  seqs [WordB; Group symbols_pattern; WordB].

(** The dictionary appended to [results]. *)
Record Position : Type := {
  symbol : text;
  side : text;
  leverage : text;
  pnl_value : option pyfloat;
  pnl_text : text;
  entry_price : text
}.

Inductive pyval : Type :=
| VStr (s : text)
| VFloat (x : pyfloat)
| VNone.

(** The keys of that dictionary and their values, in the order of the
    dictionary display. *)
Definition position_items (p : Position) : list (string * pyval) :=
  [("symbol", VStr (symbol p));
   ("side", VStr (side p));
   ("leverage", VStr (leverage p));
   ("pnl_value", match pnl_value p with Some x => VFloat x | None => VNone end);
   ("pnl_text", VStr (pnl_text p));
   ("entry_price", VStr (entry_price p))]%string.

(** [d.get(key)] *)
Fixpoint dict_get (key : string) (d : list (string * pyval)) : option pyval :=
  match d with
  | [] => None
  | (k, v) :: d' => if String.eqb k key then Some v else dict_get key d'
  end.

Definition is_empty (s : text) : bool :=
  match s with [] => true | _ :: _ => false end.

Definition is_empty_list {A : Type} (l : list A) : bool :=
  match l with [] => true | _ :: _ => false end.

(** [==] on strings *)
Fixpoint text_eqb (a b : text) : bool :=
  match a, b with
  | [], [] => true
  | x :: a', y :: b' => ascii_eqb x y && text_eqb a' b'
  | _, _ => false
  end.

(** The price ranges of the symbol heuristic. *)
Definition symbol_from_price (price : pyfloat) : text :=
  if flt price (Fin (1 # 2)) then []
  else if fle (Fin (1 # 2)) price && flt price (Fin 10) then T "SOL"
  else if fle (Fin 1000) price && flt price (Fin 5000) then T "ETH"
  else if fle (Fin 50000) price && flt price (Fin 150000) then T "BTC"
  else [].

(** The body of the loop over the blocks: the dictionary appended for this
    block, if one is. *)
Definition parse_block (block : text) : py (option Position) :=
  let block_upper := upper block in
  let side_m := re_search false side_re block_upper in
  let entry_price_m := re_search false entry_price_re block_upper in
  let leverage_m := re_search false leverage_re block_upper in
  let pnl_m := re_search true position_pnl_re block_upper in
  let quantity_m := re_search false quantity_re block_upper in
  let sym_m := re_search false symbol_re block_upper in
  symbol0 <- match sym_m with Some m => group1 m | None => ret [] end ;;
  symbol1 <-
    match entry_price_m with
    | Some m =>
        if is_empty symbol0 then
          g <- group1 m ;;
          price <- float_of_string (replace (T ",") [] g) ;;
          ret (symbol_from_price price)
        else ret symbol0
    | None => ret symbol0
    end ;;
  side1 <- match side_m with
           | Some m => g <- group1 m ;; ret (title g)
           | None => ret []
           end ;;
  leverage1 <- match leverage_m with
               | Some m => g <- group1 m ;; ret (g ++ T "X")
               | None => ret []
               end ;;
  pnl_text1 <- match pnl_m with
               | Some m => g <- group1 m ;; ret (strip (replace (T " ") [] g))
               | None => ret []
               end ;;
  entry_price1 <- match entry_price_m with
                  | Some m => group1 m
                  | None => ret []
                  end ;;
  pnl_value1 <-
    (if is_empty pnl_text1 then ret None
     else
       try_except
         (v <- float_of_string
                 (replace (T "+") [] (replace (T ",") []
                    (replace (T "$") [] pnl_text1))) ;;
          ret (Some v))
         (ret None)) ;;
  if is_some pnl_m || is_some side_m then
    ret (Some {| symbol := symbol1; side := side1; leverage := leverage1;
                 pnl_value := pnl_value1; pnl_text := pnl_text1;
                 entry_price := entry_price1 |})
  else ret None.

(** The loop over the blocks: [results] before it is sorted. *)
Fixpoint parse_blocks (blocks : list text) : py (list Position) :=
  match blocks with
  | [] => ret []
  | block :: blocks' =>
      r <- parse_block block ;;
      rs <- parse_blocks blocks' ;;
      ret (match r with Some p => p :: rs | None => rs end)
  end.

(** The sort key [(r["pnl_value"] is None, -(r["pnl_value"] or 0.0))]. *)
Definition sort_key (p : Position) : bool * pyfloat :=
  (negb (is_some (pnl_value p)), fneg (value_or_zero (pnl_value p))).

(** [<] on such pairs: the first components that differ decide. *)
Definition key_lt (a b : bool * pyfloat) : bool :=
  if Bool.eqb (fst a) (fst b) then
    if feq (snd a) (snd b) then false else flt (snd a) (snd b)
  else negb (fst a) && fst b.

(** [list.sort(key=...)] is a stable sort: it yields the one arrangement of
    the list that is ordered by key and keeps elements of equal key in their
    former order.  Insertion from the right computes that arrangement. *)
Fixpoint insert_by {A K : Type} (lt : K -> K -> bool) (key : A -> K)
    (x : A) (l : list A) : list A :=
  match l with
  | [] => [x]
  | y :: l' =>
      if lt (key y) (key x) then y :: insert_by lt key x l' else x :: l
  end.

Fixpoint sort_by {A K : Type} (lt : K -> K -> bool) (key : A -> K)
    (l : list A) : list A :=
  match l with
  | [] => []
  | x :: l' => insert_by lt key x (sort_by lt key l')
  end.

(** [x] may stand before [y] in a list ordered by [key]. *)
Definition in_order {A K : Type} (lt : K -> K -> bool) (key : A -> K)
    (x y : A) : Prop :=
  lt (key y) (key x) = false.

(** The blocks after the first one of the split at the entry times. *)
Definition position_blocks (s : text) : list text :=
  tl (re_split true entry_time_re s).

(** [results] as the loop leaves it. *)
Definition unsorted_positions (s : text) : py (list Position) :=
  match s with
  | [] => ret []
  | _ :: _ => parse_blocks (position_blocks s)
  end.

Definition parse_positions (s : text) : py (list Position) :=
  results <- unsorted_positions s ;;
  ret (sort_by key_lt sort_key results).

(** ** escape_html *)

Definition dquote : ascii := ascii_of_nat 34.

(** For a string argument; the empty string is its own escape. *)
Definition escape_html (s : text) : text :=
  match s with
  | [] => []
  | _ :: _ =>
      replace (T "'") (T "&#x27;")
        (replace [dquote] (T "&quot;")
           (replace (T ">") (T "&gt;")
              (replace (T "<") (T "&lt;")
                 (replace (T "&") (T "&amp;") s))))
  end.

(** ** json.dumps of the payload *)

Definition hex_digit (n : nat) : ascii :=
  if n <? 10 then ascii_of_nat (48 + n) else ascii_of_nat (87 + n).

Definition backslash : ascii := ascii_of_nat 92.

(** One character of a JSON string under [ensure_ascii=False]. *)
Definition json_char (c : ascii) : text :=
  let n := code c in
  if n =? 34 then [backslash; dquote]
  else if n =? 92 then [backslash; backslash]
  else if n =? 10 then [backslash; "n"%char]
  else if n =? 13 then [backslash; "r"%char]
  else if n =? 9 then [backslash; "t"%char]
  else if n =? 8 then [backslash; "b"%char]
  else if n =? 12 then [backslash; "f"%char]
  else if n <? 32 then
    [backslash; "u"%char; "0"%char; "0"%char;
     hex_digit (n / 16); hex_digit (n mod 16)]
  else [c].

Definition json_string (s : text) : text :=
  dquote :: flat_map json_char s ++ [dquote].

Definition MODEL_DISPLAY_NAME : text := T "DEEPSEEK CHAT V3.1".

(** [json.dumps({"timestamp": ts, "model": MODEL_DISPLAY_NAME,
    "active_positions": s}, ensure_ascii=False)] *)
Definition payload_json (ts s : text) : text :=
  T "{" ++ json_string (T "timestamp") ++ T ": " ++ json_string ts
    ++ T ", " ++ json_string (T "model") ++ T ": "
    ++ json_string MODEL_DISPLAY_NAME
    ++ T ", " ++ json_string (T "active_positions") ++ T ": "
    ++ json_string s ++ T "}".

(** ** Formatting the delta *)

Definition round_half_even (q : Q) : Z :=
  let n := Qnum q in
  let d := Zpos (Qden q) in
  let f := (n / d)%Z in
  let r2 := (2 * (n mod d))%Z in
  if (r2 <? d)%Z then f
  else if (d <? r2)%Z then (f + 1)%Z
  else if Z.even f then f else (f + 1)%Z.

Definition decimal (n : Z) : text :=
  T (DecimalString.NilZero.string_of_uint (N.to_uint (Z.to_N n))).

(** [f"{x:+.2f}"]; a zero is written +0.00. *)
Definition format_plus_2f (x : pyfloat) : text :=
  match x with
  | Fin q =>
      let n := round_half_even (Qmake (Z.abs (Qnum q) * 100) (Qden q)) in
      let frac := (n mod 100)%Z in
      (if Qle_bool 0%Q q then T "+" else T "-")
        ++ decimal (n / 100)%Z ++ T "."
        ++ decimal (frac / 10)%Z ++ decimal (frac mod 10)%Z
  | PInf => T "+inf"
  | NInf => T "-inf"
  | NaN => T "+nan"
  end.

(** ** find_active_positions_container *)

(** What [page.evaluate(script)] hands back: [None] or an object whose
    entries "text" and "selector" may be missing. *)
Record EvalResult : Type := {
  res_text : option text;
  res_selector : option text
}.

(** A loaded page, by the outcome of each of the three calls made on it. *)
Record Page : Type := {
  scroll_into_view : py unit;
  evaluate : py (option EvalResult);
  inner_text_body : py text
}.

(** [(res or {}).get(key) or ""] *)
Definition entry_or_empty (res : option EvalResult)
    (get : EvalResult -> option text) : text :=
  match res with
  | Some r => match get r with Some s => s | None => [] end
  | None => []
  end.

(** The locator [page.get_by_text(...)] is built without touching the page;
    the first call that can raise is the scroll. *)
Definition find_active_positions_container (page : Page)
    : py (text * option text) :=
  try_except (scroll_into_view page) (ret tt) ;;
  try_except
    (res <- evaluate page ;;
     let text := entry_or_empty res res_text in
     let selector := entry_or_empty res res_selector in
     ret (text, if is_empty selector then None else Some selector))
    (try_except
       (body_text <- inner_text_body page ;; ret (body_text, None))
       (ret ([], None))).

(** ** run_monitor *)

Record Args : Type := {
  visual : bool;
  notify : bool;
  sound : bool;
  popup : bool
}.

Record Caps : Type := {
  PLYER_AVAILABLE : bool;
  RICH_AVAILABLE : bool;
  TKINTER_AVAILABLE : bool
}.

(** The two variables the loop owns. *)
Record Monitor : Type := {
  last_text : option text;
  last_unrealized : option pyfloat
}.

(** The lines the loop prints.  [PositionsUpdated delta] is the line
    announcing a change, which ends in [delta_message delta]. *)
Inductive message : Type :=
| NoContentWarning
| PayloadLine (json : text)
| ReloadFailed
| RetryFailed
| Initialized
| PositionsUpdated (delta : option pyfloat)
| NoChange
| RichMissing
| PlyerMissing
| TkinterMissing.

(** What one pass does to the world outside the two variables. *)
Inductive effect : Type :=
| Sleep (seconds : nat)
| Print (m : message)
| DebugScreenshot
| AppendLog (chunk : text)
| Screenshot (selector : option text)
| RenderTable (positions : list Position)
| WriteHtml (positions : list Position)
| Notify (title msg : text)
| PlaySound
| ShowPopup (title msg : text) (positions : list Position).

(** What the environment decides in one pass of the loop. *)
Record Cycle : Type := {
  reload_ok : bool;         (* page.reload and wait_loaded succeed *)
  goto_ok : bool;           (* the retry with page.goto succeeds *)
  page : Page;              (* the page as loaded *)
  ts_now : text;            (* utc_now_iso() *)
  log_writable : bool       (* opening and writing positions-log.txt succeeds *)
}.

(** The delta sign, U+0394, as its two UTF-8 bytes. *)
Definition delta_sign : text := [ascii_of_nat 206; ascii_of_nat 148].

(** [delta_msg]: empty, or an f-string that reads, with the delta sign
    for D, [" (D Unrealized P&L: {delta:+.2f})"] *)
Definition delta_message (delta : option pyfloat) : text :=
  match delta with
  | Some d =>
      T " (" ++ delta_sign ++ T " Unrealized P&L: " ++ format_plus_2f d
        ++ T ")"
  | None => []
  end.

(** The delta of a change: defined when both values are. *)
Definition pnl_delta (last curr : option pyfloat) : option pyfloat :=
  match last, curr with
  | Some l, Some c => Some (fsub c l)
  | _, _ => None
  end.

Definition when (b : bool) (es : list effect) : list effect :=
  if b then es else [].

(** The initial scrape, after the first navigation succeeded. *)
Definition initialize (pg : Page) (ts : text)
    : py (Monitor * list effect) :=
  '(text, selector) <- find_active_positions_container pg ;;
  unreal <- extract_unrealized_pnl text ;;
  ret ({| last_text := Some text; last_unrealized := unreal |},
       when (is_empty (strip text)) [DebugScreenshot; Print NoContentWarning]
       ++ [Print (PayloadLine (payload_json ts (strip text)));
           Screenshot selector]).

(** The branch of the loop taken when the text changed. *)
Definition on_change (a : Args) (c : Caps) (st : Monitor) (cy : Cycle)
    (current : text) (selector : option text)
    : py (Monitor * list effect) :=
  curr_unreal <- extract_unrealized_pnl current ;;
  let delta := pnl_delta (last_unrealized st) curr_unreal in
  let delta_msg := delta_message delta in
  let payload := payload_json (ts_now cy) current in
  shown <-
    (if visual a then
       if RICH_AVAILABLE c then
         positions <- parse_positions current ;;
         ret (when (negb (is_empty_list positions)) [RenderTable positions])
       else ret [Print RichMissing]
     else ret []) ;;
  let html :=
    match parse_positions current with
    | inr positions => [WriteHtml positions]
    | inl _ => []
    end in
  let alert_title := T "DeepSeek Positions Updated" in
  let alert_msg :=
    if is_empty (strip delta_msg) then T "Active positions changed"
    else strip delta_msg in
  popped <-
    (if popup a then
       if TKINTER_AVAILABLE c then
         positions <- parse_positions current ;;
         ret [ShowPopup alert_title alert_msg positions]
       else ret [Print TkinterMissing]
     else ret []) ;;
  ret ({| last_text := Some current;
          last_unrealized :=
            match curr_unreal with
            | Some v => Some v
            | None => last_unrealized st
            end |},
       [Print (PositionsUpdated delta); Print (PayloadLine payload)]
       ++ shown
       ++ when (log_writable cy) [AppendLog (payload ++ [newline])]
       ++ [Screenshot selector]
       ++ html
       ++ when (notify a)
            (if PLYER_AVAILABLE c then [Notify alert_title alert_msg]
             else [Print PlyerMissing])
       ++ when (sound a) [PlaySound]
       ++ popped).

(** One pass of the monitoring loop. *)
Definition poll (a : Args) (c : Caps) (st : Monitor) (cy : Cycle)
    : py (Monitor * list effect) :=
  if negb (reload_ok cy) && negb (goto_ok cy) then
    ret (st, [Sleep 10; Print ReloadFailed; Sleep 30; Print RetryFailed])
  else
    let nav :=
      Sleep 10 :: when (negb (reload_ok cy)) [Print ReloadFailed; Sleep 30] in
    '(text, selector) <- find_active_positions_container (page cy) ;;
    let current := strip text in
    match last_text st with
    | None => ret (st, nav ++ [Print Initialized])
    | Some last =>
        if negb (text_eqb current (strip last)) then
          '(st', es) <- on_change a c st cy current selector ;;
          ret (st', nav ++ es)
        else ret (st, nav ++ [Print NoChange])
    end.

(** ** The order the specification asks of the result *)

(** [p] may stand before [q]: a position without a value never stands
    before one with a value, and of two values the first is not the
    smaller. *)
Definition pnl_ordered (p q : Position) : Prop :=
  match pnl_value p, pnl_value q with
  | None, Some _ => False
  | Some a, Some b => fle b a = true
  | _, None => True
  end.

(** The positions whose value equals [v]; [None] selects the positions
    without a value. *)
Definition same_pnl (v : option pyfloat) (p : Position) : bool :=
  match v, pnl_value p with
  | None, None => true
  | Some a, Some b => feq a b
  | _, _ => false
  end.

(** The values [float] can return here are numbers. *)
Definition pnl_is_number (p : Position) : Prop :=
  forall v, pnl_value p = Some v -> v <> NaN.

(** A pattern yields no value on the upper-cased text [up]: it finds
    nothing, or what it captured is no number. *)
Definition pattern_fails (up : text) (pat : regex) : Prop :=
  match re_search false pat up with
  | None => True
  | Some m =>
      exists g e,
        m_group m = Some g /\ float_of_string (clean_amount g) = inl e
  end.

(** A pattern yields the value [v] on [up]. *)
Definition pattern_yields (up : text) (pat : regex) (v : pyfloat) : Prop :=
  exists m g,
    re_search false pat up = Some m /\ m_group m = Some g /\
    float_of_string (clean_amount g) = inr v.

(** ** What the specification asks of [escape_html] *)

(** The five entities [escape_html] writes. *)
Definition html_entities : list text :=
  [T "&amp;"; T "&lt;"; T "&gt;"; T "&quot;"; T "&#x27;"].

(** The inverse the specification describes: every entity is replaced by
    its character, the ampersand last. *)
Definition unescape_html (s : text) : text :=
  replace (T "&amp;") (T "&")
    (replace (T "&#x27;") (T "'")
       (replace (T "&quot;") [dquote]
          (replace (T "&gt;") (T ">")
             (replace (T "&lt;") (T "<") s)))).

(** None of the characters <, >, double quote and quote occurs in [s]. *)
Definition no_markup (s : text) : bool :=
  forallb (fun c => negb (ascii_eqb c dquote || one_of "<>'" c)) s.

(** Every ampersand of [s] begins one of the five entities. *)
Fixpoint ampersands_head_entities (s : text) : bool :=
  match s with
  | [] => true
  | c :: s' =>
      (if ascii_eqb c "&"%char
       then existsb (fun e => starts_with e s) html_entities
       else true)
      && ampersands_head_entities s'
  end.

(** ** What the specification asks of the loop *)

(** The changes a pass announced, each with its delta. *)
Fixpoint change_events (es : list effect) : list (option pyfloat) :=
  match es with
  | [] => []
  | Print (PositionsUpdated delta) :: es' => delta :: change_events es'
  | _ :: es' => change_events es'
  end.

(** What a pass appended to positions-log.txt. *)
Fixpoint log_appends (es : list effect) : list text :=
  match es with
  | [] => []
  | AppendLog chunk :: es' => chunk :: log_appends es'
  | _ :: es' => log_appends es'
  end.

(** A pass detects a change: the page was loaded, there is a stored text,
    and [current], the trimmed text of the page, differs from the trimmed
    stored text. *)
Definition change_detected (st : Monitor) (cy : Cycle) (current : text)
    : bool :=
  (reload_ok cy || goto_ok cy)
  && match last_text st with
     | Some last => negb (text_eqb current (strip last))
     | None => false
     end.


(** ** A scenario *)

(** The selector the script returns with a container it marked. *)
Definition marker_selector : text :=
  T "[data-active-positions=" ++ [dquote] ++ T "1" ++ [dquote] ++ T "]".

(** A page on which the script finds a container with the text [s]. *)
Definition page_showing (s : text) : Page :=
  {| scroll_into_view := ret tt;
     evaluate :=
       ret (Some {| res_text := Some s; res_selector := Some marker_selector |});
     inner_text_body := ret s |}.

(** A pass in which the page reloads at once and shows [s]. *)
Definition cycle_showing (s ts : text) : Cycle :=
  {| reload_ok := true; goto_ok := true; page := page_showing s;
     ts_now := ts; log_writable := true |}.

(** The flags of a run without options: [--notify] is switched on. *)
Definition default_args : Args :=
  {| visual := false; notify := true; sound := false; popup := false |}.

Definition all_caps : Caps :=
  {| PLYER_AVAILABLE := true; RICH_AVAILABLE := true;
     TKINTER_AVAILABLE := true |}.

(** The two texts of the end-to-end scenario of the specification. *)
Definition text_T0 : text :=
  T "Entry Time: 1:02:03 BTC Unrealized P&L: -$120.50".

Definition text_T1 : text :=
  T "Entry Time: 1:02:03 BTC Unrealized P&L: +$43.20".

(** ** The strings handed to [float] *)

(** The characters of the float literals modelled by [float_of_string]. *)
Definition literal_char (c : ascii) : bool :=
  is_digit c || one_of "+-." c || is_space c.

(** The characters of an amount without its sign. *)
Definition unsigned_char (c : ascii) : bool :=
  is_digit c || one_of ".,$" c || is_space c.

(** The characters a captured amount can hold. *)
Definition amount_char (c : ascii) : bool :=
  literal_char c || one_of "$," c.

(** ** What a pattern denotes

    [denotes ic r prev w rest g g'] reads: with [prev] before the cursor
    and [w ++ rest] after it, [r] can consume [w], taking the capture from
    [g] to [g']. *)

Definition lit_eq (ic : bool) (s w : text) : Prop :=
  Forall2 (fun a c => char_eqb ic a c = true) s w.

Fixpoint denotes (ic : bool) (r : regex) (prev w rest : text)
    (g g' : option text) : Prop :=
  match r with
  | Lit s => lit_eq ic s w /\ g' = g
  | Cls p => (exists c, w = [c] /\ p c = true) /\ g' = g
  | Star p => forallb p w = true /\ g' = g
  | Plus p => w <> [] /\ forallb p w = true /\ g' = g
  | Opt r1 => denotes ic r1 prev w rest g g' \/ (w = [] /\ g' = g)
  | Seq r1 r2 =>
      exists w1 w2 g1,
        w = w1 ++ w2 /\
        denotes ic r1 prev w1 (w2 ++ rest) g g1 /\
        denotes ic r2 (rev w1 ++ prev) w2 rest g1 g'
  | Alt r1 r2 =>
      denotes ic r1 prev w rest g g' \/ denotes ic r2 prev w rest g g'
  | Group r1 => (exists g1, denotes ic r1 prev w rest g g1) /\ g' = Some w
  | WordB =>
      w = [] /\ g' = g /\ xorb (word_before prev) (word_before rest) = true
  end.

(** Two continuations succeed at the same positions. *)
Definition same_success {A B : Type} (k : cont A) (k' : cont B) : Prop :=
  forall prev rest g g', is_some (k prev rest g) = is_some (k' prev rest g').

(** Every match of [pat] has captured its group. *)
Definition captures (pat : regex) : Prop :=
  forall up m, re_search false pat up = Some m -> exists g, m_group m = Some g.

(** The keys of the dictionary display in [parse_positions]. *)
Definition position_keys : list string :=
  ["symbol"; "side"; "leverage"; "pnl_value"; "pnl_text"; "entry_price"]%string.

(** What [escape_html] writes for one character. *)
Definition html_entity (c : ascii) : text :=
  if ascii_eqb c "&"%char then T "&amp;"
  else if ascii_eqb c "<"%char then T "&lt;"
  else if ascii_eqb c ">"%char then T "&gt;"
  else if ascii_eqb c dquote then T "&quot;"
  else if ascii_eqb c "'"%char then T "&#x27;"
  else [c].

(** [clash p s]: within their common length, [p] and [s] differ. *)
Fixpoint clash (p s : text) : bool :=
  match p, s with
  | a :: p', b :: s' => negb (ascii_eqb a b) || clash p' s'
  | _, _ => false
  end.

(** [old] begins nowhere inside the token [t], whatever follows it. *)
Fixpoint clear_of (old t : text) : bool :=
  match t with
  | [] => true
  | _ :: t' => clash old t && clear_of old t'
  end.


(** Effects that neither announce a change nor write to the log. *)
Definition quiet (es : list effect) : Prop :=
  change_events es = [] /\ log_appends es = [].

(** ** The loop over several passes *)

(** The [while True] loop of [run_monitor], for the passes made before the
    interrupt: each pass starts from the state the one before left. *)
Fixpoint run_loop (a : Args) (c : Caps) (st : Monitor) (cycles : list Cycle)
    : py (Monitor * list effect) :=
  match cycles with
  | [] => ret (st, [])
  | cy :: cycles' =>
      '(st1, es1) <- poll a c st cy ;;
      '(st2, es2) <- run_loop a c st1 cycles' ;;
      ret (st2, es1 ++ es2)
  end.

(** The defaulting of [main]: with no alert selected, [--notify] is. *)
Definition main_args (a : Args) : Args :=
  if negb (notify a || sound a || popup a)
  then {| visual := visual a; notify := true; sound := sound a;
          popup := popup a |}
  else a.

(** Effects of a pass that has nothing to report: waiting, and the lines
    about navigation, "Initialized." and "no change". *)
Definition status_only (e : effect) : bool :=
  match e with
  | Sleep _ => true
  | Print ReloadFailed | Print RetryFailed => true
  | Print Initialized | Print NoChange => true
  | _ => false
  end.

(** The selectors of the screenshots a pass took. *)
Fixpoint screenshots (es : list effect) : list (option text) :=
  match es with
  | [] => []
  | Screenshot sel :: es' => sel :: screenshots es'
  | _ :: es' => screenshots es'
  end.

(** The position lists a pass handed to the table, the HTML report and the
    popup. *)
Fixpoint shown_positions (es : list effect) : list (list Position) :=
  match es with
  | [] => []
  | RenderTable ps :: es' => ps :: shown_positions es'
  | WriteHtml ps :: es' => ps :: shown_positions es'
  | ShowPopup _ _ ps :: es' => ps :: shown_positions es'
  | _ :: es' => shown_positions es'
  end.

(** The HTML reports a pass wrote. *)
Fixpoint html_writes (es : list effect) : list (list Position) :=
  match es with
  | [] => []
  | WriteHtml ps :: es' => ps :: html_writes es'
  | _ :: es' => html_writes es'
  end.

(** An alert, or the line that says its backend is missing. *)
Definition is_alert (e : effect) : bool :=
  match e with
  | Notify _ _ | PlaySound | ShowPopup _ _ _ => true
  | Print PlyerMissing | Print TkinterMissing => true
  | _ => false
  end.

(** The line "Initialized." *)
Definition is_initialized (e : effect) : bool :=
  match e with Print Initialized => true | _ => false end.

(** What a pass prints and waits for before it looks at the page. *)
Definition nav_effects (cy : Cycle) : list effect :=
  Sleep 10 :: when (negb (reload_ok cy)) [Print ReloadFailed; Sleep 30].

(** [alert_msg]: the delta message, trimmed, or the generic line. *)
Definition alert_message (delta : option pyfloat) : text :=
  if is_empty (strip (delta_message delta)) then T "Active positions changed"
  else strip (delta_message delta).

(** What the branch taken on a change does, in the order of the source, when
    [parse_positions] returned [positions]. *)
Definition change_effects (a : Args) (c : Caps) (cy : Cycle)
    (delta : option pyfloat) (current : text) (selector : option text)
    (positions : list Position) : list effect :=
  [Print (PositionsUpdated delta);
   Print (PayloadLine (payload_json (ts_now cy) current))]
  ++ (if visual a then
        if RICH_AVAILABLE c
        then when (negb (is_empty_list positions)) [RenderTable positions]
        else [Print RichMissing]
      else [])
  ++ when (log_writable cy)
       [AppendLog (payload_json (ts_now cy) current ++ [newline])]
  ++ [Screenshot selector]
  ++ [WriteHtml positions]
  ++ when (notify a)
       (if PLYER_AVAILABLE c
        then [Notify (T "DeepSeek Positions Updated") (alert_message delta)]
        else [Print PlyerMissing])
  ++ when (sound a) [PlaySound]
  ++ (if popup a then
        if TKINTER_AVAILABLE c
        then [ShowPopup (T "DeepSeek Positions Updated")
                (alert_message delta) positions]
        else [Print TkinterMissing]
      else []).

(** The stored value after a change that found [curr]. *)
Definition updated_value (st : Monitor) (curr : option pyfloat)
    : option pyfloat :=
  match curr with
  | Some v => Some v
  | None => last_unrealized st
  end.

(** ** [parse_block] in closed form *)

(** The text and the value of the P&L of a block whose match is [m]. *)
Definition pnl_text_of (m : rematch) : text :=
  match m_group m with
  | Some g => strip (replace (T " ") [] g)
  | None => []
  end.

(** [pnl_value] for the text [pnl_text1]. *)
Definition pnl_value_of (pnl_text1 : text) : option pyfloat :=
  if is_empty pnl_text1 then None
  else
    match float_of_string
            (replace (T "+") [] (replace (T ",") []
               (replace (T "$") [] pnl_text1))) with
    | inr v => Some v
    | inl _ => None
    end.

(** [symbol] for the upper-cased block: the ticker found, if one is. *)
Definition symbol_of (block_upper : text) : text :=
  match re_search false symbol_re block_upper with
  | Some ms => match m_group ms with Some g => g | None => [] end
  | None => []
  end.

(** ** Letter case *)

(** A character class that does not tell a letter from its upper case. *)
Definition blind (p : ascii -> bool) : Prop :=
  forall c, p (upper_char c) = p c.

(** A pattern all of whose classes are [blind]. *)
Fixpoint case_blind (r : regex) : Prop :=
  match r with
  | Lit _ | WordB => True
  | Cls p | Star p | Plus p => blind p
  | Opt r1 | Group r1 => case_blind r1
  | Seq r1 r2 | Alt r1 r2 => case_blind r1 /\ case_blind r2
  end.

(** Two texts that differ in letter case only. *)
Definition same_upper (s s' : text) : Prop := upper s = upper s'.

(** Two results that are both missing, or both there and related. *)
Definition both {A B : Type} (R : A -> B -> Prop) (o : option A)
    (o' : option B) : Prop :=
  match o, o' with
  | Some a, Some b => R a b
  | None, None => True
  | _, _ => False
  end.

(** Two continuations that agree on texts of the same upper case. *)
Definition cont_agree {A B : Type} (R : A -> B -> Prop) (k : cont A)
    (k' : cont B) : Prop :=
  forall prev prev' rest rest' g g',
    same_upper prev prev' -> same_upper rest rest' ->
    both R (k prev rest g) (k' prev' rest' g').

(** ** write_positions_html: the rows of the table *)

(** [p.get("symbol", "?") or "?"] *)
Definition symbol_or_unknown (p : Position) : text :=
  if is_empty (symbol p) then T "?" else symbol p.

(** ["profit" if (pnl_value is not None and pnl_value >= 0)
     else ("loss" if pnl_value is not None else "")] *)
Definition pnl_class (v : option pyfloat) : text :=
  match v with
  | Some x => if fle (Fin 0) x then T "profit" else T "loss"
  | None => []
  end.

(** The row appended to [rows_html] for the position [p]. *)
Definition html_row (p : Position) : text :=
  let symbol1 := escape_html (symbol_or_unknown p) in
  let side1 := escape_html (side p) in
  let leverage1 := escape_html (leverage p) in
  let entry_price1 := escape_html (entry_price p) in
  let pnl_text1 := escape_html (pnl_text p) in
  let pnl_class1 := pnl_class (pnl_value p) in
  let entry_display :=
    if is_empty entry_price1 then [] else T "$" ++ entry_price1 in
  T "<tr><td>" ++ symbol1 ++ T "</td><td>" ++ side1 ++ T "</td><td>"
  ++ leverage1 ++ T "</td>"
  ++ T "<td>" ++ entry_display ++ T "</td><td class='" ++ pnl_class1
  ++ T "'>" ++ pnl_text1 ++ T "</td></tr>".

(** [rows_html_str]: the rows joined by the empty string. *)
Definition rows_html_str (positions : list Position) : text :=
  List.concat (map html_row positions).

(** How often the character [c] occurs in [s]. *)
Definition count_char (c : ascii) (s : text) : nat :=
  List.length (filter (ascii_eqb c) s).

(** ** The script of find_active_positions_container

    The function handed to [page.evaluate] walks the document.  An element
    is given by what the script reads of it: its tag, its [textContent],
    its [innerText] (empty where the browser gives none), the height of
    its bounding rectangle and its child elements. *)

#[warnings="-register-all"]
Inductive element : Type :=
| Element (tag text_content inner_text : text) (height : Q)
    (children : list element).

Definition tag (e : element) : text :=
  match e with Element t _ _ _ _ => t end.

Definition text_content (e : element) : text :=
  match e with Element _ t _ _ _ => t end.

Definition inner_text (e : element) : text :=
  match e with Element _ _ t _ _ => t end.

Definition height (e : element) : Q :=
  match e with Element _ _ _ h _ => h end.

Definition children (e : element) : list element :=
  match e with Element _ _ _ _ cs => cs end.

(** An element in its place: [later] are the siblings after it
    ([nextElementSibling], repeated), [above] its ancestors from the parent
    up ([parentElement], repeated), each with the siblings after it. *)
Record place : Type := {
  here : element;
  later : list element;
  above : list (element * list element)
}.

(** [document.querySelectorAll('*')] under an element: the element and its
    descendants in document order. *)
Fixpoint places (above : list (element * list element))
    (later : list element) (e : element) : list place :=
  match e with
  | Element _ _ _ _ cs =>
      {| here := e; later := later; above := above |}
      :: (fix go (cs : list element) : list place :=
            match cs with
            | [] => []
            | c :: cs' => places ((e, later) :: above) cs' c ++ go cs'
            end) cs
  end.



(** [hay.includes(needle)] *)
Fixpoint includes (needle hay : text) : bool :=
  starts_with needle hay
  || match hay with
     | [] => false
     | _ :: hay' => includes needle hay'
     end.

(** The filter of [headerCandidates]. *)
Definition is_candidate (pl : place) : bool :=
  includes (T "ACTIVE POSITIONS") (upper (text_content (here pl))).

(** The comparison the sort makes of two heights: [a - b < 0]. *)
Definition height_lt (a b : Q) : bool := negb (Qle_bool b a).

(** [headerCandidates], sorted. *)
Definition headerCandidates (document : element) : list place :=
  sort_by height_lt (fun pl => height (here pl))
    (filter is_candidate (places [] [] document)).








(** *** What the script is to find *)




(** The document of a page that shows the label over a table. *)
Definition sample_document : element :=
  Element (T "html") (T "Active Positions BTC") [] 600
    [Element (T "body") (T "Active Positions BTC") [] 600
       [Element (T "h2") (T "Active Positions") (T "Active Positions") 30 [];
        Element (T "div") (T "BTC")
          (T "Entry Time: 1:02:03 BTC Unrealized P&L: +$43.20") 200 []]].

(** ** Reading a JSON string back *)

(** The value of a hexadecimal digit as [json.dumps] writes it. *)
Definition hex_val (c : ascii) : nat :=
  if is_digit c then code c - 48 else code c - 87.

(** The character at the head of the body of a JSON string, and what
    follows it; nothing at the closing quote or where the text is not
    what [json_char] writes. *)
Definition json_head (s : text) : option (ascii * text) :=
  match s with
  | [] => None
  | c :: r =>
      if ascii_eqb c dquote then None
      else if ascii_eqb c backslash then
        match r with
        | [] => None
        | d :: r' =>
            if ascii_eqb d dquote then Some (dquote, r')
            else if ascii_eqb d backslash then Some (backslash, r')
            else if ascii_eqb d "n" then Some (ascii_of_nat 10, r')
            else if ascii_eqb d "r" then Some (ascii_of_nat 13, r')
            else if ascii_eqb d "t" then Some (ascii_of_nat 9, r')
            else if ascii_eqb d "b" then Some (ascii_of_nat 8, r')
            else if ascii_eqb d "f" then Some (ascii_of_nat 12, r')
            else
              match r' with
              | _ :: _ :: h :: l :: r'' =>
                  Some (ascii_of_nat (16 * hex_val h + hex_val l), r'')
              | _ => None
              end
        end
      else Some (c, r)
  end.

(** ** The third pattern *)

(** The continuation that ends a match. *)
Definition match_end : cont rematch :=
  fun prev' rest' g =>
    Some {| m_prev := prev'; m_rest := rest'; m_group := g |}.

(** Two matches that end at the same place. *)
Definition same_end (m m' : rematch) : Prop := m_rest m = m_rest m'.

(** * Properties *)

(** ** The error monad *)

Lemma bind_inr {A B : Type} (m : py A) (f : A -> py B) (b : B) :
  bind m f = inr b -> exists a, m = inr a /\ f a = inr b.
Proof.
  destruct m as [e | a]; simpl; intros H.
  - discriminate.
  - exists a. split; [reflexivity | exact H].
Qed.

Lemma try_except_returns {A : Type} (body : py A) (v : A) :
  exists r, try_except body (ret v) = inr r.
Proof.
  destruct body as [e | a]; unfold try_except; simpl; eauto.
Qed.

(** ** Characters *)

Lemma ascii_eqb_eq (a b : ascii) : ascii_eqb a b = true <-> a = b.
Proof. apply Ascii.eqb_eq. Qed.

Lemma ascii_eqb_refl (a : ascii) : ascii_eqb a a = true.
Proof. apply Ascii.eqb_refl. Qed.

Ltac each_ascii c :=
  destruct c as [[] [] [] [] [] [] [] []]; vm_compute; try reflexivity.

Lemma upper_char_not_lower (c : ascii) : is_lower (upper_char c) = false.
Proof. each_ascii c. Qed.

Lemma upper_no_lower (s : text) (c : ascii) :
  In c (upper s) -> is_lower c = false.
Proof.
  unfold upper. rewrite in_map_iff. intros [x [<- _]].
  apply upper_char_not_lower.
Qed.

Lemma text_eqb_eq (a b : text) : text_eqb a b = true <-> a = b.
Proof.
  revert b. induction a as [| x a IH]; intros [| y b]; simpl;
    try (split; [discriminate | discriminate]); try tauto.
  rewrite andb_true_iff, ascii_eqb_eq, IH.
  split; [intros [-> ->]; reflexivity | intros H; injection H; auto].
Qed.

(** ** Strings *)

Lemma lstrip_keeps (sp : ascii -> bool) (c : ascii) (s : text) :
  In c s -> sp c = false -> In c (lstrip_by sp s).
Proof.
  induction s as [| x s IH]; simpl; intros Hin Hc; [exact Hin |].
  destruct (sp x) eqn:Hx; [| exact Hin].
  destruct Hin as [-> | Hin]; [congruence | auto].
Qed.

Lemma strip_keeps (sp : ascii -> bool) (c : ascii) (s : text) :
  In c s -> sp c = false -> In c (strip_by sp s).
Proof.
  intros Hin Hc. unfold strip_by.
  apply (proj1 (in_rev _ _)), lstrip_keeps; [| exact Hc].
  apply (proj1 (in_rev _ _)), lstrip_keeps; assumption.
Qed.

(** Replacing a one-character [old] rewrites the text character by
    character. *)
Lemma replace_char (x : ascii) (new s : text) :
  replace [x] new s = flat_map (fun c => if ascii_eqb x c then new else [c]) s.
Proof.
  unfold replace. induction s as [| c s IH]; simpl; [reflexivity |].
  rewrite andb_true_r. destruct (ascii_eqb x c); simpl; rewrite IH; reflexivity.
Qed.

Lemma delete_char_keeps (x c : ascii) (s : text) :
  In c s -> c <> x -> In c (replace [x] [] s).
Proof.
  rewrite replace_char, in_flat_map. intros Hin Hne.
  exists c. split; [exact Hin |].
  destruct (ascii_eqb x c) eqn:E; [| left; reflexivity].
  apply ascii_eqb_eq in E. congruence.
Qed.

(** ** Soundness of the matcher *)

Lemma lit_match_sound (ic : bool) (s : text) :
  forall prev rest prev' rest',
    lit_match ic s prev rest = Some (prev', rest') ->
    exists w, rest = w ++ rest' /\ prev' = rev w ++ prev /\ lit_eq ic s w.
Proof.
  induction s as [| a s IH]; simpl; intros prev rest prev' rest' H.
  - injection H as <- <-. exists []. repeat split. constructor.
  - destruct rest as [| c rest0]; [discriminate |].
    destruct (char_eqb ic a c) eqn:E; [| discriminate].
    apply IH in H. destruct H as [w [-> [-> Hw]]].
    exists (c :: w). simpl. rewrite <- app_assoc. repeat split.
    constructor; assumption.
Qed.

Lemma star_match_sound {A : Type} (p : ascii -> bool) (g : option text)
    (k : cont A) (a : A) :
  forall rest prev,
    star_match p prev rest g k = Some a ->
    exists w rest',
      rest = w ++ rest' /\ forallb p w = true /\
      k (rev w ++ prev) rest' g = Some a.
Proof.
  induction rest as [| c rest IH]; simpl; intros prev H.
  - exists [], []. auto.
  - destruct (p c) eqn:Hc.
    + destruct (star_match p (c :: prev) rest g k) eqn:E.
      * injection H as ->. apply IH in E.
        destruct E as [w [rest' [-> [Hw Hk]]]].
        exists (c :: w), rest'. simpl. rewrite Hc, Hw, <- app_assoc. auto.
      * exists [], (c :: rest). auto.
    + exists [], (c :: rest). auto.
Qed.

Lemma consumed_app (prev w : text) : consumed prev (rev w ++ prev) = w.
Proof.
  unfold consumed. rewrite length_app, Nat.add_sub.
  rewrite firstn_app, Nat.sub_diag, firstn_all. simpl.
  rewrite app_nil_r. apply rev_involutive.
Qed.

Theorem rmatch_sound {A : Type} (ic : bool) (r : regex) :
  forall prev rest g (k : cont A) a,
    rmatch ic r prev rest g k = Some a ->
    exists w rest' g',
      rest = w ++ rest' /\ denotes ic r prev w rest' g g' /\
      k (rev w ++ prev) rest' g' = Some a.
Proof.
  induction r as [s | p | p | p | r1 IH1 | r1 IH1 r2 IH2 | r1 IH1 r2 IH2
                  | r1 IH1 |]; simpl; intros prev rest g k a H.
  - destruct (lit_match ic s prev rest) as [[prev' rest'] |] eqn:E;
      [| discriminate].
    apply lit_match_sound in E. destruct E as [w [-> [-> Hw]]].
    exists w, rest', g. auto.
  - destruct rest as [| c rest0]; [discriminate |].
    destruct (p c) eqn:Hc; [| discriminate].
    exists [c], rest0, g. simpl. repeat split; eauto.
  - apply star_match_sound in H. destruct H as [w [rest' [-> [Hw Hk]]]].
    exists w, rest', g. auto.
  - destruct rest as [| c rest0]; [discriminate |].
    destruct (p c) eqn:Hc; [| discriminate].
    apply star_match_sound in H. destruct H as [w [rest' [-> [Hw Hk]]]].
    exists (c :: w), rest', g. simpl. rewrite Hc, Hw, <- app_assoc.
    repeat split; auto. discriminate.
  - destruct (rmatch ic r1 prev rest g k) eqn:E.
    + injection H as ->. apply IH1 in E.
      destruct E as [w [rest' [g' [-> [Hd Hk]]]]].
      exists w, rest', g'. auto.
    + exists [], rest, g. auto.
  - apply IH1 in H. destruct H as [w1 [rest1 [g1 [-> [Hd1 H]]]]].
    apply IH2 in H. destruct H as [w2 [rest2 [g2 [-> [Hd2 Hk]]]]].
    exists (w1 ++ w2), rest2, g2. rewrite rev_app_distr, <- !app_assoc.
    repeat split; auto. exists w1, w2, g1. auto.
  - destruct (rmatch ic r1 prev rest g k) eqn:E.
    + injection H as ->. apply IH1 in E.
      destruct E as [w [rest' [g' [-> [Hd Hk]]]]].
      exists w, rest', g'. auto.
    + apply IH2 in H. destruct H as [w [rest' [g' [-> [Hd Hk]]]]].
      exists w, rest', g'. auto.
  - apply IH1 in H. destruct H as [w [rest' [g1 [-> [Hd Hk]]]]].
    rewrite consumed_app in Hk.
    exists w, rest', (Some w). repeat split; eauto.
  - destruct (xorb (word_before prev) (word_before rest)) eqn:E;
      [| discriminate].
    exists [], rest, g. auto.
Qed.

(** A successful search found an occurrence of the pattern in the subject. *)
Lemma match_here_sound (ic : bool) (r : regex) (prev rest : text)
    (m : rematch) :
  match_here ic r prev rest = Some m ->
  exists w,
    rest = w ++ m_rest m /\ m_prev m = rev w ++ prev /\
    denotes ic r prev w (m_rest m) None (m_group m).
Proof.
  unfold match_here. intros H. apply rmatch_sound in H.
  destruct H as [w [rest' [g' [-> [Hd Hk]]]]].
  injection Hk as <-. exists w. simpl. auto.
Qed.

Lemma search_from_sound (ic : bool) (r : regex) (m : rematch) :
  forall rest prev,
    search_from ic r prev rest = Some m ->
    exists before w,
      rest = before ++ w ++ m_rest m /\
      denotes ic r (rev before ++ prev) w (m_rest m) None (m_group m).
Proof.
  induction rest as [| c rest IH]; intros prev H; simpl in H.
  - destruct (match_here ic r prev []) eqn:E; [| discriminate].
    injection H as ->. apply match_here_sound in E.
    destruct E as [w [Hw [_ Hd]]]. exists [], w. auto.
  - destruct (match_here ic r prev (c :: rest)) eqn:E.
    + injection H as ->. apply match_here_sound in E.
      destruct E as [w [Hw [_ Hd]]]. exists [], w. auto.
    + apply IH in H. destruct H as [before [w [-> Hd]]].
      exists (c :: before), w. simpl. rewrite <- app_assoc. auto.
Qed.

Lemma re_search_sound (ic : bool) (r : regex) (s : text) (m : rematch) :
  re_search ic r s = Some m ->
  exists before w,
    s = before ++ w ++ m_rest m /\
    denotes ic r (rev before) w (m_rest m) None (m_group m).
Proof.
  unfold re_search. intros H. apply search_from_sound in H.
  destruct H as [before [w [-> Hd]]]. rewrite app_nil_r in Hd. eauto.
Qed.

(** ** What the patterns of [parse_positions] can match *)

Lemma lit_eq_exact (s w : text) : lit_eq false s w -> w = s.
Proof.
  induction 1 as [| a c s w Hac _ IH]; [reflexivity |].
  simpl in Hac. apply ascii_eqb_eq in Hac. congruence.
Qed.

Lemma char_eqb_dollar (ic : bool) (c : ascii) :
  char_eqb ic "$"%char c = true -> c = "$"%char.
Proof.
  destruct ic; each_ascii c; intros H; discriminate H.
Qed.

Lemma lit_eq_dollar (ic : bool) (w : text) :
  lit_eq ic (T "$") w -> w = T "$".
Proof.
  intros H. inversion H as [| a c s w' Hac Hrest]; subst.
  inversion Hrest; subst. apply char_eqb_dollar in Hac. subst. reflexivity.
Qed.

(** A case-sensitive pattern that begins with a literal holding a lower
    case letter finds nothing in an upper-cased text. *)
Lemma lower_case_literal_never_matches (l : text) (r : regex) (s : text) :
  existsb is_lower l = true ->
  re_search false (Seq (Lit l) r) (upper s) = None.
Proof.
  intros Hl. destruct (re_search false (Seq (Lit l) r) (upper s)) as [m |] eqn:E;
    [| reflexivity].
  exfalso. apply re_search_sound in E.
  destruct E as [before [w [Hs Hd]]]. simpl in Hd.
  destruct Hd as [w1 [w2 [g1 [-> [[Hlit _] _]]]]].
  apply lit_eq_exact in Hlit. subst w1.
  apply existsb_exists in Hl. destruct Hl as [c [Hin Hlow]].
  assert (Hup : In c (upper s)).
  { rewrite Hs. apply in_or_app. right. apply in_or_app. left.
    apply in_or_app. left. exact Hin. }
  apply upper_no_lower in Hup. congruence.
Qed.

Lemma side_never_matches (s : text) :
  re_search false side_re (upper s) = None.
Proof. apply lower_case_literal_never_matches. reflexivity. Qed.

Lemma entry_price_never_matches (s : text) :
  re_search false entry_price_re (upper s) = None.
Proof. apply lower_case_literal_never_matches. reflexivity. Qed.

Lemma leverage_never_matches (s : text) :
  re_search false leverage_re (upper s) = None.
Proof. apply lower_case_literal_never_matches. reflexivity. Qed.

Lemma quantity_never_matches (s : text) :
  re_search false quantity_re (upper s) = None.
Proof. apply lower_case_literal_never_matches. reflexivity. Qed.

(** A match of the ticker pattern has captured its group. *)
Lemma symbol_group (s : text) (m : rematch) :
  re_search false symbol_re s = Some m -> exists g, m_group m = Some g.
Proof.
  intros H. apply re_search_sound in H. destruct H as [before [w [_ Hd]]].
  unfold symbol_re in Hd. cbn [seqs denotes] in Hd.
  destruct Hd as [w1 [w2 [g1 [_ [_ Hd]]]]].
  destruct Hd as [w3 [w4 [g2 [_ [[_ Hg] [_ [Hg' _]]]]]]].
  subst. eauto.
Qed.

(** A match of the P&L pattern has captured a group that holds the dollar
    sign. *)
Lemma position_pnl_group (s : text) (m : rematch) :
  re_search true position_pnl_re s = Some m ->
  exists g, m_group m = Some g /\ In "$"%char g.
Proof.
  intros H. apply re_search_sound in H. destruct H as [before [w [_ Hd]]].
  unfold position_pnl_re in Hd. cbn [seqs denotes] in Hd.
  destruct Hd as [w1 [w2 [g1 [_ [_ Hd]]]]].
  destruct Hd as [w3 [w4 [g2 [_ [_ [[g3 Hd] Hg]]]]]].
  destruct Hd as [w5 [w6 [g4 [-> [_ Hd]]]]].
  destruct Hd as [w7 [w8 [g5 [-> [[Hlit _] _]]]]].
  apply lit_eq_dollar in Hlit. subst w7.
  exists (w5 ++ T "$" ++ w8). split; [exact Hg |].
  apply in_or_app. right. left. reflexivity.
Qed.

(** ** Parsed floats are numbers *)

Lemma b64_round_pos_not_nan (n d : positive) : b64_round_pos n d <> NaN.
Proof.
  unfold b64_round_pos. cbv zeta.
  match goal with |- (if ?b then _ else _) <> _ => destruct b end;
    discriminate.
Qed.

Lemma b64_round_not_nan (q : Q) : b64_round q <> NaN.
Proof.
  unfold b64_round. destruct (Qnum q) as [| n | n]; [discriminate | |].
  - apply b64_round_pos_not_nan.
  - destruct (b64_round_pos n (Qden q)); discriminate.
Qed.

Lemma float_of_string_not_nan (s : text) (v : pyfloat) :
  float_of_string s = inr v -> v <> NaN.
Proof.
  unfold float_of_string. destruct (strip_by is_c_space s) as [| c r];
    [discriminate |].
  destruct (ascii_eqb c "-"); [| destruct (ascii_eqb c "+")];
    intros H; apply bind_inr in H; destruct H as [q [_ H]];
    injection H as <-; apply b64_round_not_nan.
Qed.

(** ** One block *)

Lemma dollar_not_space : is_space "$"%char = false.
Proof. reflexivity. Qed.

(** What [parse_block] computes, given that four of its six searches are
    case-sensitive searches for a mixed-case label in an upper-cased block
    and find nothing. *)
Lemma parse_block_cases (block : text) :
  (re_search true position_pnl_re (upper block) = None /\
   parse_block block = inr None) \/
  (exists m g p,
     re_search true position_pnl_re (upper block) = Some m /\
     m_group m = Some g /\ In "$"%char g /\
     parse_block block = inr (Some p) /\
     side p = [] /\ leverage p = [] /\ entry_price p = [] /\
     pnl_text p = strip (replace (T " ") [] g) /\
     (forall v, pnl_value p = Some v -> v <> NaN)).
Proof.
  unfold parse_block. cbv zeta.
  rewrite side_never_matches, entry_price_never_matches,
    leverage_never_matches.
  assert (Hsym : forall m, re_search false symbol_re (upper block) = Some m ->
                            exists g, group1 m = inr g).
  { intros m E. apply symbol_group in E. destruct E as [g Hg].
    exists g. unfold group1. rewrite Hg. reflexivity. }
  destruct (re_search false symbol_re (upper block)) as [ms |];
    [destruct (Hsym ms eq_refl) as [sy ->] |]; clear Hsym;
    (destruct (re_search true position_pnl_re (upper block)) as [m |] eqn:E;
     [ right; destruct (position_pnl_group _ _ E) as [g [Hg Hin]];
       unfold group1; rewrite Hg; cbn [bind ret Monad_either];
       set (pt := strip (replace (T " ") [] g));
       set (fl := float_of_string _);
       destruct (is_empty pt);
       [ eexists m, g, _; cbn [is_some orb];
         repeat split; try reflexivity; try assumption;
         simpl; intros v0 Hv0; discriminate Hv0
       | destruct fl as [e | v] eqn:Efl; eexists m, g, _; cbn [is_some orb];
         unfold try_except; cbn;
         (repeat split; try reflexivity; try assumption);
         simpl; intros v0 Hv0;
         [ discriminate Hv0
         | injection Hv0 as <-; subst fl;
           exact (float_of_string_not_nan _ _ Efl) ] ]
     | left; split; [reflexivity |];
       cbn [bind ret Monad_either is_empty]; reflexivity ]).
Qed.

Lemma parse_block_returns (block : text) :
  exists r, parse_block block = inr r.
Proof.
  destruct (parse_block_cases block) as [[_ H] | [m [g [p [_ [_ [_ [H _]]]]]]]];
    rewrite H; eauto.
Qed.

Lemma pnl_text_not_empty (g : text) :
  In "$"%char g -> strip (replace (T " ") [] g) <> [].
Proof.
  intros Hin Hnil.
  assert (H : In "$"%char (strip (replace (T " ") [] g))).
  { apply strip_keeps; [| exact dollar_not_space].
    apply (delete_char_keeps " "%char); [exact Hin | discriminate]. }
  rewrite Hnil in H. exact H.
Qed.

Lemma parse_block_position (block : text) (p : Position) :
  parse_block block = inr (Some p) ->
  side p = [] /\ leverage p = [] /\ entry_price p = [] /\ pnl_text p <> [] /\
  (forall v, pnl_value p = Some v -> v <> NaN).
Proof.
  intros H.
  destruct (parse_block_cases block)
    as [[_ H'] | [m [g [p' [_ [_ [Hin [H' [Hs [Hl [He [Ht Hv]]]]]]]]]]]];
    rewrite H' in H; [discriminate |].
  injection H as <-. repeat split; try assumption.
  rewrite Ht. apply pnl_text_not_empty. exact Hin.
Qed.

Lemma parse_blocks_returns (blocks : list text) :
  exists rs, parse_blocks blocks = inr rs /\ List.length rs <= List.length blocks.
Proof.
  induction blocks as [| b blocks [rs [IH Hlen]]]; simpl.
  - exists []. auto.
  - destruct (parse_block_returns b) as [r ->]. rewrite IH.
    cbn [bind ret Monad_either].
    destruct r as [p |]; eexists; split; try reflexivity; simpl; lia.
Qed.

Lemma parse_blocks_members (blocks : list text) (rs : list Position) :
  parse_blocks blocks = inr rs ->
  Forall (fun p => exists b, In b blocks /\ parse_block b = inr (Some p)) rs.
Proof.
  revert rs. induction blocks as [| b blocks IH]; simpl; intros rs H.
  - injection H as <-. constructor.
  - apply bind_inr in H. destruct H as [r [Hb H]].
    apply bind_inr in H. destruct H as [rs' [Hbs H]].
    injection H as <-. specialize (IH rs' Hbs).
    assert (IH' : Forall (fun p => exists b0, In b0 (b :: blocks) /\
                                   parse_block b0 = inr (Some p)) rs').
    { eapply Forall_impl; [| exact IH]. intros p [b0 [Hin Hp]].
      exists b0. split; [right; exact Hin | exact Hp]. }
    destruct r as [p |]; [| exact IH'].
    constructor; [| exact IH']. exists b. split; [left; reflexivity | exact Hb].
Qed.

(** ** The order of floats *)

Lemma flt_Fin (a b : Q) : flt (Fin a) (Fin b) = true <-> (a < b)%Q.
Proof.
  simpl. rewrite negb_true_iff. split.
  - intros H. apply Qnot_le_lt. intros Hle.
    apply Qle_bool_iff in Hle. congruence.
  - intros H. destruct (Qle_bool b a) eqn:E; [| reflexivity].
    apply Qle_bool_iff in E. exfalso. exact (Qlt_not_le _ _ H E).
Qed.

Lemma flt_Fin_false (a b : Q) : flt (Fin a) (Fin b) = false <-> (b <= a)%Q.
Proof.
  simpl. rewrite negb_false_iff. apply Qle_bool_iff.
Qed.

Lemma flt_asym (x y : pyfloat) : flt x y = true -> flt y x = false.
Proof.
  destruct x as [a | | |], y as [b | | |]; try reflexivity; try discriminate.
  rewrite flt_Fin, flt_Fin_false. apply Qlt_le_weak.
Qed.

(** [x <= y <= z] gives [x <= z] when the middle one is a number. *)
Lemma flt_false_trans (x y z : pyfloat) :
  y <> NaN -> flt y x = false -> flt z y = false -> flt z x = false.
Proof.
  destruct x as [a | | |], y as [b | | |], z as [c | | |];
    try reflexivity; try discriminate; try congruence.
  intros _. rewrite !flt_Fin_false. intros H1 H2. eapply Qle_trans; eassumption.
Qed.

Lemma feq_not_flt (x y : pyfloat) : feq x y = true -> flt x y = false.
Proof.
  destruct x as [a | | |], y as [b | | |]; try reflexivity; try discriminate.
  simpl. intros H. apply Qeq_bool_iff in H. rewrite negb_false_iff.
  apply Qle_bool_iff. rewrite H. apply Qle_refl.
Qed.

Lemma feq_sym (x y : pyfloat) : feq x y = feq y x.
Proof.
  destruct x as [a | | |], y as [b | | |]; try reflexivity.
  simpl. destruct (Qeq_bool a b) eqn:E.
  - apply Qeq_bool_iff in E. symmetry. apply Qeq_bool_iff. symmetry. exact E.
  - destruct (Qeq_bool b a) eqn:E'; [| reflexivity].
    apply Qeq_bool_iff in E'. symmetry in E'. apply Qeq_bool_iff in E'.
    congruence.
Qed.

Lemma feq_trans (x y z : pyfloat) :
  feq x y = true -> feq y z = true -> feq x z = true.
Proof.
  destruct x as [a | | |], y as [b | | |], z as [c | | |];
    try reflexivity; try discriminate.
  simpl. rewrite !Qeq_bool_iff. intros H1 H2. rewrite H1. exact H2.
Qed.

(** Of two numbers, one is below the other or they are equal. *)
Lemma flt_total (x y : pyfloat) :
  x <> NaN -> y <> NaN -> flt x y = false -> fle y x = true.
Proof.
  unfold fle.
  destruct x as [a | | |], y as [b | | |];
    try reflexivity; try discriminate; try congruence.
  intros _ _. rewrite flt_Fin_false. intros H.
  apply Qle_lteq in H. destruct H as [H | H].
  - apply flt_Fin in H. rewrite H. reflexivity.
  - apply Qeq_bool_iff in H. simpl feq. rewrite H. apply orb_true_r.
Qed.

Lemma fneg_not_nan (x : pyfloat) : x <> NaN -> fneg x <> NaN.
Proof. destruct x; simpl; congruence. Qed.

Lemma flt_fneg (x y : pyfloat) : flt (fneg x) (fneg y) = flt y x.
Proof.
  destruct x as [a | | |], y as [b | | |]; try reflexivity.
  cbn [flt fneg]. f_equal. destruct (Qle_bool a b) eqn:E.
  - apply Qle_bool_iff. rewrite !Qred_correct. apply Qopp_le_compat.
    apply Qle_bool_iff. exact E.
  - destruct (Qle_bool (Qred (- b)) (Qred (- a))) eqn:E'; [| reflexivity].
    apply Qle_bool_iff in E'. rewrite !Qred_correct in E'.
    apply Qopp_le_compat in E'. rewrite !Qopp_involutive in E'.
    apply Qle_bool_iff in E'. congruence.
Qed.

Lemma feq_fneg (x y : pyfloat) : feq (fneg x) (fneg y) = feq x y.
Proof.
  destruct x as [a | | |], y as [b | | |]; try reflexivity.
  cbn [feq fneg]. destruct (Qeq_bool a b) eqn:E.
  - apply Qeq_bool_iff. apply Qeq_bool_iff in E.
    rewrite !Qred_correct, E. reflexivity.
  - destruct (Qeq_bool (Qred (- a)) (Qred (- b))) eqn:E'; [| reflexivity].
    apply Qeq_bool_iff in E'. rewrite !Qred_correct in E'.
    assert (H : (a == b)%Q).
    { rewrite <- (Qopp_involutive a), <- (Qopp_involutive b), E'.
      reflexivity. }
    apply Qeq_bool_iff in H. congruence.
Qed.

Lemma or_zero_feq (x : pyfloat) : x <> NaN -> feq (or_zero x) x = true.
Proof.
  unfold or_zero. destruct x as [a | | |]; simpl; try reflexivity;
    try congruence.
  intros _. destruct (Qeq_bool a 0) eqn:E; simpl.
  - apply Qeq_bool_iff. apply Qeq_bool_iff in E. symmetry. exact E.
  - apply Qeq_bool_iff. reflexivity.
Qed.

Lemma or_zero_not_nan (x : pyfloat) : x <> NaN -> or_zero x <> NaN.
Proof.
  unfold or_zero. destruct (ftruthy x); [auto | discriminate].
Qed.

(** Equal floats stand alike in every comparison. *)
Lemma flt_feq_l (x x' y : pyfloat) :
  feq x x' = true -> flt x y = flt x' y.
Proof.
  destruct x as [a | | |], x' as [a' | | |], y as [b | | |];
    try reflexivity; try discriminate.
  simpl. intros H. apply Qeq_bool_iff in H. f_equal.
  destruct (Qle_bool b a) eqn:E.
  - symmetry. apply Qle_bool_iff. rewrite <- H. apply Qle_bool_iff. exact E.
  - destruct (Qle_bool b a') eqn:E'; [| reflexivity].
    apply Qle_bool_iff in E'. rewrite <- H in E'.
    apply Qle_bool_iff in E'. congruence.
Qed.

Lemma flt_feq_r (x y y' : pyfloat) :
  feq y y' = true -> flt x y = flt x y'.
Proof.
  destruct x as [a | | |], y as [b | | |], y' as [b' | | |];
    try reflexivity; try discriminate.
  simpl. intros H. apply Qeq_bool_iff in H. f_equal.
  destruct (Qle_bool b a) eqn:E.
  - symmetry. apply Qle_bool_iff. rewrite <- H. apply Qle_bool_iff. exact E.
  - destruct (Qle_bool b' a) eqn:E'; [| reflexivity].
    apply Qle_bool_iff in E'. rewrite <- H in E'.
    apply Qle_bool_iff in E'. congruence.
Qed.

(** ** The stable sort *)

Section StableSort.

Context {A K : Type}.
Variable lt : K -> K -> bool.
Variable key : A -> K.

Lemma insert_by_perm (x : A) (l : list A) :
  Permutation (x :: l) (insert_by lt key x l).
Proof.
  induction l as [| y l IH]; simpl; [apply Permutation_refl |].
  destruct (lt (key y) (key x)); [| apply Permutation_refl].
  eapply perm_trans; [apply perm_swap |]. apply perm_skip. exact IH.
Qed.

Lemma sort_by_perm (l : list A) : Permutation l (sort_by lt key l).
Proof.
  induction l as [| x l IH]; simpl; [constructor |].
  eapply perm_trans; [apply perm_skip; exact IH | apply insert_by_perm].
Qed.

(** Elements that the order never separates keep their relative order. *)
Section Stable.

Variable P : A -> bool.
Hypothesis P_tied :
  forall x y, P x = true -> P y = true -> lt (key y) (key x) = false.

Lemma insert_by_filter (x : A) (l : list A) :
  filter P (insert_by lt key x l) = filter P (x :: l).
Proof.
  induction l as [| y l IH]; [reflexivity |].
  simpl insert_by. destruct (lt (key y) (key x)) eqn:E; [| reflexivity].
  simpl in *. rewrite IH.
  destruct (P x) eqn:Hx; [| reflexivity].
  destruct (P y) eqn:Hy; [| reflexivity].
  rewrite (P_tied x y Hx Hy) in E. discriminate.
Qed.

Lemma sort_by_filter (l : list A) :
  filter P (sort_by lt key l) = filter P l.
Proof.
  induction l as [| x l IH]; [reflexivity |].
  simpl sort_by. rewrite insert_by_filter. simpl. rewrite IH. reflexivity.
Qed.

End Stable.

(** On elements whose keys the order ranks, the result is ordered. *)
Section Ordered.

Variable good : A -> Prop.
Hypothesis lt_asym :
  forall x y, good x -> good y ->
    lt (key x) (key y) = true -> lt (key y) (key x) = false.
Hypothesis lt_false_trans :
  forall x y z, good x -> good y -> good z ->
    lt (key y) (key x) = false -> lt (key z) (key y) = false ->
    lt (key z) (key x) = false.

Lemma insert_by_sorted (x : A) (l : list A) :
  good x -> Forall good l -> StronglySorted (in_order lt key) l ->
  StronglySorted (in_order lt key) (insert_by lt key x l).
Proof.
  intros Hx Hl Hs. induction Hs as [| y l Hs IH Hy]; simpl.
  - constructor; constructor.
  - inversion Hl as [| ? ? Hgy Hgl]; subst.
    destruct (lt (key y) (key x)) eqn:E.
    + constructor; [apply IH; exact Hgl |].
      apply (Permutation_Forall (insert_by_perm x l)).
      constructor; [| exact Hy].
      unfold in_order. apply lt_asym; assumption.
    + constructor; [constructor; assumption |].
      constructor; [exact E |].
      rewrite Forall_forall in *. intros z Hz.
      unfold in_order in *. eapply (lt_false_trans x y z); auto.
Qed.

Lemma sort_by_sorted (l : list A) :
  Forall good l -> StronglySorted (in_order lt key) (sort_by lt key l).
Proof.
  induction l as [| x l IH]; simpl; intros Hl; [constructor |].
  inversion Hl as [| ? ? Hx Hl']; subst.
  apply insert_by_sorted; auto.
  apply (Permutation_Forall (sort_by_perm l)). exact Hl'.
Qed.

End Ordered.

End StableSort.

(** ** The order of sort keys *)

Lemma key_lt_flt (a b : bool * pyfloat) :
  key_lt a b =
  if Bool.eqb (fst a) (fst b) then flt (snd a) (snd b)
  else negb (fst a) && fst b.
Proof.
  unfold key_lt. destruct (Bool.eqb (fst a) (fst b)); [| reflexivity].
  destruct (feq (snd a) (snd b)) eqn:E; [| reflexivity].
  symmetry. apply feq_not_flt. exact E.
Qed.

Lemma key_lt_asym (a b : bool * pyfloat) :
  key_lt a b = true -> key_lt b a = false.
Proof.
  rewrite !key_lt_flt. destruct a as [[] x], b as [[] y]; simpl;
    try discriminate; try reflexivity; apply flt_asym.
Qed.

Lemma key_lt_false_trans (a b c : bool * pyfloat) :
  snd b <> NaN ->
  key_lt b a = false -> key_lt c b = false -> key_lt c a = false.
Proof.
  rewrite !key_lt_flt. destruct a as [[] x], b as [[] y], c as [[] z]; simpl;
    try discriminate; try reflexivity; apply flt_false_trans.
Qed.

Lemma sort_key_number (p : Position) :
  pnl_is_number p -> snd (sort_key p) <> NaN.
Proof.
  unfold pnl_is_number, sort_key. simpl. intros H. apply fneg_not_nan.
  destruct (pnl_value p) as [v |]; simpl; [| discriminate].
  apply or_zero_not_nan. apply H. reflexivity.
Qed.

Lemma in_order_pnl_ordered (p q : Position) :
  pnl_is_number p -> pnl_is_number q ->
  in_order key_lt sort_key p q -> pnl_ordered p q.
Proof.
  unfold in_order, pnl_ordered, pnl_is_number, sort_key.
  rewrite key_lt_flt. simpl.
  destruct (pnl_value p) as [a |], (pnl_value q) as [b |]; simpl;
    intros Hp Hq H; try exact I; try discriminate.
  assert (Ha : a <> NaN) by (apply Hp; reflexivity).
  assert (Hb : b <> NaN) by (apply Hq; reflexivity).
  rewrite flt_fneg in H.
  rewrite (flt_feq_l _ a _ (or_zero_feq a Ha)) in H.
  rewrite (flt_feq_r _ _ b (or_zero_feq b Hb)) in H.
  apply flt_total; assumption.
Qed.

Lemma same_pnl_tied (v : option pyfloat) (x y : Position) :
  same_pnl v x = true -> same_pnl v y = true ->
  key_lt (sort_key y) (sort_key x) = false.
Proof.
  unfold same_pnl, key_lt, sort_key. simpl.
  destruct v as [c |], (pnl_value x) as [a |], (pnl_value y) as [b |];
    try discriminate; simpl; intros Hx Hy; [| reflexivity].
  assert (Ha : a <> NaN) by (destruct c, a; discriminate).
  assert (Hb : b <> NaN) by (destruct c, b; discriminate).
  rewrite feq_fneg.
  assert (E : feq (or_zero b) (or_zero a) = true).
  { apply (feq_trans _ b); [apply or_zero_feq; exact Hb |].
    apply (feq_trans _ c); [rewrite feq_sym; exact Hy |].
    apply (feq_trans _ a); [exact Hx |].
    rewrite feq_sym. apply or_zero_feq. exact Ha. }
  rewrite E. reflexivity.
Qed.

Lemma sorted_pnl_ordered (l : list Position) :
  Forall pnl_is_number l ->
  StronglySorted (in_order key_lt sort_key) l -> StronglySorted pnl_ordered l.
Proof.
  intros Hl Hs. induction Hs as [| p l Hs IH Hp]; [constructor |].
  inversion Hl as [| ? ? Hgp Hgl]; subst.
  constructor; [apply IH; exact Hgl |].
  rewrite Forall_forall in *. intros q Hq.
  apply in_order_pnl_ordered; auto.
Qed.

(** ** Splitting at the entry times *)

Lemma split_from_length (ic : bool) (r : regex) :
  forall rest prev skip piece,
    List.length (split_from ic r prev skip piece rest)
    = S (count_from ic r prev skip rest).
Proof.
  induction rest as [| c rest IH]; intros prev skip piece; simpl;
    [reflexivity |].
  destruct skip as [| n]; [| apply IH].
  destruct (match_here ic r prev (c :: rest)) as [m |]; [| apply IH].
  destruct (List.length (m_prev m) - List.length prev); [apply IH |].
  simpl. rewrite IH. reflexivity.
Qed.


Lemma position_blocks_length (s : text) :
  List.length (position_blocks s) = count_matches true entry_time_re s.
Proof.
  unfold position_blocks, re_split, count_matches.
  pose proof (split_from_length true entry_time_re s [] 0 []) as H.
  destruct (split_from true entry_time_re [] 0 [] s); simpl in *; lia.
Qed.

(** ** The whole parse *)

Lemma unsorted_positions_returns (s : text) :
  exists results,
    unsorted_positions s = inr results /\
    List.length results <= count_matches true entry_time_re s /\
    Forall (fun p => exists b, parse_block b = inr (Some p)) results.
Proof.
  unfold unsorted_positions. destruct s as [| c s].
  - exists []. simpl. repeat split; [lia | constructor].
  - destruct (parse_blocks_returns (position_blocks (c :: s)))
      as [rs [Hrs Hlen]].
    exists rs. rewrite position_blocks_length in Hlen.
    repeat split; [exact Hrs | exact Hlen |].
    eapply Forall_impl; [| apply (parse_blocks_members _ _ Hrs)].
    intros p [b [_ Hb]]. eauto.
Qed.

Lemma parse_positions_returns (s : text) :
  exists results,
    unsorted_positions s = inr results /\
    parse_positions s = inr (sort_by key_lt sort_key results).
Proof.
  destruct (unsorted_positions_returns s) as [rs [Hrs _]].
  exists rs. split; [exact Hrs |].
  unfold parse_positions. rewrite Hrs. reflexivity.
Qed.

(** ** extract_unrealized_pnl *)

Lemma pnl_pattern_1_captures : captures pnl_pattern_1.
Proof.
  intros up m H. apply re_search_sound in H. destruct H as [before [w [_ Hd]]].
  unfold pnl_pattern_1 in Hd. cbn [seqs denotes] in Hd.
  destruct Hd as [w1 [w2 [g1 [_ [_ Hd]]]]].
  destruct Hd as [w3 [w4 [g2 [_ [_ Hd]]]]].
  destruct Hd as [w5 [w6 [g3 [_ [_ Hd]]]]].
  destruct Hd as [w7 [w8 [g4 [_ [_ [_ Hg]]]]]]. eauto.
Qed.

Lemma pnl_pattern_2_captures : captures pnl_pattern_2.
Proof.
  intros up m H. apply re_search_sound in H. destruct H as [before [w [_ Hd]]].
  unfold pnl_pattern_2 in Hd. cbn [seqs denotes] in Hd.
  destruct Hd as [w1 [w2 [g1 [_ [_ Hd]]]]].
  destruct Hd as [w3 [w4 [g2 [_ [_ Hd]]]]].
  destruct Hd as [w5 [w6 [g3 [_ [_ Hd]]]]].
  destruct Hd as [w7 [w8 [g4 [_ [_ [_ Hg]]]]]]. eauto.
Qed.

Lemma pnl_pattern_3_captures : captures pnl_pattern_3.
Proof.
  intros up m H. apply re_search_sound in H. destruct H as [before [w [_ Hd]]].
  unfold pnl_pattern_3 in Hd. cbn [seqs denotes] in Hd.
  destruct Hd as [w1 [w2 [g1 [_ [_ Hd]]]]].
  destruct Hd as [w3 [w4 [g2 [_ [_ [_ Hg]]]]]]. eauto.
Qed.

Lemma patterns_capture : Forall captures patterns.
Proof.
  repeat constructor;
    [ apply pnl_pattern_1_captures | apply pnl_pattern_2_captures
    | apply pnl_pattern_3_captures ].
Qed.

Lemma try_pattern_cases (up : text) (pat : regex) :
  captures pat ->
  (try_pattern up pat = inr None /\ pattern_fails up pat) \/
  (exists v, try_pattern up pat = inr (Some v) /\ pattern_yields up pat v).
Proof.
  intros Hc. unfold try_pattern, pattern_fails, pattern_yields.
  destruct (re_search false pat up) as [m |] eqn:E; [| left; auto].
  destruct (Hc up m E) as [g Hg]. unfold group1. rewrite Hg.
  cbn [bind ret Monad_either].
  destruct (float_of_string (clean_amount g)) as [e | v] eqn:Ef.
  - left. split; [reflexivity | eauto].
  - right. exists v. split; [reflexivity |]. exists m, g. auto.
Qed.

Lemma first_pattern_cases (up : text) (pats : list regex) :
  Forall captures pats ->
  (first_pattern up pats = inr None /\ Forall (pattern_fails up) pats) \/
  (exists v before pat after,
     first_pattern up pats = inr (Some v) /\
     pats = before ++ pat :: after /\
     Forall (pattern_fails up) before /\ pattern_yields up pat v).
Proof.
  induction 1 as [| pat pats Hc _ IH]; simpl.
  - left. split; [reflexivity | constructor].
  - destruct (try_pattern_cases up pat Hc) as [[-> Hf] | [v [-> Hy]]];
      cbn [bind ret Monad_either].
    + destruct IH as [[-> Hall] | [v [before [pat' [after [-> [-> [Hb Hy]]]]]]]].
      * left. split; [reflexivity | constructor; assumption].
      * right. exists v, (pat :: before), pat', after.
        repeat split; auto.
    + right. exists v, [], pat, pats. repeat split; auto.
Qed.


Lemma extract_unrealized_pnl_returns (s : text) :
  exists r, extract_unrealized_pnl s = inr r.
Proof.
  destruct s as [| c s]; [exists None; reflexivity |].
  unfold extract_unrealized_pnl.
  destruct (first_pattern_cases (upper (c :: s)) patterns patterns_capture)
    as [[Hr _] | [v [before [pat [after [Hr _]]]]]]; eauto.
Qed.

(** ** escape_html *)

Lemma flat_map_compose {X Y Z : Type} (f : X -> list Y) (g : Y -> list Z)
    (l : list X) :
  flat_map g (flat_map f l) = flat_map (fun x => flat_map g (f x)) l.
Proof.
  induction l as [| x l IH]; simpl; [reflexivity |].
  rewrite flat_map_app, IH. reflexivity.
Qed.

Lemma flat_map_pointwise {X Y : Type} (f g : X -> list Y) (l : list X) :
  (forall x, f x = g x) -> flat_map f l = flat_map g l.
Proof.
  intros H. induction l as [| x l IH]; simpl; [reflexivity |].
  rewrite H, IH. reflexivity.
Qed.

Lemma flat_map_singleton {X : Type} (l : list X) :
  flat_map (fun x => [x]) l = l.
Proof.
  induction l as [| x l IH]; simpl; [reflexivity | rewrite IH; reflexivity].
Qed.

(** The five replacements in a row rewrite the text character by
    character. *)
Lemma escape_html_by_char (s : text) :
  escape_html s = flat_map html_entity s.
Proof.
  unfold escape_html. destruct s as [| c0 s0]; [reflexivity |].
  set (s := c0 :: s0). unfold T. simpl list_ascii_of_string.
  rewrite !replace_char, !flat_map_compose.
  apply flat_map_pointwise. intros c. each_ascii c.
Qed.

Lemma clash_starts_with (p s r : text) :
  clash p s = true -> starts_with p (s ++ r) = false.
Proof.
  revert s. induction p as [| a p IH]; intros [| b s]; simpl;
    try discriminate.
  destruct (ascii_eqb a b); simpl; [apply IH | reflexivity].
Qed.

Lemma starts_with_self (p r : text) : starts_with p (p ++ r) = true.
Proof.
  induction p as [| a p IH]; simpl; [reflexivity |].
  rewrite ascii_eqb_refl. exact IH.
Qed.

Lemma starts_with_app (p s r : text) :
  starts_with p s = true -> starts_with p (s ++ r) = true.
Proof.
  revert s. induction p as [| a p IH]; intros [| b s]; simpl;
    try reflexivity; try discriminate.
  destruct (ascii_eqb a b); simpl; [apply IH | discriminate].
Qed.

Lemma replace_from_skip (old new u rest : text) :
  replace_from old new (List.length u) (u ++ rest)
  = replace_from old new 0 rest.
Proof.
  induction u as [| c u IH]; simpl; [| exact IH].
  destruct rest; reflexivity.
Qed.

Lemma replace_from_old (old new rest : text) :
  old <> [] ->
  replace_from old new 0 (old ++ rest) = new ++ replace_from old new 0 rest.
Proof.
  destruct old as [| a old]; [congruence | intros _].
  change ((a :: old) ++ rest) with (a :: (old ++ rest)).
  cbn [replace_from].
  change (a :: old ++ rest) with ((a :: old) ++ rest).
  rewrite starts_with_self.
  replace (List.length (a :: old) - 1) with (List.length old)
    by (simpl; lia).
  rewrite replace_from_skip. reflexivity.
Qed.

Lemma replace_from_clear (old new t rest : text) :
  clear_of old t = true ->
  replace_from old new 0 (t ++ rest) = t ++ replace_from old new 0 rest.
Proof.
  induction t as [| c t IH]; [reflexivity |].
  cbn [clear_of]. rewrite andb_true_iff. intros [Hc Ht].
  change ((c :: t) ++ rest) with (c :: (t ++ rest)). cbn [replace_from].
  change (c :: t ++ rest) with ((c :: t) ++ rest).
  rewrite (clash_starts_with _ _ _ Hc). simpl. rewrite IH; auto.
Qed.

(** Replacing [old] in a text made of tokens, each of which is [old] or
    clear of it, rewrites the text token by token. *)
Lemma replace_tokens (old new : text) (f : ascii -> text) (s : text) :
  old <> [] ->
  (forall c, f c = old \/ (clear_of old (f c) = true /\
                          text_eqb (f c) old = false)) ->
  replace old new (flat_map f s)
  = flat_map (fun c => if text_eqb (f c) old then new else f c) s.
Proof.
  intros Hold Hf. unfold replace.
  destruct old as [| a old']; [congruence |]. set (old := a :: old') in *.
  induction s as [| c s IH]; [reflexivity |].
  cbn [flat_map]. destruct (Hf c) as [E | [Hc Hne]].
  - rewrite E. rewrite (proj2 (text_eqb_eq old old) eq_refl).
    rewrite replace_from_old, IH; [reflexivity | exact Hold].
  - rewrite Hne, replace_from_clear, IH; [reflexivity | exact Hc].
Qed.

Ltac token_cases c :=
  destruct c as [[] [] [] [] [] [] [] []];
  first [ left; vm_compute; reflexivity
        | right; vm_compute; split; reflexivity ].

Lemma unescape_escape (s : text) : unescape_html (escape_html s) = s.
Proof.
  rewrite escape_html_by_char. unfold unescape_html.
  rewrite (replace_tokens (T "&lt;")); [| discriminate | intros c; token_cases c].
  rewrite (replace_tokens (T "&gt;")); [| discriminate | intros c; token_cases c].
  rewrite (replace_tokens (T "&quot;")); [| discriminate | intros c; token_cases c].
  rewrite (replace_tokens (T "&#x27;")); [| discriminate | intros c; token_cases c].
  rewrite (replace_tokens (T "&amp;")); [| discriminate | intros c; token_cases c].
  rewrite <- (flat_map_singleton s) at 2.
  apply flat_map_pointwise. intros c. each_ascii c.
Qed.

Lemma forallb_flat_map {X Y : Type} (p : Y -> bool) (f : X -> list Y)
    (l : list X) :
  (forall x, forallb p (f x) = true) -> forallb p (flat_map f l) = true.
Proof.
  intros H. induction l as [| x l IH]; simpl; [reflexivity |].
  rewrite forallb_app, H, IH. reflexivity.
Qed.

Lemma ampersands_app (t r : text) :
  ampersands_head_entities t = true -> ampersands_head_entities r = true ->
  ampersands_head_entities (t ++ r) = true.
Proof.
  intros Ht Hr. induction t as [| c t IH]; [exact Hr |].
  change ((c :: t) ++ r) with (c :: (t ++ r)).
  cbn [ampersands_head_entities] in *.
  apply andb_true_iff in Ht. destruct Ht as [Hc Ht].
  rewrite (IH Ht), andb_true_r.
  destruct (ascii_eqb c "&"); [| reflexivity].
  apply existsb_exists in Hc. destruct Hc as [e [He Hs]].
  apply existsb_exists. exists e. split; [exact He |].
  change (c :: t ++ r) with ((c :: t) ++ r). apply starts_with_app. exact Hs.
Qed.

(** ** find_active_positions_container *)

Lemma find_value (pg : Page) :
  find_active_positions_container pg =
    match evaluate pg with
    | inr res =>
        inr (entry_or_empty res res_text,
             if is_empty (entry_or_empty res res_selector) then None
             else Some (entry_or_empty res res_selector))
    | inl _ =>
        match inner_text_body pg with
        | inr body_text => inr (body_text, None)
        | inl _ => inr ([], None)
        end
    end.
Proof.
  unfold find_active_positions_container, try_except.
  destruct (scroll_into_view pg) as [e0 | []], (evaluate pg) as [e1 | res],
    (inner_text_body pg) as [e2 | body_text]; reflexivity.
Qed.

Lemma find_returns (pg : Page) :
  exists t sel, find_active_positions_container pg = inr (t, sel).
Proof.
  rewrite find_value.
  destruct (evaluate pg) as [e1 | res], (inner_text_body pg) as [e2 | body];
    eauto.
Qed.

(** ** The log line *)




(** ** The polling loop *)

Lemma change_events_app (es es' : list effect) :
  change_events (es ++ es') = change_events es ++ change_events es'.
Proof.
  induction es as [| e es IH]; [reflexivity |].
  destruct e as [n | m | | ch | sel | ps | ps | t0 m0 | | t0 m0 ps];
    try exact IH.
  destruct m; simpl; try exact IH. rewrite IH. reflexivity.
Qed.

Lemma log_appends_app (es es' : list effect) :
  log_appends (es ++ es') = log_appends es ++ log_appends es'.
Proof.
  induction es as [| e es IH]; [reflexivity |].
  destruct e; simpl; try exact IH. rewrite IH. reflexivity.
Qed.

Lemma quiet_app (es es' : list effect) :
  quiet es -> quiet es' -> quiet (es ++ es').
Proof.
  unfold quiet. rewrite change_events_app, log_appends_app.
  intros [-> ->] [-> ->]. auto.
Qed.

Lemma quiet_when (b : bool) (es : list effect) : quiet es -> quiet (when b es).
Proof. destruct b; [auto | split; reflexivity]. Qed.


(** ** The strings handed to [float]

    Every string the module converts with [float] is what is left of a
    captured amount once "$" and "," are deleted, so it is made of digits,
    signs, points and white space: the literals [float_of_string] models. *)

Ltac char_cases c :=
  each_ascii c; intros; first [discriminate | auto].

Lemma forallb_weaken (p q : ascii -> bool) (s : text) :
  (forall c, p c = true -> q c = true) ->
  forallb p s = true -> forallb q s = true.
Proof.
  intros Hpq. rewrite !forallb_forall. auto.
Qed.

Lemma lit_eq_chars (ic : bool) (l w : text) (q : ascii -> bool) :
  (forall a c, In a l -> char_eqb ic a c = true -> q c = true) ->
  lit_eq ic l w -> forallb q w = true.
Proof.
  intros Hq H. induction H as [| a c l w Hac _ IH]; [reflexivity |].
  simpl. rewrite (Hq a c (or_introl eq_refl) Hac). simpl.
  apply IH. intros a' c' Hin. apply Hq. right. exact Hin.
Qed.

Lemma char_eqb_point (ic : bool) (c : ascii) :
  char_eqb ic "."%char c = true -> c = "."%char.
Proof.
  destruct ic; each_ascii c; intros H; discriminate H.
Qed.

Lemma amount_re_chars (ic : bool) (prev w rest : text) (g g' : option text) :
  denotes ic amount_re prev w rest g g' -> forallb amount_char w = true.
Proof.
  unfold amount_re. cbn [denotes].
  intros [w1 [w2 [g1 [-> [[_ [H1 _]] H2]]]]].
  rewrite forallb_app. apply andb_true_iff. split.
  - revert H1. apply forallb_weaken. intros c. char_cases c.
  - destruct H2 as [[w3 [w4 [g2 [-> [[H3 _] [_ [H4 _]]]]]]] | [-> _]];
      [| reflexivity].
    rewrite forallb_app. apply andb_true_iff. split.
    + revert H3. apply lit_eq_chars. intros a c [<- | []] Hc.
      apply char_eqb_point in Hc. subst c. reflexivity.
    + revert H4. apply forallb_weaken. intros c. char_cases c.
Qed.

Lemma signed_amount_chars (ic : bool) (signs : string) (prev w rest : text)
    (g g' : option text) :
  (forall c, one_of signs c = true -> amount_char c = true) ->
  denotes ic (Seq (Opt (Cls (one_of signs)))
                (Seq (Lit (T "$")) (Seq (Star is_space) amount_re)))
    prev w rest g g' ->
  forallb amount_char w = true.
Proof.
  intros Hsigns [w1 [w2 [g1 [-> [H1 H2]]]]].
  destruct H2 as [w3 [w4 [g2 [-> [[H3 _] H4]]]]].
  destruct H4 as [w5 [w6 [g3 [-> [[H5 _] H6]]]]].
  apply amount_re_chars in H6. apply lit_eq_dollar in H3. subst w3.
  rewrite !forallb_app, H6, andb_true_r.
  apply andb_true_iff. split; [| apply andb_true_iff; split].
  - destruct H1 as [[[c [-> Hc]] _] | [-> _]]; [| reflexivity].
    simpl. rewrite (Hsigns c Hc). reflexivity.
  - reflexivity.
  - revert H5. apply forallb_weaken. intros c. char_cases c.
Qed.

Lemma delete_char_chars (x : ascii) (p q : ascii -> bool) (s : text) :
  (forall c, p c = true -> c = x \/ q c = true) ->
  forallb p s = true -> forallb q (replace [x] [] s) = true.
Proof.
  intros Hpq. rewrite replace_char.
  induction s as [| c s IH]; [reflexivity |].
  cbn [forallb flat_map]. rewrite andb_true_iff. intros [Hc Hs].
  rewrite forallb_app, (IH Hs), andb_true_r.
  destruct (ascii_eqb x c) eqn:E; [reflexivity |].
  destruct (Hpq c Hc) as [-> | Hq].
  - rewrite ascii_eqb_refl in E. discriminate.
  - simpl. rewrite Hq. reflexivity.
Qed.

Lemma lstrip_subset (sp : ascii -> bool) (c : ascii) (s : text) :
  In c (lstrip_by sp s) -> In c s.
Proof.
  induction s as [| x s IH]; simpl; [auto |].
  destruct (sp x); [right; auto | auto].
Qed.

Lemma strip_chars (sp q : ascii -> bool) (s : text) :
  forallb q s = true -> forallb q (strip_by sp s) = true.
Proof.
  rewrite !forallb_forall. intros H c Hc. apply H.
  unfold strip_by in Hc. apply in_rev in Hc.
  apply lstrip_subset in Hc. apply in_rev in Hc.
  apply lstrip_subset in Hc. exact Hc.
Qed.

(** The argument of [float] in [extract_unrealized_pnl]. *)
Lemma clean_amount_chars (g : text) :
  forallb amount_char g = true -> forallb literal_char (clean_amount g) = true.
Proof.
  intros H. unfold clean_amount, strip. apply strip_chars.
  apply (delete_char_chars _ (fun c => literal_char c || ascii_eqb c ","%char)).
  - intros c. char_cases c.
  - revert H. apply (delete_char_chars _ amount_char).
    intros c. char_cases c.
Qed.

Lemma patterns_capture_amounts (pat : regex) (up : text) (m : rematch)
    (g : text) :
  In pat patterns -> re_search false pat up = Some m -> m_group m = Some g ->
  forallb literal_char (clean_amount g) = true.
Proof.
  intros Hin Hm Hg. apply clean_amount_chars.
  apply re_search_sound in Hm. destruct Hm as [before [w [_ Hd]]].
  rewrite Hg in Hd.
  destruct Hin as [<- | [<- | [<- | []]]];
    cbv beta iota delta [pnl_pattern_1 pnl_pattern_2 pnl_pattern_3 seqs] in Hd;
    destruct Hd as [w1 [w2 [g1 [_ [_ Hd]]]]];
    destruct Hd as [w3 [w4 [g2 [_ [_ Hd]]]]].
  - destruct Hd as [w5 [w6 [g3 [_ [_ Hd]]]]].
    destruct Hd as [w7 [w8 [g4 [_ [_ [[g5 Hd] Hg']]]]]].
    injection Hg' as <-. exact (amount_re_chars _ _ _ _ _ _ Hd).
  - destruct Hd as [w5 [w6 [g3 [_ [_ Hd]]]]].
    destruct Hd as [w7 [w8 [g4 [_ [_ [[g5 Hd] Hg']]]]]].
    injection Hg' as <-. exact (amount_re_chars _ _ _ _ _ _ Hd).
  - destruct Hd as [[g5 Hd] Hg']. injection Hg' as <-.
    apply (signed_amount_chars _ _ _ _ _ _ _) in Hd; [exact Hd |].
    intros c. char_cases c.
Qed.

(** The argument of [float] in [parse_positions]. *)
Lemma position_pnl_amount (s : text) (m : rematch) (g : text) :
  re_search true position_pnl_re s = Some m -> m_group m = Some g ->
  forallb literal_char
    (replace (T "+") [] (replace (T ",") [] (replace (T "$") []
       (strip (replace (T " ") [] g))))) = true.
Proof.
  intros Hm Hg. apply re_search_sound in Hm.
  destruct Hm as [before [w [_ Hd]]]. rewrite Hg in Hd.
  cbv beta iota delta [position_pnl_re seqs] in Hd.
  destruct Hd as [w1 [w2 [g1 [_ [_ Hd]]]]].
  destruct Hd as [w3 [w4 [g2 [_ [_ [[g3 Hd] Hg']]]]]].
  injection Hg' as <-.
  assert (H : forallb amount_char g = true).
  { apply (signed_amount_chars _ _ _ _ _ _ _) in Hd; [exact Hd |].
    intros c. char_cases c. }
  apply (delete_char_chars _ literal_char); [intros c; auto |].
  apply (delete_char_chars _ (fun c => literal_char c || ascii_eqb c ","%char)).
  { intros c. char_cases c. }
  apply (delete_char_chars _ amount_char).
  { intros c. char_cases c. }
  unfold strip. apply strip_chars.
  apply (delete_char_chars _ amount_char); [intros c; auto |]. exact H.
Qed.

(** ** The sign is never captured

    In the third pattern the sign is offered to the group by [[-+]?], but
    the greedy [[^\n$]*] before the group takes it first, and the match
    that leaves it to the group is never the one found. *)

(** A greedy repetition stops where no longer run lets the rest match. *)
Lemma star_match_greedy {A : Type} (p : ascii -> bool) (g : option text)
    (k : cont A) (a : A) :
  forall rest prev,
    star_match p prev rest g k = Some a ->
    exists w rest',
      rest = w ++ rest' /\ forallb p w = true /\
      k (rev w ++ prev) rest' g = Some a /\
      (forall c rest'', rest' = c :: rest'' -> p c = true ->
         star_match p (c :: rev w ++ prev) rest'' g k = None).
Proof.
  induction rest as [| c rest IH]; simpl; intros prev H.
  - exists [], []. repeat split; auto. intros c r Hr. discriminate Hr.
  - destruct (p c) eqn:Hc.
    + destruct (star_match p (c :: prev) rest g k) eqn:E.
      * injection H as ->. apply IH in E.
        destruct E as [w [rest' [-> [Hw [Hk Hmax]]]]].
        exists (c :: w), rest'. simpl. rewrite Hc, Hw, <- app_assoc.
        repeat split; auto.
      * exists [], (c :: rest). repeat split; auto.
        intros c' r Hr Hc'. injection Hr as <- <-. exact E.
    + exists [], (c :: rest). repeat split; auto.
      intros c' r Hr Hc'. injection Hr as <- <-. congruence.
Qed.

Lemma is_some_orelse {A : Type} (x y : option A) :
  is_some (match x with Some a => Some a | None => y end)
  = is_some x || is_some y.
Proof. destruct x; reflexivity. Qed.

Lemma star_match_success {A B : Type} (p : ascii -> bool) (k : cont A)
    (k' : cont B) :
  same_success k k' ->
  forall rest prev g g',
    is_some (star_match p prev rest g k) = is_some (star_match p prev rest g' k').
Proof.
  intros Hk. induction rest as [| c rest IH]; simpl; intros prev g g';
    [apply Hk |].
  destruct (p c); [| apply Hk].
  rewrite !is_some_orelse, (IH (c :: prev) g g'), (Hk prev (c :: rest) g g').
  reflexivity.
Qed.

(** Whether a pattern matches does not depend on what the continuation
    returns, only on where it succeeds. *)
Lemma rmatch_success {A B : Type} (ic : bool) (r : regex) :
  forall (k : cont A) (k' : cont B),
    same_success k k' ->
    forall prev rest g g',
      is_some (rmatch ic r prev rest g k) = is_some (rmatch ic r prev rest g' k').
Proof.
  induction r as [s | p | p | p | r1 IH1 | r1 IH1 r2 IH2 | r1 IH1 r2 IH2
                  | r1 IH1 |]; simpl; intros k k' Hk prev rest g g'.
  - destruct (lit_match ic s prev rest) as [[prev' rest'] |];
      [apply Hk | reflexivity].
  - destruct rest as [| c rest0]; [reflexivity |].
    destruct (p c); [apply Hk | reflexivity].
  - apply star_match_success. exact Hk.
  - destruct rest as [| c rest0]; [reflexivity |].
    destruct (p c); [apply star_match_success; exact Hk | reflexivity].
  - rewrite !is_some_orelse, (IH1 k k' Hk prev rest g g'),
      (Hk prev rest g g'). reflexivity.
  - apply IH1. intros prev1 rest1 g1 g1'. apply IH2. exact Hk.
  - rewrite !is_some_orelse, (IH1 k k' Hk prev rest g g'),
      (IH2 k k' Hk prev rest g g'). reflexivity.
  - apply IH1. intros prev1 rest1 g1 g1'. apply Hk.
  - destruct (xorb (word_before prev) (word_before rest));
      [apply Hk | reflexivity].
Qed.

Lemma sign_not_dollar (c : ascii) :
  one_of "-+" c = true ->
  not_newline_dollar c = true /\ char_eqb false "$"%char c = false.
Proof. char_cases c. Qed.

Lemma dollar_stops_star : not_newline_dollar "$"%char = false.
Proof. reflexivity. Qed.

Lemma search_from_here (ic : bool) (r : regex) (m : rematch) :
  forall rest prev,
    search_from ic r prev rest = Some m ->
    exists prev' rest', match_here ic r prev' rest' = Some m.
Proof.
  induction rest as [| c rest IH]; intros prev H; simpl in H;
    destruct (match_here ic r prev _) eqn:E;
    try (injection H as ->; eauto); try discriminate.
  eapply IH. exact H.
Qed.

(** A match of [label [^\n$]* ( [-+]? \$ tail )] captures the dollar sign
    and what [tail] matched, never a sign. *)
Lemma signed_group_starts_with_dollar (label : text) (tail : regex)
    (prev rest : text) (m : rematch) :
  match_here false
    (Seq (Lit label)
       (Seq (Star not_newline_dollar)
          (Group (Seq (Opt (Cls (one_of "-+"))) (Seq (Lit (T "$")) tail)))))
    prev rest = Some m ->
  exists w before after g',
    m_group m = Some ("$"%char :: w) /\
    denotes false tail before w after None g'.
Proof.
  unfold match_here. cbn [rmatch]. intros H.
  destruct (lit_match false label prev rest) as [[p1 r1] |]; [| discriminate].
  apply star_match_greedy in H.
  destruct H as [w0 [R [_ [_ [HK Hmax]]]]].
  set (P := rev w0 ++ p1) in *.
  unfold T in HK, Hmax. cbn [list_ascii_of_string lit_match] in HK, Hmax.
  destruct R as [| c R0]; [discriminate |].
  destruct (one_of "-+" c) eqn:Hsign.
  - exfalso. destruct (sign_not_dollar c Hsign) as [Hnnd Hnd].
    specialize (Hmax c R0 eq_refl Hnnd).
    rewrite Hnd in HK.
    destruct R0 as [| d R1]; [discriminate |].
    destruct (char_eqb false "$" d) eqn:Hd; [| discriminate].
    assert (d = "$"%char) by (apply (char_eqb_dollar false); exact Hd).
    subst d. cbn [star_match] in Hmax. rewrite dollar_stops_star in Hmax.
    cbv beta iota in Hmax. change (one_of "-+" "$"%char) with false in Hmax.
    cbv beta iota in Hmax. rewrite Hd in Hmax.
    match type of HK with
    | match ?x with Some a => Some a | None => None end = Some m =>
        destruct x as [a |] eqn:E; [| discriminate]
    end.
    match type of Hmax with
    | ?y = None => assert (Hy : is_some y = true)
    end.
    { erewrite rmatch_success; [rewrite E; reflexivity |].
      intros ? ? ? ?. reflexivity. }
    rewrite Hmax in Hy. discriminate.
  - destruct (char_eqb false "$" c) eqn:Hc; [| discriminate].
    assert (c = "$"%char) by (apply (char_eqb_dollar false); exact Hc).
    subst c. apply rmatch_sound in HK.
    destruct HK as [w [after [g' [-> [Hd Hk]]]]].
    injection Hk as <-. exists w, ("$"%char :: P), after, g'.
    split; [| exact Hd]. cbn [m_group]. f_equal.
    change (rev w ++ "$"%char :: P) with (rev w ++ ["$"%char] ++ P).
    rewrite app_assoc. change (rev w ++ ["$"%char]) with (rev ("$"%char :: w)).
    apply consumed_app.
Qed.

Lemma amount_re_unsigned (ic : bool) (prev w rest : text)
    (g g' : option text) :
  denotes ic amount_re prev w rest g g' -> forallb unsigned_char w = true.
Proof.
  unfold amount_re. cbn [denotes].
  intros [w1 [w2 [g1 [-> [[_ [H1 _]] H2]]]]].
  rewrite forallb_app. apply andb_true_iff. split.
  - revert H1. apply forallb_weaken. intros c. char_cases c.
  - destruct H2 as [[w3 [w4 [g2 [-> [[H3 _] [_ [H4 _]]]]]]] | [-> _]];
      [| reflexivity].
    rewrite forallb_app. apply andb_true_iff. split.
    + revert H3. apply lit_eq_chars. intros a c [<- | []] Hc.
      apply char_eqb_point in Hc. subst c. reflexivity.
    + revert H4. apply forallb_weaken. intros c. char_cases c.
Qed.

(** What the patterns of [extract_unrealized_pnl] capture holds no sign. *)
Lemma patterns_capture_unsigned (pat : regex) (up : text) (m : rematch)
    (g : text) :
  In pat patterns -> re_search false pat up = Some m -> m_group m = Some g ->
  forallb unsigned_char g = true.
Proof.
  intros Hin Hm Hg.
  destruct Hin as [<- | [<- | [<- | []]]].
  - apply re_search_sound in Hm. destruct Hm as [before [w [_ Hd]]].
    rewrite Hg in Hd.
    cbv beta iota delta [pnl_pattern_1 seqs] in Hd.
    destruct Hd as [w1 [w2 [g1 [_ [_ Hd]]]]].
    destruct Hd as [w3 [w4 [g2 [_ [_ Hd]]]]].
    destruct Hd as [w5 [w6 [g3 [_ [_ Hd]]]]].
    destruct Hd as [w7 [w8 [g4 [_ [_ [[g5 Hd] Hg']]]]]].
    injection Hg' as <-. exact (amount_re_unsigned _ _ _ _ _ _ Hd).
  - apply re_search_sound in Hm. destruct Hm as [before [w [_ Hd]]].
    rewrite Hg in Hd.
    cbv beta iota delta [pnl_pattern_2 seqs] in Hd.
    destruct Hd as [w1 [w2 [g1 [_ [_ Hd]]]]].
    destruct Hd as [w3 [w4 [g2 [_ [_ Hd]]]]].
    destruct Hd as [w5 [w6 [g3 [_ [_ Hd]]]]].
    destruct Hd as [w7 [w8 [g4 [_ [_ [[g5 Hd] Hg']]]]]].
    injection Hg' as <-. exact (amount_re_unsigned _ _ _ _ _ _ Hd).
  - apply search_from_here in Hm. destruct Hm as [prev [rest Hm]].
    cbv beta iota delta [pnl_pattern_3 seqs] in Hm.
    apply signed_group_starts_with_dollar in Hm.
    destruct Hm as [w [before [after [g' [Hg' Hd]]]]].
    rewrite Hg in Hg'. injection Hg' as ->.
    destruct Hd as [w1 [w2 [g1 [-> [[H1 _] H2]]]]].
    apply amount_re_unsigned in H2.
    cbn [forallb]. rewrite forallb_app, H2, andb_true_r.
    revert H1. apply forallb_weaken. intros c. char_cases c.
Qed.

Lemma digits_val_nonneg (s : text) :
  forall acc, (0 <= acc)%Z -> (0 <= digits_val acc s)%Z.
Proof.
  induction s as [| c s IH]; cbn [digits_val]; intros acc H; [exact H |].
  apply IH. unfold digit_val.
  pose proof (Nat2Z.is_nonneg (code c - 48)). lia.
Qed.

Lemma unsigned_literal_nonneg (s : text) (q : Q) :
  unsigned_literal s = inr q -> (0 <= Qnum q)%Z.
Proof.
  unfold unsigned_literal. destruct (span is_digit s) as [ip r].
  destruct r as [| c r'].
  - destruct ip; [discriminate |]. intros H. injection H as <-.
    cbn [Qnum inject_Z]. apply digits_val_nonneg.
    first [apply Z.le_refl | unfold digit_val; apply Nat2Z.is_nonneg].
  - destruct (ascii_eqb c "."); [| discriminate].
    destruct (span is_digit r') as [fp r''].
    destruct r''; [| discriminate]. destruct (ip ++ fp) eqn:E; [discriminate |].
    intros H. injection H as <-. cbn [Qnum]. apply digits_val_nonneg.
    first [apply Z.le_refl | unfold digit_val; apply Nat2Z.is_nonneg].
Qed.

Lemma b64_round_pos_nonneg (n d : positive) :
  flt (b64_round_pos n d) (Fin 0) = false.
Proof.
  unfold b64_round_pos. cbv zeta.
  set (e := if below_pow2 _ _ _ then _ else _).
  set (u := (Z.max e (-1022) - 52)%Z).
  set (num := if (0 <=? u)%Z then Zpos n else (Zpos n * 2 ^ (- u))%Z).
  set (den := if (0 <=? u)%Z then (Zpos d * 2 ^ u)%Z else Zpos d).
  set (m := if (_ <? den)%Z then _ else _).
  assert (Hnum : (0 <= num)%Z).
  { unfold num. destruct (0 <=? u)%Z; [lia |].
    apply Z.mul_nonneg_nonneg; [lia | apply Z.pow_nonneg; lia]. }
  assert (Hden : (0 < den)%Z).
  { unfold den. destruct (0 <=? u)%Z eqn:Hu; [| lia].
    apply Z.leb_le in Hu. apply Z.mul_pos_pos; [lia |].
    apply Z.pow_pos_nonneg; lia. }
  assert (Hm0 : (0 <= num / den)%Z) by (apply Z.div_pos; assumption).
  assert (Hm : (0 <= m)%Z).
  { unfold m. destruct (_ <? den)%Z; [exact Hm0 |].
    destruct (den <? _)%Z; [lia |]. destruct (Z.even _); lia. }
  match goal with |- flt (if ?b then _ else _) _ = _ => destruct b end;
    [reflexivity |].
  apply flt_Fin_false. rewrite Qred_correct.
  destruct (0 <=? u)%Z eqn:Hu; unfold Qle; simpl.
  - apply Z.leb_le in Hu.
    assert (0 <= m * 2 ^ u)%Z
      by (apply Z.mul_nonneg_nonneg; [exact Hm | apply Z.pow_nonneg; lia]).
    lia.
  - lia.
Qed.

Lemma b64_round_nonneg (q : Q) :
  (0 <= Qnum q)%Z -> flt (b64_round q) (Fin 0) = false.
Proof.
  unfold b64_round. destruct (Qnum q) as [| n | n]; intros H.
  - reflexivity.
  - apply b64_round_pos_nonneg.
  - lia.
Qed.

Lemma strip_subset (sp : ascii -> bool) (c : ascii) (s : text) :
  In c (strip_by sp s) -> In c s.
Proof.
  unfold strip_by. intros H. apply in_rev in H.
  apply lstrip_subset in H. apply in_rev in H.
  apply lstrip_subset in H. exact H.
Qed.

(** [float] of a string without a minus sign is not below zero. *)
Lemma float_of_string_nonneg (s : text) (v : pyfloat) :
  ~ In "-"%char s -> float_of_string s = inr v -> flt v (Fin 0) = false.
Proof.
  intros Hs. unfold float_of_string.
  destruct (strip_by is_c_space s) as [| c r] eqn:E; [discriminate |].
  destruct (ascii_eqb c "-") eqn:Hc.
  - exfalso. apply ascii_eqb_eq in Hc. subst c. apply Hs.
    apply (strip_subset is_c_space). rewrite E. left. reflexivity.
  - destruct (ascii_eqb c "+"); intros H; apply bind_inr in H;
      destruct H as [q [Hq H]]; injection H as <-;
      apply b64_round_nonneg; exact (unsigned_literal_nonneg _ _ Hq).
Qed.

Lemma clean_amount_unsigned (g : text) :
  forallb unsigned_char g = true -> ~ In "-"%char (clean_amount g).
Proof.
  intros H Hin.
  assert (Hc : forallb unsigned_char (clean_amount g) = true).
  { unfold clean_amount, strip. apply strip_chars.
    apply (delete_char_chars _ unsigned_char); [intros c; auto |].
    apply (delete_char_chars _ unsigned_char); [intros c; auto |]. exact H. }
  rewrite forallb_forall in Hc. specialize (Hc _ Hin). discriminate Hc.
Qed.

(** * The claims *)

(** ** C1: The sign of the aggregate P&L *)

(** Whatever the text, [extract_unrealized_pnl] never returns a number
    below zero. *)
Theorem extract_unrealized_pnl_never_negative (s : text) (v : pyfloat) :
  extract_unrealized_pnl s = inr (Some v) -> flt v (Fin 0) = false.
Proof.
  intros H. destruct s as [| c s]; [discriminate |].
  unfold extract_unrealized_pnl in H.
  destruct (first_pattern_cases (upper (c :: s)) patterns patterns_capture)
    as [[Hr _] | [v' [before [pat [after [Hr [Hp [_ Hy]]]]]]]];
    rewrite Hr in H; [discriminate |].
  injection H as ->. destruct Hy as [m [g [Hm [Hg Hv]]]].
  apply (float_of_string_nonneg _ _ (clean_amount_unsigned g
    (patterns_capture_unsigned pat _ m g
       ltac:(rewrite Hp; apply in_or_app; right; left; reflexivity) Hm Hg)) Hv).
Qed.

(** C1: the code misses what the claim says.  The first pattern lets the
    sign be taken by the characters before the dollar sign and captures the
    amount alone, so the text "Unrealized P&L: -$120.50" gives 120.5 and not
    -120.5.  In the scenario, where the text goes from T0 with -$120.50 to
    T1 with +$43.20, the delta handed to the notification is that of
    43.2 - 120.5, shown as -77.30, and not +163.70. *)
Theorem extract_unrealized_pnl_drops_sign :
  extract_unrealized_pnl (T "Unrealized P&L: -$120.50")
    = inr (Some (Fin (241 # 2))) /\
  exists st0 es0 st1 es1,
    initialize (page_showing text_T0) (T "2026-01-01T00:00:00Z")
      = inr (st0, es0) /\
    poll default_args all_caps st0
      (cycle_showing text_T1 (T "2026-01-01T00:00:20Z")) = inr (st1, es1) /\
    change_events es1 = [Some (Fin (-5439503924933427 # 70368744177664))] /\
    In (Notify (T "DeepSeek Positions Updated")
               (T "(" ++ delta_sign ++ T " Unrealized P&L: -77.30)")) es1.
Proof.
  split; [vm_compute; reflexivity |].
  eexists _, _, _, _. split; [vm_compute; reflexivity |].
  split; [vm_compute; reflexivity |].
  split; [reflexivity |]. vm_compute. tauto.
Qed.

(** ** C2: Lines of the log *)



(** ** C3: Blocks and valid positions *)



(** ** C4: One pass in the steady state *)



(** ** C5: The order of the result *)

(** C5.  For every text, [parse_positions] returns a rearrangement of the
    positions of the blocks in which every position with a value stands
    before every position without one, the values do not increase, and
    the positions of equal value, as well as the positions without a value,
    stand in the order of their blocks. *)
Theorem parse_positions_sorted_stable (s : text) :
  exists results out,
    unsorted_positions s = inr results /\
    parse_positions s = inr out /\
    Permutation results out /\
    StronglySorted pnl_ordered out /\
    forall v, filter (same_pnl v) out = filter (same_pnl v) results.
Proof.
  destruct (unsorted_positions_returns s) as [rs [Hrs [_ Hall]]].
  exists rs, (sort_by key_lt sort_key rs).
  pose proof (sort_by_perm key_lt sort_key rs) as Hperm.
  assert (Hnum : Forall pnl_is_number rs).
  { eapply Forall_impl; [| exact Hall].
    intros p [b Hb]. exact (proj2 (proj2 (proj2 (proj2
      (parse_block_position b p Hb))))). }
  split; [exact Hrs |].
  split; [unfold parse_positions; rewrite Hrs; reflexivity |].
  split; [exact Hperm |].
  split.
  - apply sorted_pnl_ordered.
    + apply (Permutation_Forall Hperm). exact Hnum.
    + apply (sort_by_sorted key_lt sort_key pnl_is_number); [| | exact Hnum].
      * intros x y _ _. apply key_lt_asym.
      * intros x y z _ Hy _. apply key_lt_false_trans.
        apply sort_key_number. exact Hy.
  - intros v. apply sort_by_filter. intros x y. apply same_pnl_tied.
Qed.

(** ** C6: Symbol inference *)

(** The ranges of the price heuristic, were a price ever extracted. *)
Lemma symbol_from_price_ranges :
  symbol_from_price (Fin 75000) = T "BTC" /\
  symbol_from_price (Fin 2500) = T "ETH" /\
  symbol_from_price (Fin 150000) = [] /\
  symbol_from_price (Fin (1 # 10)) = [] /\
  (forall q, (1 # 2 <= q)%Q -> (q < 10)%Q -> symbol_from_price (Fin q) = T "SOL").
Proof.
  repeat split; try reflexivity.
  intros q Hlo Hhi.
  assert (H1 : flt (Fin q) (Fin (1 # 2)) = false)
    by (apply flt_Fin_false; exact Hlo).
  assert (H2 : flt (Fin q) (Fin 10) = true) by (apply flt_Fin; exact Hhi).
  assert (H3 : fle (Fin (1 # 2)) (Fin q) = true)
    by (apply flt_total; [discriminate | discriminate | exact H1]).
  unfold symbol_from_price. rewrite H1, H3, H2. reflexivity.
Qed.

(** No text makes [parse_positions] extract a side, a leverage or an
    entry price. *)
Lemma parse_positions_never_extracts_labels (s : text) :
  exists out,
    parse_positions s = inr out /\
    Forall (fun p => side p = [] /\ leverage p = [] /\ entry_price p = []) out.
Proof.
  destruct (unsorted_positions_returns s) as [rs [Hrs [_ Hall]]].
  exists (sort_by key_lt sort_key rs).
  split; [unfold parse_positions; rewrite Hrs; reflexivity |].
  apply (Permutation_Forall (sort_by_perm key_lt sort_key rs)).
  eapply Forall_impl; [| exact Hall].
  intros p [b Hb].
  destruct (parse_block_position b p Hb) as [H1 [H2 [H3 _]]]. auto.
Qed.

(** C6: the code misses what the claim says.  In a block with no ticker,
    "Entry Price: $75000" should give the symbol BTC; the case-sensitive
    search for "Entry Price:" in the upper-cased block finds nothing, so
    the symbol, the entry price, the side and the leverage all stay empty. *)
Theorem parse_positions_no_symbol_from_price :
  parse_positions
    (T "Entry Time: 1:02:03 Side: LONG Entry Price: $75000 Leverage: 10X Unrealized P&L: +$5.00")
  = inr [{| symbol := []; side := []; leverage := [];
            pnl_value := Some (Fin 5); pnl_text := T "+$5.00";
            entry_price := [] |}].
Proof. vm_compute. reflexivity. Qed.

(** ** C7: The fields of a position *)

(** C7, as amended.  Every record [parse_positions] returns has exactly
    the six entries symbol, side, leverage, pnl_value, pnl_text and
    entry_price; it has no quantity entry. *)
Theorem parse_positions_record_fields (s : text) :
  exists out,
    parse_positions s = inr out /\
    Forall (fun p => map fst (position_items p) = position_keys /\
                     dict_get "quantity" (position_items p) = None) out.
Proof.
  destruct (parse_positions_returns s) as [rs [_ H]].
  eexists. split; [exact H |].
  apply Forall_forall. intros p _. split; reflexivity.
Qed.

(** C7, as stated, fails: a block that holds "Quantity: 5" yields a record
    without a quantity entry. *)
Lemma parse_positions_drops_quantity :
  exists p,
    parse_positions
      (T "Entry Time: 1:02:03 Quantity: 5 Unrealized P&L: +$1.00") = inr [p] /\
    dict_get "quantity" (position_items p) = None.
Proof.
  eexists. split; [vm_compute; reflexivity | reflexivity].
Qed.

(** ** C8: Totality of the extractor *)



(** ** C9: The locator never raises *)

(** C9.  For every page, whatever its three calls do,
    [find_active_positions_container] raises nothing and returns a pair of
    a text and an optional selector: the text and selector of the script's
    answer when the evaluation returns; the text of the whole page and no
    selector when the evaluation raises; the empty text and no selector when
    reading the page raises as well. *)
Theorem find_active_positions_container_degrades (pg : Page) :
  (exists t sel, find_active_positions_container pg = inr (t, sel)) /\
  find_active_positions_container pg =
    match evaluate pg with
    | inr res =>
        inr (entry_or_empty res res_text,
             if is_empty (entry_or_empty res res_selector) then None
             else Some (entry_or_empty res res_selector))
    | inl _ =>
        match inner_text_body pg with
        | inr body_text => inr (body_text, None)
        | inl _ => inr ([], None)
        end
    end.
Proof.
  split; [apply find_returns | apply find_value].
Qed.

(** ** C10: HTML escaping *)

(** C10.  For every string, the output of [escape_html] holds none of the
    characters <, >, double quote and quote, every ampersand in it begins
    one of the five entities, replacing the entities back (the ampersand
    last) gives the string again, and so no other string has the same
    output. *)
Theorem escape_html_escapes_and_inverts (s s' : text) :
  no_markup (escape_html s) = true /\
  ampersands_head_entities (escape_html s) = true /\
  unescape_html (escape_html s) = s /\
  (escape_html s = escape_html s' -> s = s').
Proof.
  split; [| split; [| split]].
  - rewrite escape_html_by_char. apply forallb_flat_map.
    intros c. each_ascii c.
  - rewrite escape_html_by_char. induction s as [| c s IH]; [reflexivity |].
    cbn [flat_map]. apply ampersands_app; [| exact IH]. each_ascii c.
  - apply unescape_escape.
  - intros H. rewrite <- (unescape_escape s), <- (unescape_escape s'), H.
    reflexivity.
Qed.

(** * Further properties *)

(** ** Trimming *)

Lemma lstrip_head (sp : ascii -> bool) (s : text) (c : ascii) (t : text) :
  lstrip_by sp s = c :: t -> sp c = false.
Proof.
  induction s as [| x s IH]; simpl; [discriminate |].
  destruct (sp x) eqn:E; [exact IH |]. intros H. injection H as <- _. exact E.
Qed.

Lemma lstrip_idem (sp : ascii -> bool) (s : text) :
  lstrip_by sp (lstrip_by sp s) = lstrip_by sp s.
Proof.
  destruct (lstrip_by sp s) as [| c t] eqn:E; [reflexivity |].
  simpl. rewrite (lstrip_head sp s c t E). reflexivity.
Qed.

Lemma lstrip_app_kept (sp : ascii -> bool) (u : text) (c : ascii) :
  sp c = false -> lstrip_by sp (u ++ [c]) = lstrip_by sp u ++ [c].
Proof.
  intros Hc. induction u as [| x u IH]; simpl; [rewrite Hc; reflexivity |].
  destruct (sp x); [exact IH | reflexivity].
Qed.

Lemma rstrip_cons (sp : ascii -> bool) (c : ascii) (t : text) :
  sp c = false ->
  rev (lstrip_by sp (rev (c :: t))) = c :: rev (lstrip_by sp (rev t)).
Proof.
  intros Hc. cbn [rev]. rewrite (lstrip_app_kept sp (rev t) c Hc).
  rewrite rev_app_distr. reflexivity.
Qed.

(** [str.strip] twice is [str.strip] once. *)
Lemma strip_by_idem (sp : ascii -> bool) (s : text) :
  strip_by sp (strip_by sp s) = strip_by sp s.
Proof.
  unfold strip_by. destruct (lstrip_by sp s) as [| c t] eqn:E;
    [reflexivity |].
  pose proof (lstrip_head sp s c t E) as Hc.
  rewrite (rstrip_cons sp c t Hc). cbn [lstrip_by]. rewrite Hc.
  rewrite (rstrip_cons sp c _ Hc), rev_involutive, lstrip_idem.
  reflexivity.
Qed.

Lemma strip_idem (s : text) : strip (strip s) = strip s.
Proof. apply strip_by_idem. Qed.

(** ** One pass, case by case *)

Lemma on_change_exact (a : Args) (c : Caps) (st : Monitor) (cy : Cycle)
    (current : text) (selector : option text) :
  exists curr positions,
    extract_unrealized_pnl current = inr curr /\
    parse_positions current = inr positions /\
    on_change a c st cy current selector =
      inr ({| last_text := Some current;
              last_unrealized := updated_value st curr |},
           change_effects a c cy (pnl_delta (last_unrealized st) curr)
             current selector positions).
Proof.
  destruct (extract_unrealized_pnl_returns current) as [curr Hcurr].
  destruct (parse_positions_returns current) as [rs [_ Hps]].
  exists curr, (sort_by key_lt sort_key rs).
  split; [exact Hcurr |]. split; [exact Hps |].
  unfold on_change, change_effects, alert_message, updated_value.
  rewrite Hcurr, Hps. cbn [bind ret Monad_either].
  destruct (visual a), (RICH_AVAILABLE c), (popup a), (TKINTER_AVAILABLE c);
    reflexivity.
Qed.

(** A pass either detects a change and does what [change_effects] lists,
    or leaves the state as it was and only waits and prints. *)
Lemma poll_cases (a : Args) (c : Caps) (st : Monitor) (cy : Cycle) :
  exists text selector,
    find_active_positions_container (page cy) = inr (text, selector) /\
    if change_detected st cy (strip text) then
      exists curr positions,
        extract_unrealized_pnl (strip text) = inr curr /\
        parse_positions (strip text) = inr positions /\
        poll a c st cy =
          inr ({| last_text := Some (strip text);
                  last_unrealized := updated_value st curr |},
               nav_effects cy
               ++ change_effects a c cy (pnl_delta (last_unrealized st) curr)
                    (strip text) selector positions)
    else
      exists es,
        poll a c st cy = inr (st, es) /\ forallb status_only es = true /\
        (last_text st <> None -> existsb is_initialized es = false).
Proof.
  destruct (find_returns (page cy)) as [text [selector Hfind]].
  exists text, selector. split; [exact Hfind |].
  unfold change_detected, poll, nav_effects. rewrite Hfind.
  destruct (reload_ok cy), (goto_ok cy);
    cbn [negb andb orb bind ret Monad_either];
    try (eexists; split; [reflexivity | split; reflexivity]);
    (destruct (last_text st) as [last |];
     [ destruct (text_eqb (strip text) (strip last)); cbn [negb]
     | ];
     try (eexists; split; [reflexivity | split; [reflexivity |]];
          first [ intros _; reflexivity | intros H; elim H; reflexivity ]);
     destruct (on_change_exact a c st cy (strip text) selector)
       as [curr [positions [Hcurr [Hps Hoc]]]];
     exists curr, positions; rewrite Hoc;
     split; [exact Hcurr |]; split; [exact Hps | reflexivity]).
Qed.

(** ** What the effects of a pass hold *)

Lemma screenshots_app (es es' : list effect) :
  screenshots (es ++ es') = screenshots es ++ screenshots es'.
Proof.
  induction es as [| e es IH]; [reflexivity |].
  destruct e; simpl; rewrite ?IH; reflexivity.
Qed.

Lemma html_writes_app (es es' : list effect) :
  html_writes (es ++ es') = html_writes es ++ html_writes es'.
Proof.
  induction es as [| e es IH]; [reflexivity |].
  destruct e; simpl; rewrite ?IH; reflexivity.
Qed.

Lemma shown_positions_app (es es' : list effect) :
  shown_positions (es ++ es') = shown_positions es ++ shown_positions es'.
Proof.
  induction es as [| e es IH]; [reflexivity |].
  destruct e; simpl; rewrite ?IH; reflexivity.
Qed.

(** Effects that are all [status_only] announce nothing, write nothing,
    take no screenshot, show no positions and raise no alert. *)
Lemma status_only_idle (es : list effect) :
  forallb status_only es = true ->
  change_events es = [] /\ log_appends es = [] /\ screenshots es = [] /\
  html_writes es = [] /\ shown_positions es = [] /\
  existsb is_alert es = false /\ ~ In (Print (PayloadLine [])) es.
Proof.
  induction es as [| e es IH].
  - intros _. repeat split; try reflexivity. intros [].
  - cbn [forallb]. intros H. apply andb_prop in H as [He Hes].
    destruct (IH Hes) as [H1 [H2 [H3 [H4 [H5 [H6 H7]]]]]].
    destruct e as [n | m | | ch | sel | ps | ps | t1 m1 | | t1 m1 ps];
      try discriminate He;
      [| destruct m; try discriminate He];
      cbn [change_events log_appends screenshots html_writes shown_positions
           existsb is_alert orb];
      (repeat split; try assumption;
       intros [Hx | Hx]; [discriminate Hx | exact (H7 Hx)]).
Qed.

Lemma nav_effects_status (cy : Cycle) :
  forallb status_only (nav_effects cy) = true.
Proof. unfold nav_effects. destruct (reload_ok cy); reflexivity. Qed.

Lemma not_initialized (es : list effect) :
  existsb is_initialized es = false -> ~ In (Print Initialized) es.
Proof.
  intros H Hin.
  assert (existsb is_initialized es = true) as H'
    by (apply existsb_exists; exists (Print Initialized); split;
        [exact Hin | reflexivity]).
  rewrite H in H'. discriminate.
Qed.

Lemma nav_effects_not_initialized (cy : Cycle) :
  ~ In (Print Initialized) (nav_effects cy).
Proof.
  apply not_initialized. unfold nav_effects.
  destruct (reload_ok cy); reflexivity.
Qed.

(** What the branch taken on a change holds: one announcement, at most one
    log line, one screenshot of the section found, one HTML report, the
    same positions wherever they are shown, and an alert on every channel
    that is switched on. *)
Lemma change_effects_facts (a : Args) (c : Caps) (cy : Cycle)
    (delta : option pyfloat) (current : text) (selector : option text)
    (positions : list Position) :
  let es := change_effects a c cy delta current selector positions in
  change_events es = [delta] /\
  log_appends es =
    (if log_writable cy then [payload_json (ts_now cy) current ++ [newline]]
     else []) /\
  screenshots es = [selector] /\
  html_writes es = [positions] /\
  Forall (eq positions) (shown_positions es) /\
  existsb is_alert es = (notify a || sound a || popup a) /\
  ~ In (Print Initialized) es.
Proof.
  unfold change_effects, when.
  destruct (visual a), (RICH_AVAILABLE c), (log_writable cy), (notify a),
    (PLYER_AVAILABLE c), (sound a), (popup a), (TKINTER_AVAILABLE c),
    positions as [| p ps];
    cbv zeta; cbn [is_empty_list negb app];
    (repeat split;
     [ repeat constructor
     | apply not_initialized; reflexivity ]).
Qed.

(** A pass in full: where a change is detected, what it leaves and does;
    where none is, that it changes and does nothing. *)
Lemma poll_summary (a : Args) (c : Caps) (st : Monitor) (cy : Cycle) :
  exists text selector st' es,
    find_active_positions_container (page cy) = inr (text, selector) /\
    poll a c st cy = inr (st', es) /\
    if change_detected st cy (strip text) then
      exists curr positions,
        extract_unrealized_pnl (strip text) = inr curr /\
        parse_positions (strip text) = inr positions /\
        st' = {| last_text := Some (strip text);
                 last_unrealized := updated_value st curr |} /\
        change_events es = [pnl_delta (last_unrealized st) curr] /\
        log_appends es =
          (if log_writable cy
           then [payload_json (ts_now cy) (strip text) ++ [newline]]
           else []) /\
        screenshots es = [selector] /\
        html_writes es = [positions] /\
        Forall (eq positions) (shown_positions es) /\
        existsb is_alert es = (notify a || sound a || popup a) /\
        ~ In (Print Initialized) es
    else
      st' = st /\ forallb status_only es = true /\
      (last_text st <> None -> ~ In (Print Initialized) es).
Proof.
  destruct (poll_cases a c st cy) as [text [selector [Hfind H]]].
  exists text, selector.
  destruct (change_detected st cy (strip text)).
  - destruct H as [curr [positions [Hcurr [Hps Hpoll]]]].
    eexists _, _. split; [exact Hfind |]. split; [exact Hpoll |].
    exists curr, positions.
    split; [exact Hcurr |]. split; [exact Hps |]. split; [reflexivity |].
    destruct (change_effects_facts a c cy (pnl_delta (last_unrealized st) curr)
                (strip text) selector positions)
      as [H1 [H2 [H3 [H4 [H5 [H6 H7]]]]]].
    destruct (status_only_idle _ (nav_effects_status cy))
      as [N1 [N2 [N3 [N4 [N5 [N6 _]]]]]].
    rewrite change_events_app, log_appends_app, screenshots_app,
      html_writes_app, shown_positions_app, existsb_app,
      N1, N2, N3, N4, N5, N6.
    repeat (split; [assumption |]).
    intros Hin. apply in_app_or in Hin as [Hin | Hin].
    + exact (nav_effects_not_initialized cy Hin).
    + exact (H7 Hin).
  - destruct H as [es [Hpoll [Hes Hni]]].
    exists st, es. split; [exact Hfind |]. split; [exact Hpoll |].
    split; [reflexivity |]. split; [exact Hes |].
    intros Hst. apply not_initialized. exact (Hni Hst).
Qed.

Lemma poll_returns (a : Args) (c : Caps) (st : Monitor) (cy : Cycle) :
  exists st' es, poll a c st cy = inr (st', es).
Proof.
  destruct (poll_summary a c st cy) as [_ [_ [st' [es [_ [H _]]]]]].
  exists st', es. exact H.
Qed.

Lemma run_loop_cons (a : Args) (c : Caps) (st st1 st2 : Monitor)
    (cy : Cycle) (cycles : list Cycle) (es1 es2 : list effect) :
  poll a c st cy = inr (st1, es1) ->
  run_loop a c st1 cycles = inr (st2, es2) ->
  run_loop a c st (cy :: cycles) = inr (st2, es1 ++ es2).
Proof. intros H1 H2. cbn [run_loop]. rewrite H1. simpl. rewrite H2. reflexivity. Qed.

(** An invariant of the state that every pass keeps holds after the loop,
    and what holds of the effects of each pass and is kept by
    concatenation holds of the effects of the loop. *)
Lemma run_loop_invariant (a : Args) (c : Caps) (I : Monitor -> Prop)
    (Q : Cycle -> list effect -> Prop)
    (R : list Cycle -> list effect -> Prop) :
  (forall st cy, I st ->
     exists st' es, poll a c st cy = inr (st', es) /\ I st' /\ Q cy es) ->
  R [] [] ->
  (forall cy cycles es es',
     Q cy es -> R cycles es' -> R (cy :: cycles) (es ++ es')) ->
  forall cycles st, I st ->
    exists st' es,
      run_loop a c st cycles = inr (st', es) /\ I st' /\ R cycles es.
Proof.
  intros Hpoll Hnil Hcons cycles.
  induction cycles as [| cy cycles IH]; intros st Hst.
  - exists st, []. split; [reflexivity |]. split; assumption.
  - destruct (Hpoll st cy Hst) as [st1 [es1 [Hp [Hst1 Hq]]]].
    destruct (IH st1 Hst1) as [st2 [es2 [Hr [Hst2 Hr2]]]].
    exists st2, (es1 ++ es2).
    split; [exact (run_loop_cons _ _ _ _ _ _ _ _ _ Hp Hr) |].
    split; [exact Hst2 | exact (Hcons _ _ _ _ Hq Hr2)].
Qed.

Lemma initialize_stores_text (pg : Page) (ts : text) (st : Monitor)
    (es : list effect) :
  initialize pg ts = inr (st, es) ->
  last_text st <> None /\ ~ In (Print Initialized) es.
Proof.
  unfold initialize.
  destruct (find_returns pg) as [text [selector Hfind]]. rewrite Hfind.
  destruct (extract_unrealized_pnl_returns text) as [curr Hcurr].
  cbn [bind ret Monad_either]. rewrite Hcurr.
  intros H. injection H as <- <-. split; [discriminate |].
  apply not_initialized. destruct (is_empty (strip text)); reflexivity.
Qed.

(** ** The loop *)

(** X1.  After the initial scrape the loop is never back in its first
    state and no pass raises: whatever the reloads and the page do in each
    pass -- the calls on the page that fail are caught, and the parsers
    return on every text -- the passes all return, a text stays stored,
    the line "Initialized." is printed neither by the initial scrape nor by
    any pass, and at most one change is announced per pass. *)
Theorem run_loop_never_initialized (a : Args) (c : Caps) (pg : Page)
    (ts : text) (st0 : Monitor) (es0 : list effect) (cycles : list Cycle) :
  initialize pg ts = inr (st0, es0) ->
  exists st es,
    run_loop a c st0 cycles = inr (st, es) /\
    last_text st <> None /\
    ~ In (Print Initialized) (es0 ++ es) /\
    List.length (change_events es) <= List.length cycles.
Proof.
  intros Hinit.
  destruct (initialize_stores_text _ _ _ _ Hinit) as [Hst0 Hes0].
  destruct (run_loop_invariant a c
              (fun st => last_text st <> None)
              (fun _ es => ~ In (Print Initialized) es /\
                           List.length (change_events es) <= 1)
              (fun cycles es => ~ In (Print Initialized) es /\
                 List.length (change_events es) <= List.length cycles))
    with (cycles := cycles) (st := st0)
    as [st [es [Hrun [Hst [Hes Hlen]]]]].
  - intros st cy Hst.
    destruct (poll_summary a c st cy)
      as [text [selector [st' [es [_ [Hpoll H]]]]]].
    exists st', es. split; [exact Hpoll |].
    destruct (change_detected st cy (strip text)) eqn:Hcd.
    + destruct H as [curr [positions [_ [_ [-> [Hev [_ [_ [_ [_ [_ Hni]]]]]]]]]]].
      split; [discriminate |]. split; [exact Hni |]. rewrite Hev. simpl. lia.
    + destruct H as [-> [Hes Hni]]. split; [exact Hst |].
      destruct (status_only_idle es Hes) as [Hev _]. rewrite Hev.
      split; [exact (Hni Hst) | simpl; lia].
  - split; [intros [] | simpl; lia].
  - intros cy cys es es' [H1 H2] [H3 H4]. split.
    + intros Hin. apply in_app_or in Hin as [Hin | Hin]; auto.
    + rewrite change_events_app, length_app. simpl. lia.
  - exact Hst0.
  - exists st, es. split; [exact Hrun |]. split; [exact Hst |].
    split; [| exact Hlen].
    intros Hin. apply in_app_or in Hin as [Hin | Hin]; auto.
Qed.

(** X1 in the scenario: the initial scrape shows T0, then one pass shows
    T1. *)
Lemma run_loop_never_initialized_scenario :
  exists st0 es0,
    initialize (page_showing text_T0) (T "2026-01-01T00:00:00Z")
      = inr (st0, es0) /\
    exists st es,
      run_loop default_args all_caps st0
        [cycle_showing text_T1 (T "2026-01-01T00:00:10Z")] = inr (st, es) /\
      last_text st <> None /\
      ~ In (Print Initialized) (es0 ++ es).
Proof.
  exists {| last_text := Some text_T0;
            last_unrealized := Some (Fin (241 # 2)) |},
    [Print (PayloadLine
       (payload_json (T "2026-01-01T00:00:00Z") (strip text_T0)));
     Screenshot (Some marker_selector)].
  assert (initialize (page_showing text_T0) (T "2026-01-01T00:00:00Z")
          = inr ({| last_text := Some text_T0;
                    last_unrealized := Some (Fin (241 # 2)) |},
                 [Print (PayloadLine
                    (payload_json (T "2026-01-01T00:00:00Z")
                       (strip text_T0)));
                  Screenshot (Some marker_selector)])) as Hinit
    by (vm_compute; reflexivity).
  split; [exact Hinit |].
  destruct (run_loop_never_initialized default_args all_caps _ _ _ _
              [cycle_showing text_T1 (T "2026-01-01T00:00:10Z")] Hinit)
    as [st [es [Hrun [Hst [Hni _]]]]].
  exists st, es. split; [exact Hrun |]. split; [exact Hst | exact Hni].
Defined.

(** After a pass that loaded the page, the stored text, trimmed, is the
    trimmed text of that page -- unless nothing was stored to begin
    with. *)
Lemma poll_stores_text (a : Args) (c : Caps) (st st' : Monitor) (cy : Cycle)
    (txt : text) (selector : option text) (es : list effect) :
  reload_ok cy || goto_ok cy = true ->
  find_active_positions_container (page cy) = inr (txt, selector) ->
  poll a c st cy = inr (st', es) ->
  forall last, last_text st' = Some last -> strip last = strip txt.
Proof.
  intros Hnav Hfind Hpoll last Hlast.
  destruct (poll_summary a c st cy)
    as [text' [selector' [st1 [es1 [Hfind' [Hpoll' H]]]]]].
  rewrite Hfind in Hfind'. injection Hfind' as <- <-.
  rewrite Hpoll in Hpoll'. injection Hpoll' as <- <-.
  unfold change_detected in H. rewrite Hnav in H. cbn [andb] in H.
  destruct (last_text st) as [l |] eqn:Hl.
  - destruct (text_eqb (strip txt) (strip l)) eqn:E; cbn [negb] in H.
    + destruct H as [-> _]. rewrite Hl in Hlast. injection Hlast as <-.
      apply text_eqb_eq in E. symmetry. exact E.
    + destruct H as [curr [positions [_ [_ [-> _]]]]].
      cbn [last_text] in Hlast. injection Hlast as <-. apply strip_idem.
  - destruct H as [-> _]. rewrite Hl in Hlast. discriminate.
Qed.

(** X3.  A text is announced once: after a pass that loaded the page, a
    pass whose page shows the same text up to surrounding white space
    changes nothing and only waits and prints its status line; it
    announces no change, writes no log line and takes no screenshot. *)
Theorem unchanged_text_not_announced_again (a : Args) (c : Caps)
    (st : Monitor) (cy1 cy2 : Cycle) (text1 text2 : text)
    (sel1 sel2 : option text) :
  reload_ok cy1 || goto_ok cy1 = true ->
  find_active_positions_container (page cy1) = inr (text1, sel1) ->
  find_active_positions_container (page cy2) = inr (text2, sel2) ->
  strip text2 = strip text1 ->
  exists st1 es1 es2,
    poll a c st cy1 = inr (st1, es1) /\
    poll a c st1 cy2 = inr (st1, es2) /\
    forallb status_only es2 = true /\
    change_events es2 = [] /\ log_appends es2 = [] /\ screenshots es2 = [].
Proof.
  intros Hnav Hfind1 Hfind2 Heq.
  destruct (poll_returns a c st cy1) as [st1 [es1 Hpoll1]].
  pose proof (poll_stores_text _ _ _ _ _ _ _ _ Hnav Hfind1 Hpoll1) as Hst1.
  destruct (poll_summary a c st1 cy2)
    as [text [selector [st2 [es2 [Hfind [Hpoll2 H]]]]]].
  rewrite Hfind2 in Hfind. injection Hfind as <- <-.
  assert (change_detected st1 cy2 (strip text2) = false) as Hcd.
  { unfold change_detected. destruct (last_text st1) as [l |].
    - rewrite (Hst1 l eq_refl), <- Heq.
      assert (text_eqb (strip text2) (strip text2) = true) as ->
        by (apply text_eqb_eq; reflexivity).
      apply andb_false_r.
    - apply andb_false_r. }
  rewrite Hcd in H. destruct H as [-> [Hes _]].
  exists st1, es1, es2. split; [exact Hpoll1 |]. split; [exact Hpoll2 |].
  split; [exact Hes |].
  destruct (status_only_idle es2 Hes) as [H1 [H2 [H3 _]]].
  repeat split; assumption.
Qed.

(** X3 in the scenario: two passes in a row show T1 after T0 was stored. *)
Lemma unchanged_text_not_announced_again_scenario :
  exists st1 es1 es2,
    poll default_args all_caps
      {| last_text := Some text_T0; last_unrealized := Some (Fin (241 # 2)) |}
      (cycle_showing text_T1 (T "2026-01-01T00:00:10Z")) = inr (st1, es1) /\
    poll default_args all_caps st1
      (cycle_showing text_T1 (T "2026-01-01T00:00:20Z")) = inr (st1, es2) /\
    change_events es2 = [].
Proof.
  destruct (unchanged_text_not_announced_again default_args all_caps
              {| last_text := Some text_T0;
                 last_unrealized := Some (Fin (241 # 2)) |}
              (cycle_showing text_T1 (T "2026-01-01T00:00:10Z"))
              (cycle_showing text_T1 (T "2026-01-01T00:00:20Z"))
              text_T1 text_T1 (Some marker_selector) (Some marker_selector)
              eq_refl eq_refl eq_refl eq_refl)
    as [st1 [es1 [es2 [H1 [H2 [_ [H3 _]]]]]]].
  exists st1, es1, es2. split; [exact H1 |]. split; [exact H2 | exact H3].
Defined.

(** X4.  A run in which no change is announced leaves the state as it was
    and does nothing but wait and print status lines: no screenshot, no
    log line, no report and no alert without the announcement of a
    change. *)
Theorem run_loop_idle_without_change (a : Args) (c : Caps)
    (cycles : list Cycle) (st : Monitor) :
  exists st' es,
    run_loop a c st cycles = inr (st', es) /\
    (change_events es = [] ->
     st' = st /\ forallb status_only es = true /\
     screenshots es = [] /\ log_appends es = [] /\ html_writes es = [] /\
     existsb is_alert es = false).
Proof.
  revert st. induction cycles as [| cy cycles IH]; intros st.
  - exists st, []. split; [reflexivity |]. intros _. repeat split.
  - destruct (poll_summary a c st cy)
      as [text [selector [st1 [es1 [_ [Hpoll H]]]]]].
    destruct (IH st1) as [st2 [es2 [Hrun Hidle]]].
    exists st2, (es1 ++ es2).
    split; [exact (run_loop_cons _ _ _ _ _ _ _ _ _ Hpoll Hrun) |].
    rewrite change_events_app. intros Hev.
    apply app_eq_nil in Hev as [Hev1 Hev2].
    destruct (change_detected st cy (strip text)).
    + destruct H as [curr [positions [_ [_ [_ [Hev [_ _]]]]]]].
      rewrite Hev in Hev1. discriminate.
    + destruct H as [-> [Hes1 _]].
      destruct (Hidle Hev2) as [-> [Hes2 _]].
      split; [reflexivity |].
      assert (forallb status_only (es1 ++ es2) = true) as Hes
        by (rewrite forallb_app, Hes1, Hes2; reflexivity).
      split; [exact Hes |].
      destruct (status_only_idle _ Hes) as [_ [H2 [H3 [H4 [_ [H6 _]]]]]].
      repeat split; assumption.
Qed.



(** X6.  With the flags as [main] leaves them, an alert goes out on a pass
    exactly when the pass detects a change: at least one of notification,
    sound and popup (or the line that says its backend is missing) on
    every detected change, even when no alert option was given, and none
    on any other pass. *)
Theorem main_args_alert_iff_change (a0 : Args) (c : Caps) (st : Monitor)
    (cy : Cycle) :
  (notify (main_args a0) || sound (main_args a0) || popup (main_args a0)
   = true) /\
  (sound (main_args a0) = sound a0 /\ popup (main_args a0) = popup a0 /\
   visual (main_args a0) = visual a0) /\
  exists text selector st' es,
    find_active_positions_container (page cy) = inr (text, selector) /\
    poll (main_args a0) c st cy = inr (st', es) /\
    existsb is_alert es = change_detected st cy (strip text).
Proof.
  assert (notify (main_args a0) || sound (main_args a0) || popup (main_args a0)
          = true) as Hon
    by (unfold main_args; destruct a0 as [v [] [] []]; reflexivity).
  split; [exact Hon |].
  split; [unfold main_args; destruct a0 as [v [] [] []]; repeat split |].
  destruct (poll_summary (main_args a0) c st cy)
    as [text [selector [st' [es [Hfind [Hpoll H]]]]]].
  exists text, selector, st', es.
  split; [exact Hfind |]. split; [exact Hpoll |].
  destruct (change_detected st cy (strip text)).
  - destruct H as [curr [positions [_ [_ [_ [_ [_ [_ [_ [_ [Hal _]]]]]]]]]]].
    rewrite Hal. exact Hon.
  - destruct H as [_ [Hes _]].
    destruct (status_only_idle es Hes) as [_ [_ [_ [_ [_ [Hal _]]]]]].
    exact Hal.
Qed.

(** X7.  The aggregate value is never forgotten: once a value is stored it
    stays stored through every pass, whatever the pages show -- a change
    whose text holds no aggregate value keeps the value stored before --
    so a later delta is taken against the last value that was seen. *)
Theorem run_loop_keeps_last_unrealized (a : Args) (c : Caps) (st : Monitor)
    (cycles : list Cycle) (v : pyfloat) :
  last_unrealized st = Some v ->
  exists st' es v',
    run_loop a c st cycles = inr (st', es) /\
    last_unrealized st' = Some v' /\
    (Forall (fun delta => delta = None) (change_events es) -> v' = v).
Proof.
  revert st v. induction cycles as [| cy cycles IH]; intros st v Hv.
  - exists st, [], v. split; [reflexivity |]. split; [exact Hv | reflexivity].
  - destruct (poll_summary a c st cy)
      as [text [selector [st1 [es1 [_ [Hpoll H]]]]]].
    assert (exists v1, last_unrealized st1 = Some v1 /\
              (Forall (fun delta => delta = None) (change_events es1) ->
               v1 = v)) as [v1 [Hv1 Hsame]].
    { destruct (change_detected st cy (strip text)).
      - destruct H as [curr [positions [_ [_ [-> [Hev _]]]]]].
        rewrite Hev, Hv. destruct curr as [w |]; cbn [updated_value last_unrealized].
        + exists w. split; [reflexivity |]. intros Hall.
          inversion Hall as [| ? ? Hd _]. discriminate Hd.
        + exists v. split; [exact Hv | reflexivity].
      - destruct H as [-> _]. exists v. split; [exact Hv | reflexivity]. }
    destruct (IH st1 v1 Hv1) as [st2 [es2 [v2 [Hrun [Hv2 Hsame2]]]]].
    exists st2, (es1 ++ es2), v2.
    split; [exact (run_loop_cons _ _ _ _ _ _ _ _ _ Hpoll Hrun) |].
    split; [exact Hv2 |].
    rewrite change_events_app. intros Hall. apply Forall_app in Hall as [A B].
    rewrite (Hsame2 B). exact (Hsame A).
Qed.

(** X7 in the scenario: 120.5 is stored and the page shows T1. *)
Lemma run_loop_keeps_last_unrealized_scenario :
  exists st' es v',
    run_loop default_args all_caps
      {| last_text := Some text_T0; last_unrealized := Some (Fin (241 # 2)) |}
      [cycle_showing text_T1 (T "2026-01-01T00:00:10Z")] = inr (st', es) /\
    last_unrealized st' = Some v'.
Proof.
  destruct (run_loop_keeps_last_unrealized default_args all_caps
              {| last_text := Some text_T0;
                 last_unrealized := Some (Fin (241 # 2)) |}
              [cycle_showing text_T1 (T "2026-01-01T00:00:10Z")]
              (Fin (241 # 2)) eq_refl)
    as [st' [es [v' [H1 [H2 _]]]]].
  exists st', es, v'. split; assumption.
Defined.

(** ** The positions one by one *)

(** A match of an alternation of literals is one of the literals. *)
Lemma alts_literals (l : list string) (prev w rest : text)
    (g g' : option text) :
  denotes false (alts (map (fun s => Lit (T s)) l)) prev w rest g g' ->
  In w (map T l).
Proof.
  induction l as [| a l IH]; cbn [map alts].
  - intros [[c [_ Hc]] _]. discriminate Hc.
  - destruct l as [| b l].
    + intros [Hw _]. left. symmetry. exact (lit_eq_exact _ _ Hw).
    + intros [[Hw _] | H].
      * left. symmetry. exact (lit_eq_exact _ _ Hw).
      * right. exact (IH H).
Qed.

(** A match of the ticker pattern has captured one of the tickers. *)
Lemma symbol_group_ticker (s : text) (m : rematch) :
  re_search false symbol_re s = Some m ->
  exists g, m_group m = Some g /\ In g (map T symbols).
Proof.
  intros H. apply re_search_sound in H. destruct H as [before [w [_ Hd]]].
  cbv beta iota delta [symbol_re seqs] in Hd.
  destruct Hd as [w1 [w2 [g1 [_ [_ Hd]]]]].
  destruct Hd as [w3 [w4 [g2 [_ [[[g3 Hd] Hg] [_ [Hg' _]]]]]]].
  exists w3. split; [congruence |].
  exact (alts_literals _ _ _ _ _ _ Hd).
Qed.

(** [parse_block] in closed form: the record depends on the P&L search and
    the ticker search alone. *)
Lemma parse_block_exact (block : text) :
  parse_block block =
    inr (match re_search true position_pnl_re (upper block) with
         | Some m =>
             Some {| symbol := symbol_of (upper block);
                     side := []; leverage := [];
                     pnl_value := pnl_value_of (pnl_text_of m);
                     pnl_text := pnl_text_of m;
                     entry_price := [] |}
         | None => None
         end).
Proof.
  unfold parse_block, symbol_of, pnl_value_of, pnl_text_of. cbv zeta.
  rewrite side_never_matches, entry_price_never_matches,
    leverage_never_matches.
  destruct (re_search false symbol_re (upper block)) as [ms |] eqn:Es;
    [destruct (symbol_group _ _ Es) as [sy Hsy]; unfold group1 at 1;
     rewrite Hsy |];
    (destruct (re_search true position_pnl_re (upper block)) as [m |] eqn:E;
     [ destruct (position_pnl_group _ _ E) as [g [Hg Hin]];
       unfold group1; rewrite Hg; cbn [bind ret Monad_either];
       set (pt := strip (replace (T " ") [] g));
       set (fl := float_of_string _);
       destruct (is_empty pt);
       [ reflexivity
       | destruct fl as [e | v]; unfold try_except; reflexivity ]
     | cbn [bind ret Monad_either is_empty]; reflexivity ]).
Qed.
Lemma strip_by_cons (sp : ascii -> bool) (c : ascii) (t : text) :
  sp c = false ->
  strip_by sp (c :: t) = c :: rev (lstrip_by sp (rev t)).
Proof.
  intros Hc. unfold strip_by. cbn [lstrip_by]. rewrite Hc.
  apply rstrip_cons. exact Hc.
Qed.

Lemma b64_round_nonpos (q : Q) :
  (0 <= Qnum q)%Z -> flt (Fin 0) (b64_round (- q)%Q) = false.
Proof.
  unfold b64_round. destruct q as [n d]. cbn [Qopp Qnum Qden].
  destruct n as [| n | n]; cbn [Z.opp]; intros H.
  - reflexivity.
  - pose proof (b64_round_pos_nonneg n d) as Hp.
    destruct (b64_round_pos n d) as [v | | |]; try reflexivity.
    cbn [flt] in *. apply negb_false_iff in Hp. apply negb_false_iff.
    apply Qle_bool_iff in Hp. apply Qle_bool_iff.
    rewrite Qred_correct.
    setoid_replace 0%Q with (- 0)%Q by reflexivity.
    apply Qopp_le_compat. exact Hp.
  - lia.
Qed.

Lemma sign_chars (c : ascii) :
  one_of "+-" c = true -> c = "+"%char \/ c = "-"%char.
Proof. char_cases c. Qed.

(** What the P&L pattern of [parse_positions] captures: an optional sign,
    the dollar sign, and characters of an unsigned amount. *)
Lemma position_pnl_parts (s : text) (m : rematch) (g : text) :
  re_search true position_pnl_re s = Some m -> m_group m = Some g ->
  exists sign r,
    g = sign ++ "$"%char :: r /\
    (sign = [] \/ sign = T "+" \/ sign = T "-") /\
    forallb unsigned_char r = true.
Proof.
  intros Hm Hg. apply re_search_sound in Hm.
  destruct Hm as [before [w [_ Hd]]]. rewrite Hg in Hd.
  cbv beta iota delta [position_pnl_re seqs] in Hd.
  destruct Hd as [w1 [w2 [g1 [_ [_ Hd]]]]].
  destruct Hd as [w3 [w4 [g2 [_ [_ [[g3 Hd] Hg']]]]]].
  injection Hg' as <-.
  destruct Hd as [w5 [w6 [g4 [-> [H1 H2]]]]].
  destruct H2 as [w7 [w8 [g5 [-> [[H3 _] H4]]]]].
  destruct H4 as [w9 [w10 [g6 [-> [[H5 _] H6]]]]].
  apply amount_re_unsigned in H6. apply lit_eq_dollar in H3. subst w7.
  exists w5, (w9 ++ w10). split; [reflexivity |]. split.
  - destruct H1 as [[[c [-> Hc]] _] | [-> _]]; [| left; reflexivity].
    right. destruct (sign_chars c Hc) as [-> | ->]; [left | right]; reflexivity.
  - rewrite forallb_app, H6, andb_true_r.
    revert H5. apply forallb_weaken. intros c. char_cases c.
Qed.

Lemma replace_char_cons (x c : ascii) (new s : text) :
  replace [x] new (c :: s)
  = (if ascii_eqb x c then new else [c]) ++ replace [x] new s.
Proof. rewrite !replace_char. reflexivity. Qed.

Lemma rstrip_chars (sp q : ascii -> bool) (s : text) :
  forallb q s = true -> forallb q (rev (lstrip_by sp (rev s))) = true.
Proof.
  rewrite !forallb_forall. intros H c Hc. apply H.
  apply in_rev in Hc. apply lstrip_subset in Hc. apply in_rev in Hc. exact Hc.
Qed.

Lemma unsigned_no_minus (s : text) :
  forallb unsigned_char s = true -> ~ In "-"%char s.
Proof.
  intros H Hin. rewrite forallb_forall in H. specialize (H _ Hin).
  discriminate H.
Qed.

(** [float] of a minus sign and an unsigned literal is not above zero. *)
Lemma float_of_string_minus (s : text) (v : pyfloat) :
  float_of_string ("-"%char :: s) = inr v -> flt (Fin 0) v = false.
Proof.
  unfold float_of_string. rewrite strip_by_cons by reflexivity.
  cbn [ascii_eqb Ascii.eqb Bool.eqb].
  destruct (unsigned_literal _) as [e | q] eqn:E;
    cbn [bind ret Monad_either]; [discriminate |].
  intros H. injection H as <-.
  apply b64_round_nonpos. exact (unsigned_literal_nonneg _ _ E).
Qed.

(** The value of a position has the sign written before its dollar sign:
    with a minus sign it is not above zero, without one it is not below
    zero. *)
Lemma pnl_value_sign (sign r : text) (v : pyfloat) :
  sign = [] \/ sign = T "+" \/ sign = T "-" ->
  forallb unsigned_char r = true ->
  let pt := strip (replace (T " ") [] (sign ++ "$"%char :: r)) in
  pnl_value_of pt = Some v ->
  if starts_with (T "-") pt then sign = T "-" /\ flt (Fin 0) v = false
  else sign <> T "-" /\ flt v (Fin 0) = false.
Proof.
  intros Hsign Hr. cbv zeta. change (T " ") with [" "%char].
  assert (Hr1 : forallb unsigned_char (replace [" "%char] [] r) = true)
    by (revert Hr; apply (delete_char_chars _ unsigned_char); intros c; auto).
  set (rr := rev (lstrip_by is_space (rev (replace [" "%char] [] r)))).
  assert (Hrr : forallb unsigned_char rr = true)
    by (apply rstrip_chars; exact Hr1).
  set (R3 := replace ["+"%char] []
               (replace [","%char] [] (replace ["$"%char] [] rr))).
  assert (HR3 : forallb unsigned_char R3 = true).
  { unfold R3.
    apply (delete_char_chars _ unsigned_char); [intros c; auto |].
    apply (delete_char_chars _ unsigned_char); [intros c; auto |].
    apply (delete_char_chars _ unsigned_char); [intros c; auto |].
    exact Hrr. }
  unfold pnl_value_of, strip.
  change (T "$") with ["$"%char]. change (T ",") with [","%char].
  change (T "+") with ["+"%char]. change (T "-") with ["-"%char].
  destruct Hsign as [-> | [-> | ->]];
    cbn [app T list_ascii_of_string];
    rewrite !replace_char_cons; cbn [ascii_eqb Ascii.eqb Bool.eqb app];
    rewrite strip_by_cons by reflexivity;
    rewrite ?rstrip_cons by reflexivity;
    fold rr;
    cbn [is_empty starts_with ascii_eqb Ascii.eqb Bool.eqb andb];
    repeat (rewrite replace_char_cons;
            cbn [ascii_eqb Ascii.eqb Bool.eqb app]);
    fold R3.
  - destruct (float_of_string R3) as [e | v'] eqn:E; [intros Hv; discriminate Hv |].
    intros Hv. injection Hv as <-. split; [intros Hv; discriminate Hv |].
    exact (float_of_string_nonneg _ _ (unsigned_no_minus _ HR3) E).
  - destruct (float_of_string R3) as [e | v'] eqn:E; [intros Hv; discriminate Hv |].
    intros Hv. injection Hv as <-. split; [intros Hv; discriminate Hv |].
    exact (float_of_string_nonneg _ _ (unsigned_no_minus _ HR3) E).
  - destruct (float_of_string ("-"%char :: R3)) as [e | v'] eqn:E;
      [intros Hv; discriminate Hv |].
    intros Hv. injection Hv as <-. split; [reflexivity |].
    exact (float_of_string_minus _ _ E).
Qed.

Lemma parse_positions_members (s : text) :
  exists ps,
    parse_positions s = inr ps /\
    Forall (fun p => exists b, parse_block b = inr (Some p)) ps.
Proof.
  destruct (unsorted_positions_returns s) as [rs [Hrs [_ Hall]]].
  exists (sort_by key_lt sort_key rs). split.
  - unfold parse_positions. rewrite Hrs. reflexivity.
  - eapply Permutation_Forall; [apply sort_by_perm | exact Hall].
Qed.

(** X8.  Unlike the aggregate value, the value of a position keeps its
    sign: every position returned by [parse_positions] has a P&L text with
    a dollar sign in it, and its value, where it has one, is not above
    zero when the text starts with a minus sign and not below zero when
    it does not. *)
Theorem parse_positions_value_has_sign_of_text (s : text) :
  exists ps,
    parse_positions s = inr ps /\
    Forall (fun p =>
              In "$"%char (pnl_text p) /\
              forall v, pnl_value p = Some v ->
                if starts_with (T "-") (pnl_text p)
                then flt (Fin 0) v = false
                else flt v (Fin 0) = false) ps.
Proof.
  destruct (parse_positions_members s) as [ps [Hps Hall]].
  exists ps. split; [exact Hps |].
  eapply Forall_impl; [| exact Hall]. clear. intros p [b Hb].
  rewrite parse_block_exact in Hb.
  destruct (re_search true position_pnl_re (upper b)) as [m |] eqn:E;
    [| discriminate].
  injection Hb as <-. cbn [pnl_text pnl_value].
  destruct (position_pnl_group _ _ E) as [g [Hg Hin]].
  destruct (position_pnl_parts _ _ _ E Hg) as [sign [r [-> [Hsign Hr]]]].
  unfold pnl_text_of. rewrite Hg. split.
  - apply strip_keeps; [| exact dollar_not_space].
    apply (delete_char_keeps " "%char); [exact Hin | discriminate].
  - intros v Hv. pose proof (pnl_value_sign sign r v Hsign Hr Hv) as H.
    cbv zeta in H.
    destruct (starts_with (T "-") _); destruct H as [_ H]; exact H.
Qed.

(** X9.  The symbol of every position returned by [parse_positions] is one
    of the 34 tickers of the pattern, in upper case, or empty: nothing
    else of the text can end up as a symbol, and no symbol is guessed from
    a price. *)
Theorem parse_positions_symbol_is_ticker (s : text) :
  exists ps,
    parse_positions s = inr ps /\
    Forall (fun p => symbol p = [] \/ In (symbol p) (map T symbols)) ps.
Proof.
  destruct (parse_positions_members s) as [ps [Hps Hall]].
  exists ps. split; [exact Hps |].
  eapply Forall_impl; [| exact Hall]. clear. intros p [b Hb].
  rewrite parse_block_exact in Hb.
  destruct (re_search true position_pnl_re (upper b)) as [m |];
    [| discriminate].
  injection Hb as <-. cbn [symbol]. unfold symbol_of.
  destruct (re_search false symbol_re (upper b)) as [ms |] eqn:Es;
    [| left; reflexivity].
  destruct (symbol_group_ticker _ _ Es) as [g [-> Hin]]. right. exact Hin.
Qed.

(** ** The aggregate value *)





(** ** Letter case *)

Lemma same_upper_cons (c c' : ascii) (s s' : text) :
  same_upper (c :: s) (c' :: s') <->
  upper_char c = upper_char c' /\ same_upper s s'.
Proof.
  unfold same_upper, upper. cbn [map]. split.
  - intros H. injection H as H1 H2. auto.
  - intros [-> ->]. reflexivity.
Qed.

Lemma same_upper_nil_l (s : text) : same_upper [] s -> s = [].
Proof. destruct s; [reflexivity | discriminate]. Qed.

Lemma same_upper_nil_r (s : text) : same_upper s [] -> s = [].
Proof. destruct s; [reflexivity | discriminate]. Qed.

Lemma same_upper_length (s s' : text) :
  same_upper s s' -> List.length s = List.length s'.
Proof.
  unfold same_upper, upper. intros H.
  rewrite <- (length_map upper_char s), H. apply length_map.
Qed.

Lemma same_upper_rev (s s' : text) :
  same_upper s s' -> same_upper (rev s) (rev s').
Proof.
  unfold same_upper, upper. intros H. rewrite !map_rev, H. reflexivity.
Qed.

Lemma blind_same (p : ascii -> bool) (c c' : ascii) :
  blind p -> upper_char c = upper_char c' -> p c = p c'.
Proof. intros Hp H. rewrite <- (Hp c), <- (Hp c'), H. reflexivity. Qed.

Lemma lower_of_upper (c : ascii) : lower_char (upper_char c) = lower_char c.
Proof. each_ascii c. Qed.

Lemma char_eqb_same (a c c' : ascii) :
  upper_char c = upper_char c' -> char_eqb true a c = char_eqb true a c'.
Proof.
  intros H. unfold char_eqb.
  rewrite <- (lower_of_upper c), <- (lower_of_upper c'), H. reflexivity.
Qed.

Lemma is_word_blind : blind is_word.
Proof. intros c. each_ascii c. Qed.

Lemma is_space_blind : blind is_space.
Proof. intros c. each_ascii c. Qed.

Lemma is_digit_blind : blind is_digit.
Proof. intros c. each_ascii c. Qed.

Lemma word_before_same (s s' : text) :
  same_upper s s' -> word_before s = word_before s'.
Proof.
  destruct s as [| c s], s' as [| c' s']; try discriminate; [reflexivity |].
  intros H. apply same_upper_cons in H as [H _].
  exact (blind_same _ _ _ is_word_blind H).
Qed.

Lemma lit_match_same (s prev prev' rest rest' : text) :
  same_upper prev prev' -> same_upper rest rest' ->
  both (fun x y => same_upper (fst x) (fst y) /\ same_upper (snd x) (snd y))
    (lit_match true s prev rest) (lit_match true s prev' rest').
Proof.
  revert prev prev' rest rest'.
  induction s as [| a s IH]; intros prev prev' rest rest' Hp Hr;
    cbn [lit_match].
  - split; assumption.
  - destruct rest as [| c rest], rest' as [| c' rest']; try discriminate Hr;
      [exact I |].
    apply same_upper_cons in Hr as [Hc Hr].
    rewrite (char_eqb_same a c c' Hc).
    destruct (char_eqb true a c'); [| exact I].
    apply IH; [| exact Hr]. apply same_upper_cons. split; assumption.
Qed.

Lemma star_match_same {A B : Type} (R : A -> B -> Prop) (p : ascii -> bool)
    (k : cont A) (k' : cont B) :
  blind p -> cont_agree R k k' ->
  forall rest rest' prev prev' g g',
    same_upper prev prev' -> same_upper rest rest' ->
    both R (star_match p prev rest g k) (star_match p prev' rest' g' k').
Proof.
  intros Hp Hk. induction rest as [| c rest IH];
    intros rest' prev prev' g g' Hprev Hrest.
  - apply same_upper_nil_l in Hrest as ->. apply Hk; [exact Hprev | reflexivity].
  - destruct rest' as [| c' rest']; [discriminate Hrest |].
    pose proof Hrest as Hrest0.
    apply same_upper_cons in Hrest as [Hc Hrest].
    cbn [star_match]. rewrite (blind_same p c c' Hp Hc).
    destruct (p c'); [| apply Hk; assumption].
    assert (same_upper (c :: prev) (c' :: prev')) as Hprev1
      by (apply same_upper_cons; split; assumption).
    specialize (IH rest' (c :: prev) (c' :: prev') g g' Hprev1 Hrest).
    destruct (star_match p (c :: prev) rest g k),
      (star_match p (c' :: prev') rest' g' k'); try contradiction;
      [exact IH | apply Hk; assumption].
Qed.

(** Under [re.IGNORECASE] a case-blind pattern matches two texts of the
    same upper case alike. *)
Lemma rmatch_same {A B : Type} (R : A -> B -> Prop) (r : regex) :
  case_blind r ->
  forall (k : cont A) (k' : cont B) prev prev' rest rest' g g',
    cont_agree R k k' ->
    same_upper prev prev' -> same_upper rest rest' ->
    both R (rmatch true r prev rest g k) (rmatch true r prev' rest' g' k').
Proof.
  induction r as [s | p | p | p | r1 IH1 | r1 IH1 r2 IH2 | r1 IH1 r2 IH2
                  | r1 IH1 |];
    intros Hb k k' prev prev' rest rest' g g' Hk Hprev Hrest;
    cbn [rmatch case_blind] in *.
  - pose proof (lit_match_same s _ _ _ _ Hprev Hrest) as H.
    destruct (lit_match true s prev rest) as [[p1 q1] |],
      (lit_match true s prev' rest') as [[p2 q2] |]; try contradiction;
      [| exact I].
    destruct H as [H1 H2]. apply Hk; assumption.
  - destruct rest as [| c rest], rest' as [| c' rest'];
      try discriminate Hrest; [exact I |].
    apply same_upper_cons in Hrest as [Hc Hrest].
    rewrite (blind_same p c c' Hb Hc). destruct (p c'); [| exact I].
    apply Hk; [apply same_upper_cons; split; assumption | exact Hrest].
  - apply star_match_same; assumption.
  - destruct rest as [| c rest], rest' as [| c' rest'];
      try discriminate Hrest; [exact I |].
    apply same_upper_cons in Hrest as [Hc Hrest].
    rewrite (blind_same p c c' Hb Hc). destruct (p c'); [| exact I].
    apply star_match_same; try assumption.
    apply same_upper_cons; split; assumption.
  - specialize (IH1 Hb k k' prev prev' rest rest' g g' Hk Hprev Hrest).
    destruct (rmatch true r1 prev rest g k),
      (rmatch true r1 prev' rest' g' k'); try contradiction;
      [exact IH1 | apply Hk; assumption].
  - destruct Hb as [Hb1 Hb2]. apply IH1; try assumption.
    intros p1 p2 q1 q2 g1 g2 Hp Hq. apply IH2; assumption.
  - destruct Hb as [Hb1 Hb2].
    specialize (IH1 Hb1 k k' prev prev' rest rest' g g' Hk Hprev Hrest).
    destruct (rmatch true r1 prev rest g k),
      (rmatch true r1 prev' rest' g' k'); try contradiction;
      [exact IH1 | apply IH2; assumption].
  - apply IH1; try assumption.
    intros p1 p2 q1 q2 g1 g2 Hp Hq. apply Hk; assumption.
  - rewrite (word_before_same _ _ Hprev), (word_before_same _ _ Hrest).
    destruct (xorb _ _); [apply Hk; assumption | exact I].
Qed.

Lemma match_here_same (r : regex) (prev prev' rest rest' : text) :
  case_blind r -> same_upper prev prev' -> same_upper rest rest' ->
  both (fun m m' => List.length (m_prev m) = List.length (m_prev m'))
    (match_here true r prev rest) (match_here true r prev' rest').
Proof.
  intros Hb Hprev Hrest. unfold match_here.
  apply rmatch_same; try assumption.
  intros p1 p2 q1 q2 g1 g2 Hp Hq. cbn [both m_prev].
  exact (same_upper_length _ _ Hp).
Qed.

(** [re.split] with [re.IGNORECASE] and a case-blind pattern cuts two texts
    of the same upper case at the same places. *)
Lemma split_from_same (r : regex) :
  case_blind r ->
  forall rest rest' prev prev' skip piece piece',
    same_upper prev prev' -> same_upper rest rest' ->
    same_upper piece piece' ->
    Forall2 same_upper (split_from true r prev skip piece rest)
      (split_from true r prev' skip piece' rest').
Proof.
  intros Hb. induction rest as [| c rest IH];
    intros rest' prev prev' skip piece piece' Hprev Hrest Hpiece.
  - apply same_upper_nil_l in Hrest as ->. cbn [split_from].
    constructor; [apply same_upper_rev; exact Hpiece | constructor].
  - destruct rest' as [| c' rest']; [discriminate Hrest |].
    pose proof Hrest as Hrest0.
    apply same_upper_cons in Hrest as [Hc Hrest].
    assert (same_upper (c :: prev) (c' :: prev')) as Hprev1
      by (apply same_upper_cons; split; assumption).
    assert (same_upper (c :: piece) (c' :: piece')) as Hpiece1
      by (apply same_upper_cons; split; assumption).
    cbn [split_from]. destruct skip as [| n].
    + pose proof (match_here_same r _ _ _ _ Hb Hprev Hrest0) as Hm.
      rewrite (same_upper_length _ _ Hprev).
      destruct (match_here true r prev (c :: rest)) as [m |],
        (match_here true r prev' (c' :: rest')) as [m' |];
        try contradiction; [| apply IH; assumption].
      cbn [both] in Hm. rewrite Hm.
      destruct (List.length (m_prev m') - List.length prev') as [| n].
      * apply IH; assumption.
      * constructor; [apply same_upper_rev; exact Hpiece |].
        apply IH; try assumption. reflexivity.
    + apply IH; assumption.
Qed.

Lemma entry_time_re_case_blind : case_blind entry_time_re.
Proof.
  unfold entry_time_re. cbn [seqs case_blind].
  repeat split; first [exact is_space_blind | exact is_digit_blind].
Qed.

Lemma parse_block_same (b b' : text) :
  same_upper b b' -> parse_block b = parse_block b'.
Proof. unfold same_upper, parse_block. intros ->. reflexivity. Qed.

Lemma parse_blocks_same (bs bs' : list text) :
  Forall2 same_upper bs bs' -> parse_blocks bs = parse_blocks bs'.
Proof.
  induction 1 as [| b b' bs bs' Hb _ IH]; [reflexivity |].
  cbn [parse_blocks]. rewrite (parse_block_same b b' Hb), IH. reflexivity.
Qed.

(** X11.  Letter case plays no part in what is parsed: two texts that
    differ in the case of their letters only give the same positions and
    the same aggregate value (labels in lower case are found, symbols in
    lower case are recognised). *)
Theorem parsing_ignores_letter_case (s s' : text) :
  upper s = upper s' ->
  parse_positions s = parse_positions s' /\
  extract_unrealized_pnl s = extract_unrealized_pnl s'.
Proof.
  intros H. split.
  - unfold parse_positions, unsorted_positions.
    destruct s as [| c s], s' as [| c' s']; try discriminate H;
      [reflexivity |].
    assert (Forall2 same_upper (position_blocks (c :: s))
              (position_blocks (c' :: s'))) as Hbs.
    { unfold position_blocks, re_split.
      pose proof (split_from_same entry_time_re entry_time_re_case_blind
                    (c :: s) (c' :: s') [] [] 0 [] []
                    eq_refl H eq_refl) as HF.
      destruct HF; [constructor | assumption]. }
    rewrite (parse_blocks_same _ _ Hbs). reflexivity.
  - unfold extract_unrealized_pnl.
    destruct s as [| c s], s' as [| c' s']; try discriminate H;
      [reflexivity |].
    rewrite H. reflexivity.
Qed.

(** X11 on a text in lower case and the same text in upper case. *)
Lemma parsing_ignores_letter_case_example :
  parse_positions (T "entry time: 1:02:03 btc unrealized p&l: -$5.00")
  = parse_positions (T "ENTRY TIME: 1:02:03 BTC UNREALIZED P&L: -$5.00").
Proof.
  exact (proj1 (parsing_ignores_letter_case
                  (T "entry time: 1:02:03 btc unrealized p&l: -$5.00")
                  (T "ENTRY TIME: 1:02:03 BTC UNREALIZED P&L: -$5.00")
                  eq_refl)).
Defined.

(** ** The rows of the HTML report *)

Lemma count_char_app (c : ascii) (s s' : text) :
  count_char c (s ++ s') = count_char c s + count_char c s'.
Proof. unfold count_char. rewrite filter_app, length_app. reflexivity. Qed.

Lemma count_char_none (c : ascii) (p : ascii -> bool) (s : text) :
  forallb p s = true -> p c = false -> count_char c s = 0.
Proof.
  intros Hs Hc. unfold count_char. induction s as [| x s IH]; [reflexivity |].
  cbn [forallb] in Hs. apply andb_prop in Hs as [Hx Hs].
  cbn [filter]. destruct (ascii_eqb c x) eqn:E; [| exact (IH Hs)].
  apply ascii_eqb_eq in E. subst x. rewrite Hx in Hc. discriminate.
Qed.

Lemma escape_html_no_markup (s : text) : no_markup (escape_html s) = true.
Proof.
  unfold no_markup. rewrite escape_html_by_char. apply forallb_flat_map.
  intros c. each_ascii c.
Qed.

(** The characters of markup occur in an escaped field not at all. *)
Lemma escape_html_count (c : ascii) (s : text) :
  In c (T "<>'") \/ c = dquote -> count_char c (escape_html s) = 0.
Proof.
  intros Hc. apply (count_char_none c _ _ (escape_html_no_markup s)).
  destruct Hc as [[<- | [<- | [<- | []]]] | ->]; reflexivity.
Qed.

(** X12.  No field of a position can add markup to the report: whatever
    the positions hold, every row of the table has the twelve tags of the
    template and the two quotes of its class attribute, and no other <, >,
    quote or double quote. *)
Theorem rows_html_str_markup (positions : list Position) :
  count_char "<" (rows_html_str positions) = 12 * List.length positions /\
  count_char ">" (rows_html_str positions) = 12 * List.length positions /\
  count_char "'" (rows_html_str positions) = 2 * List.length positions /\
  count_char dquote (rows_html_str positions) = 0.
Proof.
  assert (Hrow : forall p,
            count_char "<" (html_row p) = 12 /\
            count_char ">" (html_row p) = 12 /\
            count_char "'" (html_row p) = 2 /\
            count_char dquote (html_row p) = 0).
  { intros p. unfold html_row. cbv zeta.
    assert (Hd : forall c, In c (T "<>'") \/ c = dquote ->
              count_char c
                (if is_empty (escape_html (entry_price p)) then []
                 else T "$" ++ escape_html (entry_price p)) = 0).
    { intros c Hc. destruct (is_empty _); [reflexivity |].
      rewrite count_char_app, (escape_html_count c _ Hc).
      destruct Hc as [[<- | [<- | [<- | []]]] | ->]; reflexivity. }
    assert (Hc : forall c, In c (T "<>'") \/ c = dquote ->
              count_char c (pnl_class (pnl_value p)) = 0).
    { intros c Hc. unfold pnl_class.
      destruct (pnl_value p) as [x |]; [destruct (fle (Fin 0) x) |];
        destruct Hc as [[<- | [<- | [<- | []]]] | ->]; reflexivity. }
    repeat split; rewrite !count_char_app, !escape_html_count, Hd, Hc;
      try reflexivity;
      first [ left; simpl; tauto | right; reflexivity ]. }
  unfold rows_html_str.
  induction positions as [| p ps [IH1 [IH2 [IH3 IH4]]]];
    [repeat split; reflexivity |].
  destruct (Hrow p) as [H1 [H2 [H3 H4]]].
  cbn [map List.concat List.length].
  rewrite !count_char_app, IH1, IH2, IH3, IH4, H1, H2, H3, H4.
  repeat split; lia.
Qed.

(** ** The script that locates the section *)

Lemma height_lt_spec (a b : Q) : height_lt a b = true <-> (a < b)%Q.
Proof.
  unfold height_lt. rewrite negb_true_iff. split.
  - intros H. apply Qnot_le_lt. intros Hle.
    apply Qle_bool_iff in Hle. rewrite Hle in H. discriminate.
  - intros H. destruct (Qle_bool b a) eqn:E; [| reflexivity].
    apply Qle_bool_iff in E. exfalso. exact (Qlt_not_le _ _ H E).
Qed.

Lemma height_lt_false (a b : Q) : height_lt a b = false <-> (b <= a)%Q.
Proof.
  unfold height_lt. rewrite negb_false_iff. apply Qle_bool_iff.
Qed.

(** The first element of a list sorted by [sort_by] is the first of the
    elements of least key. *)
Lemma sort_by_head {A : Type} (key : A -> Q) (l : list A) (h : A)
    (t : list A) :
  sort_by height_lt key l = h :: t ->
  exists l1 l2,
    l = l1 ++ h :: l2 /\
    Forall (fun c => (key h < key c)%Q) l1 /\
    Forall (fun c => (key h <= key c)%Q) l2.
Proof.
  revert h t. induction l as [| x l IH]; intros h t H; [discriminate |].
  cbn [sort_by] in H.
  destruct (sort_by height_lt key l) as [| y t'] eqn:E.
  - assert (l = []) as ->.
    { apply Permutation_nil. rewrite <- E. symmetry. apply sort_by_perm. }
    cbn [insert_by] in H. injection H as <- <-.
    exists [], []. repeat split; constructor.
  - destruct (IH y t' eq_refl) as [l1 [l2 [-> [H1 H2]]]].
    cbn [insert_by] in H.
    destruct (height_lt (key y) (key x)) eqn:Hyx.
    + injection H as <- <-. apply height_lt_spec in Hyx.
      exists (x :: l1), l2. repeat split; [constructor | ]; assumption.
    + injection H as <- <-. apply height_lt_false in Hyx.
      exists [], (l1 ++ y :: l2). split; [reflexivity |].
      split; [constructor |].
      apply Forall_app. split; [| constructor].
      * eapply Forall_impl; [| exact H1]. intros c Hc. cbv beta in *.
        apply Qlt_le_weak. eapply Qle_lt_trans; eassumption.
      * exact Hyx.
      * eapply Forall_impl; [| exact H2]. intros c Hc. cbv beta in *.
        eapply Qle_trans; eassumption.
Qed.



(** X13.  The header the script starts from is the label's smallest
    element: of the elements whose text holds ACTIVE POSITIONS in any
    letter case it has the least height, and it is the first of that
    height in document order. *)
Theorem header_is_first_of_least_height (document : element)
    (header : place) (others : list place) :
  headerCandidates document = header :: others ->
  is_candidate header = true /\
  exists before after,
    filter is_candidate (places [] [] document) = before ++ header :: after /\
    Forall (fun c => (height (here header) < height (here c))%Q) before /\
    Forall (fun c => (height (here header) <= height (here c))%Q) after.
Proof.
  intros H. unfold headerCandidates in H.
  destruct (sort_by_head _ _ _ _ H) as [l1 [l2 [Hl [H1 H2]]]].
  split.
  - assert (In header (filter is_candidate (places [] [] document))) as Hin
      by (rewrite Hl; apply in_or_app; right; left; reflexivity).
    apply filter_In in Hin. exact (proj2 Hin).
  - exists l1, l2. repeat split; assumption.
Qed.

(** X13 on the sample document: the header is the [h2] element. *)
Lemma header_is_first_of_least_height_sample :
  exists header others,
    headerCandidates sample_document = header :: others /\
    tag (here header) = T "h2" /\
    is_candidate header = true.
Proof.
  eexists _, _. split; [vm_compute; reflexivity |].
  split; [reflexivity |].
  refine (proj1 (header_is_first_of_least_height sample_document _ _ _)).
  vm_compute. reflexivity.
Defined.








(** ** The log line *)

Lemma json_head_char (c : ascii) (r : text) :
  json_head (json_char c ++ r) = Some (c, r).
Proof. each_ascii c. Qed.

Lemma json_head_quote (r : text) : json_head (dquote :: r) = None.
Proof. reflexivity. Qed.

(** The body of a JSON string can be read back up to its closing quote. *)
Lemma json_body_inj (s s' r r' : text) :
  flat_map json_char s ++ dquote :: r = flat_map json_char s' ++ dquote :: r' ->
  s = s' /\ r = r'.
Proof.
  revert s'. induction s as [| c s IH]; intros [| c' s'] H; cbn [flat_map app] in H.
  - injection H as ->. split; reflexivity.
  - apply (f_equal json_head) in H. rewrite <- app_assoc in H.
    rewrite json_head_char, json_head_quote in H. discriminate.
  - apply (f_equal json_head) in H. rewrite <- app_assoc in H.
    rewrite json_head_char, json_head_quote in H. discriminate.
  - apply (f_equal json_head) in H. rewrite <- !app_assoc in H.
    rewrite !json_head_char in H. injection H as -> H.
    destruct (IH s' H) as [-> ->]. split; reflexivity.
Qed.

Lemma json_string_inj (s s' r r' : text) :
  json_string s ++ r = json_string s' ++ r' -> s = s' /\ r = r'.
Proof.
  unfold json_string. cbn [app]. rewrite <- !app_assoc. cbn [app].
  intros H. injection H as H. exact (json_body_inj _ _ _ _ H).
Qed.

(** X16.  A line of the log records its text and its time stamp exactly:
    two payloads are written alike only when they hold the same time stamp
    and the same text, whatever quotes, backslashes and control characters
    the text holds. *)
Theorem payload_json_inj (ts ts' s s' : text) :
  payload_json ts s = payload_json ts' s' -> ts = ts' /\ s = s'.
Proof.
  unfold payload_json. intros H.
  apply app_inv_head in H. apply app_inv_head in H. apply app_inv_head in H.
  apply json_string_inj in H as [-> H]. split; [reflexivity |].
  do 7 apply app_inv_head in H.
  apply json_string_inj in H as [-> _]. reflexivity.
Qed.

(** X16 on the payload of the text T1. *)
Lemma payload_json_inj_example :
  T "2026-01-01T00:00:10Z" = T "2026-01-01T00:00:10Z" /\ text_T1 = text_T1.
Proof.
  exact (payload_json_inj (T "2026-01-01T00:00:10Z")
           (T "2026-01-01T00:00:10Z") text_T1 text_T1 eq_refl).
Defined.

(** ** The third pattern of [extract_unrealized_pnl] *)

Lemma star_match_rel {A B : Type} (R : A -> B -> Prop) (p : ascii -> bool)
    (k : cont A) (k' : cont B) :
  (forall prev rest g g', both R (k prev rest g) (k' prev rest g')) ->
  forall rest prev g g',
    both R (star_match p prev rest g k) (star_match p prev rest g' k').
Proof.
  intros Hk. induction rest as [| c rest IH]; intros prev g g';
    cbn [star_match]; [apply Hk |].
  destruct (p c); [| apply Hk].
  specialize (IH (c :: prev) g g').
  destruct (star_match p (c :: prev) rest g k),
    (star_match p (c :: prev) rest g' k'); try contradiction;
    [exact IH | apply Hk].
Qed.

(** Where and whether a pattern matches does not depend on the group the
    continuation is handed. *)
Lemma rmatch_rel {A B : Type} (R : A -> B -> Prop) (ic : bool) (r : regex) :
  forall (k : cont A) (k' : cont B),
    (forall prev rest g g', both R (k prev rest g) (k' prev rest g')) ->
    forall prev rest g g',
      both R (rmatch ic r prev rest g k) (rmatch ic r prev rest g' k').
Proof.
  induction r as [s | p | p | p | r1 IH1 | r1 IH1 r2 IH2 | r1 IH1 r2 IH2
                  | r1 IH1 |]; cbn [rmatch]; intros k k' Hk prev rest g g'.
  - destruct (lit_match ic s prev rest) as [[prev' rest'] |];
      [apply Hk | exact I].
  - destruct rest as [| c rest0]; [exact I |].
    destruct (p c); [apply Hk | exact I].
  - apply star_match_rel. exact Hk.
  - destruct rest as [| c rest0]; [exact I |].
    destruct (p c); [apply star_match_rel; exact Hk | exact I].
  - specialize (IH1 k k' Hk prev rest g g').
    destruct (rmatch ic r1 prev rest g k), (rmatch ic r1 prev rest g' k');
      try contradiction; [exact IH1 | apply Hk].
  - apply IH1. intros prev1 rest1 g1 g1'. apply IH2. exact Hk.
  - specialize (IH1 k k' Hk prev rest g g').
    destruct (rmatch ic r1 prev rest g k), (rmatch ic r1 prev rest g' k');
      try contradiction; [exact IH1 | apply IH2; exact Hk].
  - apply IH1. intros prev1 rest1 g1 g1'. apply Hk.
  - destruct (xorb (word_before prev) (word_before rest));
      [apply Hk | exact I].
Qed.

(** From a dollar sign on, the first and the third pattern go the same
    way: they differ in where the group starts only. *)
Lemma after_dollar_rel (from prev rest : text) (g g' : option text) :
  both same_end
    (rmatch false
       (Seq (Lit (T "$")) (Seq (Star is_space) (Group amount_re)))
       prev rest g match_end)
    (rmatch false
       (Seq (Lit (T "$")) (Seq (Star is_space) amount_re))
       prev rest g'
       (fun prev' rest' _ => match_end prev' rest' (Some (consumed from prev')))).
Proof.
  cbn [rmatch].
  destruct (lit_match false (T "$") prev rest) as [[p1 r1] |]; [| exact I].
  apply star_match_rel. intros p2 r2 g2 g2'.
  apply (rmatch_rel same_end false amount_re).
  intros p3 r3 g3 g3'. reflexivity.
Qed.

Lemma not_newline_dollar_not_dollar (c : ascii) :
  not_newline_dollar c = true -> char_eqb false "$"%char c = false.
Proof. char_cases c. Qed.

Lemma not_sign_cases (c : ascii) :
  not_newline_dollar c = false -> one_of "-+" c = false.
Proof. char_cases c. Qed.

(** After the label, the first and the third pattern match alike: the
    sign the third offers to its group has been taken by [[^\n$]*]. *)
Lemma after_label_rel :
  forall rest prev g g',
    both same_end
      (star_match not_newline_dollar prev rest g
         (fun prev' rest' g1 =>
            rmatch false
              (Seq (Lit (T "$")) (Seq (Star is_space) (Group amount_re)))
              prev' rest' g1 match_end))
      (star_match not_newline_dollar prev rest g'
         (fun prev' rest' g1 =>
            rmatch false
              (Group (Seq (Opt (Cls (one_of "-+")))
                        (Seq (Lit (T "$")) (Seq (Star is_space) amount_re))))
              prev' rest' g1 match_end)).
Proof.
  induction rest as [| c rest IH]; intros prev g g'.
  - exact I.
  - cbn [star_match]. destruct (not_newline_dollar c) eqn:Hnd.
    + specialize (IH (c :: prev) g g').
      match goal with
      | |- both _ (match ?x with _ => _ end) (match ?y with _ => _ end) =>
          destruct x as [m1 |] eqn:E1, y as [m3 |] eqn:E3;
            try contradiction; [exact IH |]
      end.
      clear IH E1.
      pose proof (not_newline_dollar_not_dollar c Hnd) as Hc.
      cbn [rmatch lit_match T list_ascii_of_string]. rewrite Hc.
      destruct (one_of "-+" c) eqn:Hsign; [| exact I].
      destruct rest as [| d rest']; [exact I |].
      destruct (char_eqb false "$" d) eqn:Hd; [| exact I].
      assert (d = "$"%char) by (apply (char_eqb_dollar false); exact Hd).
      subst d. cbn [star_match] in E3. rewrite dollar_stops_star in E3.
      cbn [rmatch lit_match T list_ascii_of_string] in E3.
      change (one_of "-+" "$"%char) with false in E3.
      cbv beta iota in E3. rewrite Hd in E3.
      match type of E3 with
      | ?y = None =>
          match goal with
          | |- both _ None (match ?x with _ => _ end) =>
              assert (Hx : is_some x = is_some y)
                by (apply star_match_success; intros ? ? ? ?;
                    apply rmatch_success; intros ? ? ? ?; reflexivity);
              rewrite E3 in Hx; destruct x; [discriminate Hx | exact I]
          end
      end.
    + pose proof (not_sign_cases c Hnd) as Hsign.
      pose proof (after_dollar_rel prev prev (c :: rest) g g') as H.
      cbn [rmatch lit_match T list_ascii_of_string] in H |- *.
      rewrite Hsign. exact H.
Qed.

Lemma match_here_first_third (prev rest : text) :
  both same_end (match_here false pnl_pattern_1 prev rest)
    (match_here false pnl_pattern_3 prev rest).
Proof.
  unfold match_here, pnl_pattern_1, pnl_pattern_3.
  cbv beta iota delta [seqs]. cbn [rmatch].
  destruct (lit_match false (T "UNREALIZED") prev rest) as [[p1 r1] |];
    [| exact I].
  apply after_label_rel.
Qed.

(** The first and the third pattern are found in the same texts, and their
    leftmost matches end at the same place. *)
Lemma re_search_first_third (up : text) :
  both same_end (re_search false pnl_pattern_1 up)
    (re_search false pnl_pattern_3 up).
Proof.
  unfold re_search. generalize (@nil ascii) as prev.
  induction up as [| c up IH]; intros prev; cbn [search_from];
    pose proof (match_here_first_third prev) as H.
  - specialize (H []).
    destruct (match_here false pnl_pattern_1 prev []),
      (match_here false pnl_pattern_3 prev []); try contradiction;
      [exact H | exact I].
  - specialize (H (c :: up)).
    destruct (match_here false pnl_pattern_1 prev (c :: up)),
      (match_here false pnl_pattern_3 prev (c :: up)); try contradiction;
      [exact H | apply IH].
Qed.

(** What follows the last occurrence of [x] in a text. *)
Lemma after_last (x : ascii) (l l' t t' : text) :
  l ++ x :: t = l' ++ x :: t' -> ~ In x t -> ~ In x t' -> t = t'.
Proof.
  intros H Ht Ht'.
  assert (Hr : rev t ++ x :: rev l = rev t' ++ x :: rev l').
  { apply (f_equal (@rev ascii)) in H. rewrite !rev_app_distr in H.
    cbn [rev] in H. rewrite <- !app_assoc in H. exact H. }
  assert (Hn : forall a b u v : text,
             a ++ x :: u = b ++ x :: v -> ~ In x a -> ~ In x b -> a = b).
  { induction a as [| y a IHa]; intros [| z b] u v E Ha Hb.
    - reflexivity.
    - cbn [app] in E. injection E as -> _. elim Hb. left. reflexivity.
    - cbn [app] in E. injection E as -> _. elim Ha. left. reflexivity.
    - cbn [app] in E. injection E as -> E. f_equal.
      apply (IHa b u v E); intros Hin; [apply Ha | apply Hb]; right; exact Hin. }
  apply Hn in Hr.
  - rewrite <- (rev_involutive t), Hr. apply rev_involutive.
  - intros Hin. apply Ht. apply in_rev. exact Hin.
  - intros Hin. apply Ht'. apply in_rev. exact Hin.
Qed.

Lemma lstrip_spaces (sp : ascii -> bool) (ws s : text) :
  forallb sp ws = true -> lstrip_by sp (ws ++ s) = lstrip_by sp s.
Proof.
  induction ws as [| c ws IH]; [reflexivity |].
  cbn [forallb app lstrip_by]. intros H. apply andb_prop in H as [-> H].
  exact (IH H).
Qed.

Lemma replace_char_app (x : ascii) (new s s' : text) :
  replace [x] new (s ++ s') = replace [x] new s ++ replace [x] new s'.
Proof. rewrite !replace_char. apply flat_map_app. Qed.

Lemma replace_char_absent (x : ascii) (new s : text) :
  ~ In x s -> replace [x] new s = s.
Proof.
  rewrite replace_char. induction s as [| c s IH]; [reflexivity |].
  intros H. cbn [flat_map]. destruct (ascii_eqb x c) eqn:E.
  - apply ascii_eqb_eq in E. subst c. elim H. left. reflexivity.
  - cbn [app]. f_equal. apply IH. intros Hin. apply H. right. exact Hin.
Qed.

Lemma spaces_no_char (x : ascii) (ws : text) :
  is_space x = false -> forallb is_space ws = true -> ~ In x ws.
Proof.
  intros Hx H Hin. rewrite forallb_forall in H. rewrite (H _ Hin) in Hx.
  discriminate.
Qed.

(** The amount is cleaned before it is converted: white space before it
    makes no difference. *)
Lemma clean_amount_spaces (ws a : text) :
  forallb is_space ws = true ->
  clean_amount ("$"%char :: ws ++ a) = clean_amount (ws ++ a) /\
  clean_amount (ws ++ a) = clean_amount a.
Proof.
  intros H. unfold clean_amount. change (T "$") with ["$"%char].
  change (T ",") with [","%char]. split.
  - rewrite replace_char_cons. reflexivity.
  - rewrite !replace_char_app.
    rewrite (replace_char_absent "$" [] ws)
      by (apply spaces_no_char; [reflexivity | exact H]).
    rewrite (replace_char_absent "," [] ws)
      by (apply spaces_no_char; [reflexivity | exact H]).
    unfold strip, strip_by. rewrite (lstrip_spaces _ _ _ H). reflexivity.
Qed.

(** An amount is made of digits, commas and points. *)
Lemma amount_re_plain (ic : bool) (prev w rest : text) (g g' : option text) :
  denotes ic amount_re prev w rest g g' ->
  forallb (fun c => digit_or_comma c || one_of "." c) w = true.
Proof.
  unfold amount_re. cbn [denotes].
  intros [w1 [w2 [g1 [-> [[_ [H1 _]] H2]]]]].
  rewrite forallb_app. apply andb_true_iff. split.
  - revert H1. apply forallb_weaken. intros c Hc. rewrite Hc. reflexivity.
  - destruct H2 as [[w3 [w4 [g2 [-> [[H3 _] [_ [H4 _]]]]]]] | [-> _]];
      [| reflexivity].
    rewrite forallb_app. apply andb_true_iff. split.
    + revert H3. apply lit_eq_chars. intros a c [<- | []] Hc.
      apply char_eqb_point in Hc. subst c. reflexivity.
    + revert H4. apply forallb_weaken. intros c. char_cases c.
Qed.

Lemma plain_no_char (x : ascii) (s : text) :
  digit_or_comma x || one_of "." x = false ->
  forallb (fun c => digit_or_comma c || one_of "." c) s = true -> ~ In x s.
Proof.
  intros Hx H Hin. rewrite forallb_forall in H. rewrite (H _ Hin) in Hx.
  discriminate.
Qed.

(** The shape of a match of the first pattern: the dollar sign, white
    space, and the captured amount, up to the end of the match. *)
Lemma first_pattern_shape (up : text) (m : rematch) :
  re_search false pnl_pattern_1 up = Some m ->
  exists before ws a,
    up = before ++ "$"%char :: (ws ++ a) ++ m_rest m /\
    forallb is_space ws = true /\ m_group m = Some a /\
    ~ In "$"%char (ws ++ a).
Proof.
  intros Hm. apply re_search_sound in Hm.
  destruct Hm as [before [w [Hup Hd]]].
  cbv beta iota delta [pnl_pattern_1 seqs] in Hd.
  destruct Hd as [w1 [w2 [g1 [-> [_ Hd]]]]].
  destruct Hd as [w3 [w4 [g2 [-> [_ Hd]]]]].
  destruct Hd as [w5 [w6 [g3 [-> [[Hdol _] Hd]]]]].
  destruct Hd as [w7 [w8 [g4 [-> [[Hs _] [[g5 Hd] Hg]]]]]].
  apply lit_eq_dollar in Hdol. subst w5.
  exists (before ++ w1 ++ w3), w7, w8.
  split; [| split; [exact Hs | split; [exact Hg |]]].
  - rewrite Hup. cbn [T list_ascii_of_string]. rewrite <- !app_assoc.
    reflexivity.
  - apply amount_re_plain in Hd.
    intros Hin. apply in_app_or in Hin as [Hin | Hin].
    + exact (spaces_no_char "$" w7 eq_refl Hs Hin).
    + exact (plain_no_char "$" w8 eq_refl Hd Hin).
Qed.

(** The same of the third pattern, whose group starts at the dollar
    sign. *)
Lemma third_pattern_shape (up : text) (m : rematch) :
  re_search false pnl_pattern_3 up = Some m ->
  exists before ws a,
    up = before ++ "$"%char :: (ws ++ a) ++ m_rest m /\
    forallb is_space ws = true /\
    m_group m = Some ("$"%char :: ws ++ a) /\
    ~ In "$"%char (ws ++ a).
Proof.
  intros Hm.
  destruct (search_from_here _ _ _ _ _ Hm) as [prev [rest Hhere]].
  cbv beta iota delta [pnl_pattern_3 seqs] in Hhere.
  apply signed_group_starts_with_dollar in Hhere.
  destruct Hhere as [w0 [_ [_ [_ [Hg0 _]]]]].
  apply re_search_sound in Hm.
  destruct Hm as [before [w [Hup Hd]]].
  cbv beta iota delta [pnl_pattern_3 seqs] in Hd.
  destruct Hd as [w1 [w2 [g1 [-> [_ Hd]]]]].
  destruct Hd as [w3 [w4 [g2 [-> [_ [[g3 Hd] Hg]]]]]].
  destruct Hd as [w5 [w6 [g4 [-> [Hsign Hd]]]]].
  destruct Hd as [w7 [w8 [g5 [-> [[Hdol _] Hd]]]]].
  destruct Hd as [w9 [w10 [g6 [-> [[Hs _] Hd]]]]].
  apply lit_eq_dollar in Hdol. subst w7.
  assert (w5 = []) as ->.
  { destruct Hsign as [[[c [-> Hc]] _] | [-> _]]; [| reflexivity].
    rewrite Hg in Hg0. cbn [app] in Hg0. injection Hg0 as -> _.
    discriminate Hc. }
  exists (before ++ w1 ++ w3), w9, w10.
  split; [| split; [exact Hs | split; [exact Hg |]]].
  - rewrite Hup. cbn [T list_ascii_of_string app].
    repeat (rewrite <- app_assoc; cbn [app]). reflexivity.
  - apply amount_re_plain in Hd.
    intros Hin. apply in_app_or in Hin as [Hin | Hin].
    + exact (spaces_no_char "$" w9 eq_refl Hs Hin).
    + exact (plain_no_char "$" w10 eq_refl Hd Hin).
Qed.

(** Where the first pattern yields no value, the third yields none. *)
Lemma third_pattern_dead (up : text) :
  try_pattern up pnl_pattern_1 = inr None ->
  try_pattern up pnl_pattern_3 = inr None.
Proof.
  unfold try_pattern. pose proof (re_search_first_third up) as H.
  destruct (re_search false pnl_pattern_1 up) as [m1 |] eqn:E1,
    (re_search false pnl_pattern_3 up) as [m3 |] eqn:E3;
    try contradiction; [| reflexivity].
  unfold same_end in H. cbn [both] in H.
  destruct (first_pattern_shape _ _ E1) as [b1 [ws1 [a1 [Hup1 [Hs1 [Hg1 Hn1]]]]]].
  destruct (third_pattern_shape _ _ E3) as [b3 [ws3 [a3 [Hup3 [Hs3 [Hg3 Hn3]]]]]].
  assert (Heq : ws1 ++ a1 = ws3 ++ a3).
  { rewrite Hup3, H in Hup1.
    change (b3 ++ "$"%char :: (ws3 ++ a3) ++ m_rest m3)
      with (b3 ++ ("$"%char :: ws3 ++ a3) ++ m_rest m3) in Hup1.
    change (b1 ++ "$"%char :: (ws1 ++ a1) ++ m_rest m3)
      with (b1 ++ ("$"%char :: ws1 ++ a1) ++ m_rest m3) in Hup1.
    rewrite !app_assoc in Hup1. apply app_inv_tail in Hup1.
    symmetry. exact (after_last "$" _ _ _ _ Hup1 Hn3 Hn1). }
  unfold group1. rewrite Hg1, Hg3. cbn [bind ret Monad_either].
  destruct (clean_amount_spaces ws3 a3 Hs3) as [-> ->].
  rewrite <- (proj2 (clean_amount_spaces ws3 a3 Hs3)), <- Heq.
  rewrite (proj2 (clean_amount_spaces ws1 a1 Hs1)).
  intros Hf. exact Hf.
Qed.

(** X17.  The third pattern, the one written with a sign in its group,
    never decides the result: on every text [extract_unrealized_pnl]
    returns what it would return with the first two patterns alone.  Where
    the third pattern matches the first has matched before it, and the
    amounts they capture convert alike. *)
Theorem extract_unrealized_pnl_third_pattern_unused (s : text) :
  extract_unrealized_pnl s =
    match s with
    | [] => ret None
    | _ :: _ => first_pattern (upper s) [pnl_pattern_1; pnl_pattern_2]
    end.
Proof.
  destruct s as [| c s]; [reflexivity |].
  unfold extract_unrealized_pnl, patterns. cbn [first_pattern].
  destruct (try_pattern (upper (c :: s)) pnl_pattern_1) as [e | [v |]] eqn:E1;
    cbn [bind ret Monad_either]; try reflexivity.
  destruct (try_pattern (upper (c :: s)) pnl_pattern_2) as [e | [v |]];
    cbn [bind ret Monad_either]; try reflexivity.
  rewrite (third_pattern_dead _ E1). reflexivity.
Qed.
